(** * Verification of the acme tools: password generator, CPU watchdog and
      the Amazon Connections notifier's main process

    Three independent programs are embedded here, each in a module of its
    own:

    - [RandomPassword]: [libexec/acme/randompassword.c];
    - [Terminator]: [com.amazon.parentalcontrolsd_terminator/parentalcontrolsd_terminator.sh];
    - [Notifier]: [application/main.js] together with the parts of
      [modules/config.js] and [modules/requests.js] it calls.

    Definitions come first in every module, theorems after them. *)

From Stdlib Require Import ZArith List String Ascii Bool Lia.
From Stdlib Require Import Strings.Byte DecimalString.
Import ListNotations.

Local Open Scope Z_scope.

(* ================================================================== *)
(** * randompassword.c                                                 *)
(* ================================================================== *)

Module RandomPassword.

(** [#define RNDBUFSIZ 12] and [#define PWLEN 16]. *)
Definition RNDBUFSIZ : nat := 12.
Definition PWLEN : nat := 16.

(** [unsigned char encoding_table[]], the 64 symbols in source order. *)
Definition encoding_table : list ascii :=
  ["A"; "B"; "C"; "D"; "E"; "F"; "G"; "H";
   "+"; "J"; "K"; "L"; "M"; "N"; "-"; "P";
   "Q"; "R"; "S"; "T"; "U"; "V"; "W"; "X";
   "Y"; "Z"; "a"; "b"; "c"; "d"; "e"; "f";
   "g"; "h"; "i"; "j"; "k"; "*"; "m"; "n";
   "o"; "p"; "q"; "r"; "s"; "t"; "u"; "v";
   "w"; "x"; "y"; "z"; "0"; "1"; "2"; "3";
   "4"; "5"; "6"; "7"; "8"; "9"; "@"; "#"]%char.

(** An [unsigned char] read as an [unsigned int]. *)
Definition octet (b : byte) : Z := Z.of_N (Byte.to_N b).

(** Arithmetic on [unsigned int] wraps modulo 2^32. *)
Definition wrap32 (z : Z) : Z := z mod 2 ^ 32.

(** [i < RNDBUFSIZ ? rbuf[i++] : 0]: the value read and the new index. *)
Definition next_octet (rbuf : list byte) (i : nat) : Z * nat :=
  if (i <? RNDBUFSIZ)%nat then (octet (nth i rbuf x00), S i) else (0, i).

(** [encoding_table[(triple >> k * 6) & 0x3F]]. *)
Definition sextet (triple : Z) (k : Z) : Z :=
  Z.land (Z.shiftr triple (k * 6)) 63.

Definition symbol (triple : Z) (k : Z) : ascii :=
  nth (Z.to_nat (sextet triple k)) encoding_table zero.

(** [(octet_a << 0x10) + (octet_b << 0x08) + octet_c]. *)
Definition make_triple (a b c : Z) : Z :=
  wrap32 (wrap32 (wrap32 (Z.shiftl a 16) + wrap32 (Z.shiftl b 8)) + c).

(** One pass through the body of the [for] loop: three octets are consumed
    and four symbols are stored at [pw[j..j+3]]. *)
Definition loop_body (rbuf : list byte) (i : nat) (pw : list ascii)
  : nat * list ascii :=
  let '(octet_a, i1) := next_octet rbuf i in
  let '(octet_b, i2) := next_octet rbuf i1 in
  let '(octet_c, i3) := next_octet rbuf i2 in
  let triple := make_triple octet_a octet_b octet_c in
  (i3, pw ++ [symbol triple 3; symbol triple 2; symbol triple 1; symbol triple 0]).

(** [for (i = 0, j = 0; i < RNDBUFSIZ;) { ... }].  Every pass advances [i],
    so [RNDBUFSIZ] passes are always enough; [fuel] bounds them. *)
Fixpoint encode_loop (fuel : nat) (rbuf : list byte) (i : nat) (pw : list ascii)
  : nat * list ascii :=
  match fuel with
  | O => (i, pw)
  | S fuel' =>
      if (i <? RNDBUFSIZ)%nat then
        let '(i', pw') := loop_body rbuf i pw in
        encode_loop fuel' rbuf i' pw'
      else (i, pw)
  end.

(** The password built from the random buffer. *)
Definition encode (rbuf : list byte) : list ascii :=
  snd (encode_loop RNDBUFSIZ rbuf 0%nat []).

(** What [main] observes of the system: whether [open] succeeded and which
    bytes [read] delivered (none when [read] fails and returns -1). *)
Record env := { open_ok : bool; read_bytes : list byte }.

(** What [main] does: text on standard output, text on standard error and
    the status passed to [exit]. *)
Record outcome := { out : string; err : string; status : Z }.

Definition main (e : env) : outcome :=
  if negb (open_ok e) then
    {| out := EmptyString; err := "cannot open /dev/urandom"; status := 1 |}
  else if (List.length (read_bytes e) <? RNDBUFSIZ)%nat then
    {| out := EmptyString; err := "read did not return enough bytes"; status := 1 |}
  else
    {| out := string_of_list_ascii (encode (read_bytes e));
       err := EmptyString; status := 0 |}.

(** ** The bit-packing as the specification words it

    Three bytes are laid out as 24 bits, most significant first, cut into
    four groups of six bits, and every group selects a symbol. *)

Definition bits_of_byte (b : byte) : list bool :=
  map (Z.testbit (octet b)) [7; 6; 5; 4; 3; 2; 1; 0].

Definition value_of_bits (bs : list bool) : Z :=
  fold_left (fun acc (b : bool) => 2 * acc + (if b then 1 else 0)) bs 0.

Fixpoint groups_of_six (n : nat) (bs : list bool) : list (list bool) :=
  match n with
  | O => []
  | S n' => firstn 6 bs :: groups_of_six n' (skipn 6 bs)
  end.

Definition base64_pack (alphabet : list ascii) (rbuf : list byte) : list ascii :=
  let bits := flat_map bits_of_byte rbuf in
  map (fun g => nth (Z.to_nat (value_of_bits g)) alphabet zero)
      (groups_of_six (List.length bits / 6)%nat bits).

(** ** Definitions used to state the properties *)

Definition zeros : env := {| open_ok := true; read_bytes := repeat x00 RNDBUFSIZ |}.

Definition ones : env := {| open_ok := true; read_bytes := repeat xff RNDBUFSIZ |}.

Fixpoint distinct (l : list ascii) : bool :=
  match l with
  | [] => true
  | c :: l' => negb (existsb (Ascii.eqb c) l') && distinct l'
  end.

Fixpoint index_from (c : ascii) (table : list ascii) (i : nat) : option nat :=
  match table with
  | [] => None
  | x :: table' => if Ascii.eqb x c then Some i else index_from c table' (S i)
  end.

Definition index_of (c : ascii) : option nat := index_from c encoding_table 0.

Definition byte_of (z : Z) : byte :=
  match Byte.of_N (Z.to_N z) with
  | Some b => b
  | None => x00
  end.

Definition decode_quad (s3 s2 s1 s0 : Z) : list byte :=
  [byte_of (s3 * 4 + s2 / 16);
   byte_of ((s2 mod 16) * 16 + s1 / 4);
   byte_of ((s1 mod 4) * 64 + s0)].

Fixpoint decode_groups (n : nat) (pw : list ascii) : option (list byte) :=
  match n, pw with
  | O, [] => Some []
  | S n', c3 :: c2 :: c1 :: c0 :: pw' =>
      match index_of c3, index_of c2, index_of c1, index_of c0,
            decode_groups n' pw' with
      | Some s3, Some s2, Some s1, Some s0, Some rest =>
          Some (decode_quad (Z.of_nat s3) (Z.of_nat s2) (Z.of_nat s1) (Z.of_nat s0)
                ++ rest)
      | _, _, _, _, _ => None
      end
  | _, _ => None
  end.

Definition decode (pw : list ascii) : option (list byte) :=
  decode_groups (PWLEN / 4) pw.

End RandomPassword.

(* ================================================================== *)
(** * parentalcontrolsd_terminator.sh                                  *)
(* ================================================================== *)

Module Terminator.

Local Open Scope string_scope.

(** [APP_NAME] and [CPU_LIMIT] ("% of the CPU to watch for"). *)
Definition APP_NAME : string := "parentalcontrolsd".
Definition CPU_LIMIT : Z := 5.

(** What the script does to the outside world, in order. *)
Inductive action :=
| Logger (msg : string)        (* $LOGGER "..." *)
| Kill (pid : N)               (* kill "$APP_PID": the default signal, TERM *)
| Sleep (seconds : Z)          (* sleep 5 *)
| KillAll9 (name : string).    (* killall -9 "$APP_NAME": KILL *)

(** What the script reads from the system.  The script is written for a
    single matching process (its first comment says so), hence one optional
    pid.  [ps -o %cpu] prints the usage with one decimal, kept here in
    tenths of a percent ("12.3" is 123). *)
Record env := {
  pgrep_first : option N;      (* APP_PID=$(pgrep "$APP_NAME"); empty is None *)
  ps_cpu_tenths : Z;           (* APP_CPU *)
  pgrep_after_sleep : bool;    (* $(pgrep "$APP_NAME") is non-empty after the sleep *)
  killall_status : Z           (* exit status of killall *)
}.

(** [CPU_PERCENTAGE=$(bc <<< $APP_CPU*100)] followed by
    [CPU_PERCENTAGE="${CPU_PERCENTAGE%.*}"]: the product has one decimal,
    always 0, which the suffix removal drops. *)
Definition CPU_PERCENTAGE (e : env) : Z := ps_cpu_tenths e * 10.

(** [CPU_LIMIT_PERCENTAGE=$(bc <<< $CPU_LIMIT*100)]. *)
Definition CPU_LIMIT_PERCENTAGE : Z := CPU_LIMIT * 100.

(** The whole script: the actions performed and the exit status, which is
    that of [exit 0] or of the last command run ([logger] is taken to
    succeed). *)
Definition script (e : env) : list action * Z :=
  match pgrep_first e with
  | None => ([Logger ("The " ++ APP_NAME ++ " process was not found.")], 0)
  | Some APP_PID =>
      if CPU_PERCENTAGE e >=? CPU_LIMIT_PERCENTAGE then
        let head :=
          [Logger (APP_NAME ++ " is using more than 5% CPU.");
           Logger "Attempting to shut down process nicely...";
           Kill APP_PID;
           Sleep 5] in
        if pgrep_after_sleep e then
          ((head ++ [Logger (APP_NAME ++ " is still running. Terminating.");
                     KillAll9 APP_NAME])%list,
           killall_status e)
        else
          ((head ++ [Logger (APP_NAME ++ " was shut down successfully.")])%list, 0)
      else
        ([Logger (APP_NAME ++ " is using less than 5% CPU.")], 0)
  end.

(** The signals among the actions. *)
Definition is_signal (a : action) : bool :=
  match a with
  | Kill _ | KillAll9 _ => true
  | _ => false
  end.

Definition signals (acts : list action) : list action := filter is_signal acts.

(** A run in which the process uses 12.3% of the CPU and survives the
    [kill]. *)
Definition busy : env :=
  {| pgrep_first := Some 42%N; ps_cpu_tenths := 123;
     pgrep_after_sleep := true; killall_status := 0 |}.


(** Every signal among [acts] comes right after a line given to the
    logger or, for the first [kill], after the two lines that announce
    it; [said] tells whether the action before was such a line. *)
Fixpoint announced (said : bool) (acts : list action) : bool :=
  match acts with
  | [] => true
  | Logger _ :: acts' => announced true acts'
  | Kill _ :: acts' => said && announced false acts'
  | KillAll9 _ :: acts' => said && announced false acts'
  | Sleep _ :: acts' => announced false acts'
  end.

End Terminator.

(* ================================================================== *)
(** * The notifier's main process: main.js, config.js, requests.js     *)
(* ================================================================== *)

Module Notifier.

Local Open Scope string_scope.

(** ** JavaScript values that reach the script as launch arguments *)

Inductive value :=
| undefined
| null
| str (s : string).

(** [!v] is [negb (truthy v)]. *)
Definition truthy (v : value) : bool :=
  match v with
  | str s => negb (s =? EmptyString)
  | _ => false
  end.

(** String conversion as done by ['...' + v]. *)
Definition to_str (v : value) : string :=
  match v with
  | undefined => "undefined"
  | null => "null"
  | str s => s
  end.

Definition nl : string := String (ascii_of_nat 10) EmptyString.
Definition dq : string := String (ascii_of_nat 34) EmptyString.
Definition backslash : string := String (ascii_of_nat 92) EmptyString.

Definition string_of_Z (z : Z) : string := NilZero.string_of_int (Z.to_int z).
Definition string_of_bool (b : bool) : string := if b then "true" else "false".

(** A JavaScript object used as a map keeps its keys in insertion order
    ([Object.keys] depends on it). *)
Fixpoint lookup (m : list (string * string)) (k : string) : value :=
  match m with
  | [] => undefined
  | (k', v) :: m' => if k' =? k then str v else lookup m' k
  end.

Definition hasOwnProperty (m : list (string * string)) (k : value) : bool :=
  existsb (fun kv => fst kv =? to_str k) m.

(** ** modules/config.js *)

Definition WINDOW_HEIGHT : Z := 670.
Definition WINDOW_WIDTH : Z := 1000.

Definition ALPHA : string := "alpha".
Definition INTEG : string := "integ".
Definition GAMMA : string := "gamma".
Definition PROD : string := "prod".

Inductive ClientEventType :=
| USERNAME_NOT_FOUND
| PIPE_CONNECTION_ERROR_EVENT
| DISCO_APP_INIT
| WINDOW_SIZE
| LOAD_UI
| LOAD_UI_ERROR
| HEALTH_CHECK_ERROR_EVENT
| DISCO_APP_EXCEPTION_EVENT.

Inductive ClientEventLevel := TRACE | INFO | WARN | ERROR | FATAL.

(** [os_user] is [os.userInfo().username]. *)
Definition WEBSITE_DOMAINS (os_user : string) : list (string * string) :=
  [(ALPHA, "https://" ++ os_user ++ ".aka.corp.amazon.com:8243/");
   (INTEG, "https://cdws-sln-pdx-d.integ.amazon.com/");
   (GAMMA, "https://connections-cdw-gamma.aka.amazon.com/");
   (PROD, "https://connections-cdw-prod.aka.amazon.com/")].

Definition VALID_STAGES_LIST (os_user : string) : list string :=
  map fst (WEBSITE_DOMAINS os_user).

Definition SERVICE_DOMAINS : list (string * string) :=
  [(ALPHA, "https://expresssurveyservice.integ.amazon.com/");
   (INTEG, "https://expresssurveyservice.integ.amazon.com/");
   (GAMMA, "https://expresssurveyservice-gamma-iad.amazon.com/");
   (PROD, "https://expresssurveyservice-iad.amazon.com/")].

Definition CLIENTMETRICS_DOMAIN : list (string * string) :=
  [(ALPHA, "http://ccsm-zqf-pdx-d.integ.amazon.com/");
   (INTEG, "http://ccsm-zqf-pdx-d.integ.amazon.com/");
   (GAMMA, "https://ccsm-zqf-primary-na-pp-iad.iad.proxy.amazon.com/");
   (PROD, "https://ccsm-zqf-primary-na-p-iad.iad.proxy.amazon.com/")].

Definition ALLOW_NTLM_CREDENTIALS_DOMAINS : string := "*.amazon.com".

Definition HEALTH_CHECK_INITIAL_TIMEOUT : Z := 90000.
Definition HEALTH_CHECK_TIMEOUT : Z := 5000.
Definition DISCO_APP_EXCEPTION : string := "DiscoAppException".
Definition HEALTH_CHECK_ERROR : string := "DiscoAppException:HealthCheckError".
Definition PIPE_CONNECTION_ERROR : string := "DiscoAppException:PipeConnectionError".
Definition JADE_ERROR : string := "DiscoAppException:JadeFileError".

(** [var instanceConfig = { username: null, stage: null }]. *)
Record instance := { cfg_username : value; cfg_stage : value }.

Definition instanceConfig0 : instance :=
  {| cfg_username := null; cfg_stage := null |}.

(** ** Exceptions *)

Inductive exn :=
| TypeError (message : string)
| Error (message : string)
| IllegalArgumentException (message : string)
| SystemError (code : string)      (* the argument of the pipe's 'error' event *)
| Foreign (text : string).         (* thrown by code outside this script *)

Definition exn_to_string (e : exn) : string :=
  match e with
  | TypeError m => "TypeError: " ++ m
  | Error m => "Error: " ++ m
  | IllegalArgumentException m => "IllegalArgumentException: " ++ m
  | SystemError c => "Error: " ++ c
  | Foreign t => t
  end.

(** [", "]-separated join of [Array.prototype.join]. *)
Fixpoint join (sep : string) (l : list string) : string :=
  match l with
  | [] => EmptyString
  | [x] => x
  | x :: l' => x ++ sep ++ join sep l'
  end.

(** [exports.setStage]: the new configuration, or the exception thrown. *)
Definition setStage (os_user : string) (c : instance) (stage : value)
  : exn + instance :=
  if negb (hasOwnProperty (WEBSITE_DOMAINS os_user) stage) then
    inl (IllegalArgumentException
           ("Invalid stage passed: " ++ to_str stage ++ ", should be one of: "
            ++ join ", " (VALID_STAGES_LIST os_user)))
  else inr {| cfg_username := cfg_username c; cfg_stage := stage |}.

Definition setUsername (c : instance) (username : value) : instance :=
  {| cfg_username := username; cfg_stage := cfg_stage c |}.

(** ** modules/requests.js *)

(** One telemetry event.  The two time stamps taken from the system clock
    and the four parameters, which main.js never passes (they are all the
    empty string), are not kept. *)
Record client_event := {
  ev_type : ClientEventType;
  ev_level : ClientEventLevel;
  ev_description : value
}.

(** [exports.addEvent]: [events.push(event)], on a fresh array when
    [events] is null or undefined (written [[]] here). *)
Definition addEvent (events : list client_event) (eventType : ClientEventType)
    (eventLevel : ClientEventLevel) (eventDetail : value) : list client_event :=
  (events ++ [{| ev_type := eventType; ev_level := eventLevel;
                 ev_description := eventDetail |}])%list.

(** ** The process seen from the event loop *)

(** Callbacks handed to [setTimeout]. *)
Inductive callback :=
| crashCallback
| exitCallback (errorCode : Z)   (* function() { process.exit(errorCode); } *)
| quitCallback.                  (* function() { app.quit(); } *)

Record timer := { tid : nat; deadline : Z; timer_cb : callback }.

(** The callbacks given to [clearAppData]. *)
Inductive clear_callback :=
| LogBeforeQuit       (* in 'window-all-closed' *)
| LogCacheDeleted     (* in 'will-quit' *)
| IpcAcknowledge      (* in 'clear-app-data' *)
| CrashReport.        (* in crashCallback *)

(** What is chained on the promise of an HTTP request. *)
Inductive request_callback :=
| Unhandled               (* reportClientEvents: the promise is dropped *)
| FinallyExit             (* reportErrorAndExit: .finally(waitAndExit(1)) *)
| CatchLogFinallyExit.    (* handleUncaughtException: .catch(log).finally(waitAndExit(1)) *)

(** Operations in flight whose completion the event loop will deliver. *)
Inductive async_op :=
| StorageClearing (cb : clear_callback)    (* session.clearStorageData({}, ...) *)
| CacheClearing (cb : clear_callback)      (* session.clearCache(...) *)
| Request (k : request_callback)           (* requestPromise(options) *)
| FileReading (events : list client_event). (* fs.readFile(jadeFile, ...) *)

Inductive pstatus := Pending | Fulfilled | Rejected.

(** Reactions registered on the two readiness promises. *)
Inductive reaction :=
| PipeThen      (* function() { whenAppReady.then(initApp).catch(...) } *)
| PipeCatch     (* function(err) { logger.error(...); reportErrorAndExit(...) } *)
| AppThenInit.  (* initApp, with its .catch(handleUncaughtException) *)

Record promise := {
  status : pstatus;
  on_fulfilled : list reaction;
  on_rejected : list reaction
}.

Definition fresh_promise : promise :=
  {| status := Pending; on_fulfilled := []; on_rejected := [] |}.

Inductive promise_name := whenPipeConnected | whenAppReady.

(** The options of [new BrowserWindow({...})] that vary. *)
Record window := {
  win_width : Z; win_height : Z; win_x : Z; win_y : Z;
  win_resizable : bool; win_show : bool
}.

(** Everything the script does that is visible outside it. *)
Inductive effect :=
| Log (level : ClientEventLevel) (message : string) (meta : option string)
| StderrWrite (text : string)
| PostEvents (id : nat) (url employeeLogon : string) (events : list client_event)
| PostError (id : nat) (url eventName errorDetails : string)
| SetAccessibilitySupportEnabled
| NetConnect (pipePath : string)
| PipeEnd
| NewBrowserWindow (w : window)
| SetVisibleOnAllWorkspaces
| NewTray
| AllowNTLMCredentialsForDomains (domains : string)
| FsReadFile (id : nat)
| LoadURL
| ClearStorageData (id : nat)
| ClearCache (id : nat)
| ClearAuthCache
| SetTimeout (id : nat) (cb : callback) (delay : Z)
| ClearTimeout (id : nat)
| ProcessExit (code : Z)
| AppQuit
| IpcReturnValue (v : string)
| CertificateAccepted.

Record state := {
  now : Z;                              (* milliseconds since launch *)
  instanceConfig : instance;            (* config.js *)
  stage : value;                        (* var stage *)
  domain : value;                       (* global.domain *)
  mainWindow : option window;           (* null before initApp and after 'closed' *)
  stdoutTee : bool;                     (* process.stdout.write is patched *)
  pipe_promise : promise;               (* whenPipeConnected *)
  app_promise : promise;                (* whenAppReady *)
  microtasks : list reaction;
  timers : list timer;                  (* pending, in creation order *)
  safeCloseTimeout : option nat;        (* var safeCloseTimeout, once assigned *)
  pending : list (nat * async_op);
  next_id : nat;
  trace : list (Z * effect);            (* effects with the time they happened *)
  exitCode : option Z                   (* set by process.exit *)
}.

Definition initial : state :=
  {| now := 0; instanceConfig := instanceConfig0; stage := undefined;
     domain := undefined; mainWindow := None; stdoutTee := false;
     pipe_promise := fresh_promise; app_promise := fresh_promise;
     microtasks := []; timers := []; safeCloseTimeout := None; pending := [];
     next_id := O; trace := []; exitCode := None |}.

(** Assignment to one component of the state. *)
Definition set_now (v : Z) (s : state) : state :=
  {| now := v; instanceConfig := instanceConfig s; stage := stage s; domain
     := domain s; mainWindow := mainWindow s; stdoutTee := stdoutTee s;
     pipe_promise := pipe_promise s; app_promise := app_promise s;
     microtasks := microtasks s; timers := timers s; safeCloseTimeout :=
     safeCloseTimeout s; pending := pending s; next_id := next_id s; trace
     := trace s; exitCode := exitCode s |}.

Definition set_instanceConfig (v : instance) (s : state) : state :=
  {| now := now s; instanceConfig := v; stage := stage s; domain := domain
     s; mainWindow := mainWindow s; stdoutTee := stdoutTee s; pipe_promise
     := pipe_promise s; app_promise := app_promise s; microtasks :=
     microtasks s; timers := timers s; safeCloseTimeout := safeCloseTimeout
     s; pending := pending s; next_id := next_id s; trace := trace s;
     exitCode := exitCode s |}.

Definition set_stage (v : value) (s : state) : state :=
  {| now := now s; instanceConfig := instanceConfig s; stage := v; domain :=
     domain s; mainWindow := mainWindow s; stdoutTee := stdoutTee s;
     pipe_promise := pipe_promise s; app_promise := app_promise s;
     microtasks := microtasks s; timers := timers s; safeCloseTimeout :=
     safeCloseTimeout s; pending := pending s; next_id := next_id s; trace
     := trace s; exitCode := exitCode s |}.

Definition set_domain (v : value) (s : state) : state :=
  {| now := now s; instanceConfig := instanceConfig s; stage := stage s;
     domain := v; mainWindow := mainWindow s; stdoutTee := stdoutTee s;
     pipe_promise := pipe_promise s; app_promise := app_promise s;
     microtasks := microtasks s; timers := timers s; safeCloseTimeout :=
     safeCloseTimeout s; pending := pending s; next_id := next_id s; trace
     := trace s; exitCode := exitCode s |}.

Definition set_mainWindow (v : option window) (s : state) : state :=
  {| now := now s; instanceConfig := instanceConfig s; stage := stage s;
     domain := domain s; mainWindow := v; stdoutTee := stdoutTee s;
     pipe_promise := pipe_promise s; app_promise := app_promise s;
     microtasks := microtasks s; timers := timers s; safeCloseTimeout :=
     safeCloseTimeout s; pending := pending s; next_id := next_id s; trace
     := trace s; exitCode := exitCode s |}.

Definition set_stdoutTee (v : bool) (s : state) : state :=
  {| now := now s; instanceConfig := instanceConfig s; stage := stage s;
     domain := domain s; mainWindow := mainWindow s; stdoutTee := v;
     pipe_promise := pipe_promise s; app_promise := app_promise s;
     microtasks := microtasks s; timers := timers s; safeCloseTimeout :=
     safeCloseTimeout s; pending := pending s; next_id := next_id s; trace
     := trace s; exitCode := exitCode s |}.

Definition set_pipe_promise (v : promise) (s : state) : state :=
  {| now := now s; instanceConfig := instanceConfig s; stage := stage s;
     domain := domain s; mainWindow := mainWindow s; stdoutTee := stdoutTee
     s; pipe_promise := v; app_promise := app_promise s; microtasks :=
     microtasks s; timers := timers s; safeCloseTimeout := safeCloseTimeout
     s; pending := pending s; next_id := next_id s; trace := trace s;
     exitCode := exitCode s |}.

Definition set_app_promise (v : promise) (s : state) : state :=
  {| now := now s; instanceConfig := instanceConfig s; stage := stage s;
     domain := domain s; mainWindow := mainWindow s; stdoutTee := stdoutTee
     s; pipe_promise := pipe_promise s; app_promise := v; microtasks :=
     microtasks s; timers := timers s; safeCloseTimeout := safeCloseTimeout
     s; pending := pending s; next_id := next_id s; trace := trace s;
     exitCode := exitCode s |}.

Definition set_microtasks (v : list reaction) (s : state) : state :=
  {| now := now s; instanceConfig := instanceConfig s; stage := stage s;
     domain := domain s; mainWindow := mainWindow s; stdoutTee := stdoutTee
     s; pipe_promise := pipe_promise s; app_promise := app_promise s;
     microtasks := v; timers := timers s; safeCloseTimeout :=
     safeCloseTimeout s; pending := pending s; next_id := next_id s; trace
     := trace s; exitCode := exitCode s |}.

Definition set_timers (v : list timer) (s : state) : state :=
  {| now := now s; instanceConfig := instanceConfig s; stage := stage s;
     domain := domain s; mainWindow := mainWindow s; stdoutTee := stdoutTee
     s; pipe_promise := pipe_promise s; app_promise := app_promise s;
     microtasks := microtasks s; timers := v; safeCloseTimeout :=
     safeCloseTimeout s; pending := pending s; next_id := next_id s; trace
     := trace s; exitCode := exitCode s |}.

Definition set_safeCloseTimeout (v : option nat) (s : state) : state :=
  {| now := now s; instanceConfig := instanceConfig s; stage := stage s;
     domain := domain s; mainWindow := mainWindow s; stdoutTee := stdoutTee
     s; pipe_promise := pipe_promise s; app_promise := app_promise s;
     microtasks := microtasks s; timers := timers s; safeCloseTimeout := v;
     pending := pending s; next_id := next_id s; trace := trace s; exitCode
     := exitCode s |}.

Definition set_pending (v : list (nat * async_op)) (s : state) : state :=
  {| now := now s; instanceConfig := instanceConfig s; stage := stage s;
     domain := domain s; mainWindow := mainWindow s; stdoutTee := stdoutTee
     s; pipe_promise := pipe_promise s; app_promise := app_promise s;
     microtasks := microtasks s; timers := timers s; safeCloseTimeout :=
     safeCloseTimeout s; pending := v; next_id := next_id s; trace := trace
     s; exitCode := exitCode s |}.

Definition set_next_id (v : nat) (s : state) : state :=
  {| now := now s; instanceConfig := instanceConfig s; stage := stage s;
     domain := domain s; mainWindow := mainWindow s; stdoutTee := stdoutTee
     s; pipe_promise := pipe_promise s; app_promise := app_promise s;
     microtasks := microtasks s; timers := timers s; safeCloseTimeout :=
     safeCloseTimeout s; pending := pending s; next_id := v; trace := trace
     s; exitCode := exitCode s |}.

Definition set_trace (v : list (Z * effect)) (s : state) : state :=
  {| now := now s; instanceConfig := instanceConfig s; stage := stage s;
     domain := domain s; mainWindow := mainWindow s; stdoutTee := stdoutTee
     s; pipe_promise := pipe_promise s; app_promise := app_promise s;
     microtasks := microtasks s; timers := timers s; safeCloseTimeout :=
     safeCloseTimeout s; pending := pending s; next_id := next_id s; trace
     := v; exitCode := exitCode s |}.

Definition set_exitCode (v : option Z) (s : state) : state :=
  {| now := now s; instanceConfig := instanceConfig s; stage := stage s;
     domain := domain s; mainWindow := mainWindow s; stdoutTee := stdoutTee
     s; pipe_promise := pipe_promise s; app_promise := app_promise s;
     microtasks := microtasks s; timers := timers s; safeCloseTimeout :=
     safeCloseTimeout s; pending := pending s; next_id := next_id s; trace
     := trace s; exitCode := v |}.

(** ** Computations of the script: state, and exceptions that unwind *)

Inductive result (A : Type) :=
| Ok (a : A)
| Throw (e : exn).

Arguments Ok {A} a.
Arguments Throw {A} e.

Definition M (A : Type) : Type := state -> result A * state.

Definition ret {A} (a : A) : M A := fun s => (Ok a, s).

Definition bind {A B} (m : M A) (k : A -> M B) : M B :=
  fun s =>
    match m s with
    | (Ok a, s') => k a s'
    | (Throw e, s') => (Throw e, s')
    end.

Definition throw {A} (e : exn) : M A := fun s => (Throw e, s).

(** [try { m } catch (e) { h e }]. *)
Definition try_catch {A} (m : M A) (h : exn -> M A) : M A :=
  fun s =>
    match m s with
    | (Ok a, s') => (Ok a, s')
    | (Throw e, s') => h e s'
    end.

Definition get : M state := fun s => (Ok s, s).

Definition modify (f : state -> state) : M unit := fun s => (Ok tt, f s).

Notation "x <- m ;; k" := (bind m (fun x => k))
  (at level 61, m at next level, right associativity).
Notation "m ;; k" := (bind m (fun _ => k))
  (at level 61, right associativity).

Definition when (b : bool) (m : M unit) : M unit := if b then m else ret tt.

(** The state a computation leaves behind, whether it returned or threw. *)
Definition exec {A} (m : M A) (s : state) : state := snd (m s).

Definition emit (e : effect) : M unit :=
  modify (fun s => set_trace (trace s ++ [(now s, e)]) s).

Definition logger (level : ClientEventLevel) (message : string) : M unit :=
  emit (Log level message None).

(** [setTimeout(cb, delay)]; a delay below 1 ms counts as 1 ms. *)
Definition setTimeout (cb : callback) (delay : Z) : M nat :=
  s <- get ;;
  let id := next_id s in
  modify (fun s =>
    set_next_id (S id)
      (set_timers (timers s ++ [{| tid := id; deadline := now s + Z.max 1 delay;
                                   timer_cb := cb |}]) s)) ;;
  emit (SetTimeout id cb delay) ;;
  ret id.

Definition clearTimeout (id : nat) : M unit :=
  modify (fun s =>
    set_timers (filter (fun t => negb (tid t =? id)%nat) (timers s)) s) ;;
  emit (ClearTimeout id).

(** Registers an operation whose completion will be delivered later. *)
Definition start_async (op : async_op) : M nat :=
  s <- get ;;
  let id := next_id s in
  modify (fun s => set_next_id (S id) (set_pending (pending s ++ [(id, op)]) s)) ;;
  ret id.

Definition get_promise (p : promise_name) (s : state) : promise :=
  match p with
  | whenPipeConnected => pipe_promise s
  | whenAppReady => app_promise s
  end.

Definition set_promise (p : promise_name) (v : promise) (s : state) : state :=
  match p with
  | whenPipeConnected => set_pipe_promise v s
  | whenAppReady => set_app_promise v s
  end.

(** [resolve()] and [reject()]: only the first call on a promise counts;
    it queues the reactions registered for that outcome. *)
Definition settle (p : promise_name) (outcome : pstatus) : M unit :=
  modify (fun s =>
    let pr := get_promise p s in
    match status pr with
    | Pending =>
        let queued :=
          match outcome with
          | Fulfilled => on_fulfilled pr
          | Rejected => on_rejected pr
          | Pending => []
          end in
        set_microtasks (microtasks s ++ queued)
          (set_promise p {| status := outcome; on_fulfilled := [];
                            on_rejected := [] |} s)
    | _ => s
    end).

(** [p.then(f).catch(g)]: [f] runs when [p] is fulfilled; [g] runs when [p]
    is rejected.  On a settled promise the reaction is queued at once. *)
Definition then_catch (p : promise_name) (f g : list reaction) : M unit :=
  modify (fun s =>
    let pr := get_promise p s in
    match status pr with
    | Pending =>
        set_promise p {| status := Pending;
                         on_fulfilled := on_fulfilled pr ++ f;
                         on_rejected := on_rejected pr ++ g |} s
    | Fulfilled => set_microtasks (microtasks s ++ f) s
    | Rejected => set_microtasks (microtasks s ++ g) s
    end).

(** ** Launch parameters and what the script reads from its environment *)

Record area := { area_x : Z; area_y : Z; area_width : Z; area_height : Z }.

Record launch := {
  arg_username : value;     (* argv.username || argv.u *)
  arg_stage : value;        (* argv.stage || argv.s *)
  arg_dev : bool;           (* Boolean(argv.dev) || Boolean(argv.d) *)
  arg_pipeuuid : value;     (* argv.pipeuuid || argv.p *)
  pipeuuid_isUUID : bool;   (* validator.isUUID(pipeName) *)
  arg_nopipe : bool;        (* argv.nopipe is truthy *)
  platform : string;        (* process.platform *)
  os_username : string;     (* os.userInfo().username *)
  workArea : area           (* electron.screen.getPrimaryDisplay().workArea *)
}.

(** What the environment delivers to the event loop. *)
Inductive event :=
| Elapse (ms : Z)                   (* time passes; due timers fire *)
| AppReady                          (* app 'ready' *)
| PipeConnected                     (* the callback of net.connect *)
| PipeError (code : string)         (* pipeClient 'error', with e.code *)
| PipeClosed                        (* pipeClient 'close' *)
| WindowClosed                      (* mainWindow 'closed' *)
| WindowAllClosed                   (* app 'window-all-closed' *)
| WillQuit                          (* app 'will-quit' *)
| IpcLog (level : ClientEventLevel) (message : string) (details : option string)
| IpcQuit                           (* ipc 'quit' *)
| IpcClearAppData                   (* ipc 'clear-app-data' *)
| IpcHealthCheckPulse               (* ipc 'health-check-pulse' *)
| CertificateError (error url : string)
| Completes (id : nat) (err : option string)  (* an operation in flight ends *)
| UncaughtException (error : exn).  (* an exception from outside this script *)

Section Script.

Variable l : launch.

Definition usage : string :=
  "usage: [--username | -u <value>] [--dev | -d] [--stage | -s <value>] [--pipeuuid | -p <value>]"
  ++ nl.

Definition username : value := arg_username l.
Definition isDeveloperMode : bool := arg_dev l.

(** [pipeName], "ConnectionsDisplayHelperToApp-" + uuid or [undefined]. *)
Definition pipeName : value :=
  if truthy (arg_pipeuuid l) && pipeuuid_isUUID l
  then str ("ConnectionsDisplayHelperToApp-" ++ to_str (arg_pipeuuid l))
  else undefined.

Definition hasPipe : bool :=
  if arg_nopipe l then true
  else match pipeName with undefined => false | _ => true end.

Definition onWindows : bool := platform l =? "win32".
Definition onMac : bool := platform l =? "darwin".

(** *** requests.js, continued *)

(** [exports.reportClientEvents]. *)
Definition reportClientEvents (events : list client_event) : M unit :=
  s <- get ;;
  let stage0 := cfg_stage (instanceConfig s) in
  let username0 := cfg_username (instanceConfig s) in
  let username1 := if truthy username0 then username0 else str "NotFound" in
  let stage1 := if truthy username0 then stage0 else str ALPHA in
  if negb (truthy stage1) then
    throw (Error ("Stage was null or empty, cannot proceed with event report."
                  ++ "Stage: " ++ to_str stage1))
  else
    id <- start_async (Request Unhandled) ;;
    emit (PostEvents id
            (to_str (lookup CLIENTMETRICS_DOMAIN (to_str stage1)) ++ "events")
            (to_str username1) events).

(** [exports.reportError], which is [exports.reportEvent] with two
    arguments swapped; [k] is what the caller chains on the promise. *)
Definition reportError (eventName : string) (errorDetails : value)
    (k : request_callback) : M unit :=
  s <- get ;;
  let stage0 := cfg_stage (instanceConfig s) in
  let username0 := cfg_username (instanceConfig s) in
  if negb (truthy stage0) || negb (truthy username0) then
    throw (Error ("Stage or username was null or empty, cannot proceed with event report."
                  ++ "Stage: " ++ to_str stage0 ++ " . Username: " ++ to_str username0))
  else
    id <- start_async (Request k) ;;
    emit (PostError id
            (to_str (lookup SERVICE_DOMAINS (to_str stage0)) ++ "events/"
             ++ to_str username0)
            eventName
            (if truthy errorDetails then to_str errorDetails else EmptyString)).

(** *** main.js: the delayed exit *)

(** [waitAndRun]: [waitTime] defaults to 1000 when it is undefined. *)
Definition waitAndRun (cb : callback) (waitTime : option Z) : M unit :=
  let waitTime := match waitTime with Some w => w | None => 1000 end in
  _ <- setTimeout cb waitTime ;; ret tt.

Definition waitAndExit (errorCode : Z) (waitTime : option Z) : M unit :=
  waitAndRun (exitCallback errorCode) waitTime.

Definition waitAndQuit (waitTime : option Z) : M unit :=
  waitAndRun quitCallback waitTime.

Definition reportErrorAndExit (eventName : string) (errorDetails : value)
  : M unit :=
  reportError eventName errorDetails FinallyExit.

(** [handleUncaughtException]; the logger exists whenever it can run here. *)
Definition handleUncaughtException (error : exn) : M unit :=
  try_catch
    (emit (Log ERROR "Main: uncaughtException" (Some (exn_to_string error))) ;;
     reportClientEvents (addEvent [] DISCO_APP_EXCEPTION_EVENT ERROR undefined) ;;
     reportError DISCO_APP_EXCEPTION (str (exn_to_string error))
       CatchLogFinallyExit)
    (fun _ => waitAndExit 1 None).

(** What runs when the promise of a request settles; [err] is the reason
    of a rejection. *)
Definition request_settled (k : request_callback) (err : option string)
  : M unit :=
  match k with
  | Unhandled => ret tt
  | FinallyExit => waitAndExit 1 None
  | CatchLogFinallyExit =>
      match err with
      | Some e => emit (Log ERROR "ReportEvent of the exception failed." (Some e))
      | None => ret tt
      end ;;
      waitAndExit 1 None
  end.

(** *** main.js: clearing the application data *)

Definition clearAppData (cb : clear_callback) : M unit :=
  s <- get ;;
  match mainWindow s with
  | None => throw (TypeError "Cannot read property 'webContents' of null")
  | Some _ =>
      logger INFO "deleting app cache" ;;
      id <- start_async (StorageClearing cb) ;;
      emit (ClearStorageData id) ;;
      logger INFO "deleting clientCertificate" ;;
      emit ClearAuthCache ;;
      logger INFO "deleting app cache done"
  end.

(** The callback passed to [clearAppData], run when the cache is cleared. *)
Definition cleared (cb : clear_callback) : M unit :=
  match cb with
  | LogBeforeQuit => logger INFO "clear cache before quit"
  | LogCacheDeleted => logger INFO "app cache deleted"
  | IpcAcknowledge => emit (IpcReturnValue "success")
  | CrashReport =>
      s <- get ;;
      let logMessage :=
        "Disco app crashed. No heartbeat. The stage is: " ++ to_str (stage s)
        ++ " domain is: " ++ to_str (domain s) in
      reportClientEvents
        (addEvent [] HEALTH_CHECK_ERROR_EVENT ERROR (str logMessage)) ;;
      reportErrorAndExit HEALTH_CHECK_ERROR undefined
  end.

Definition crash_message : string := "Render health check failed. Exiting...".

(** The body of [crashCallback]. *)
Definition crash : M unit :=
  logger ERROR crash_message ;;
  clearAppData CrashReport.

Definition process_exit (code : Z) : M unit :=
  emit (ProcessExit code) ;;
  modify (set_exitCode (Some code)).

Definition run_callback (cb : callback) : M unit :=
  match cb with
  | crashCallback => crash
  | exitCallback errorCode => process_exit errorCode
  | quitCallback => emit AppQuit
  end.

(** *** main.js: the window *)

(** [Math.round(area.width / 2 - config.WINDOW_WIDTH / 2) + area.x]; the
    work area has whole coordinates and [Math.round] rounds halves up. *)
Definition xPosition : Z :=
  (area_width (workArea l) - WINDOW_WIDTH + 1) / 2 + area_x (workArea l).

(** [Math.round(Math.max(0, area.height - config.WINDOW_HEIGHT - 100) / 2)
    + area.y]. *)
Definition yPosition : Z :=
  (Z.max 0 (area_height (workArea l) - WINDOW_HEIGHT - 100) + 1) / 2
  + area_y (workArea l).

Definition browserWindowOptions : window :=
  {| win_width := WINDOW_WIDTH; win_height := WINDOW_HEIGHT;
     win_x := xPosition; win_y := yPosition;
     win_resizable := isDeveloperMode; win_show := false |}.

(** [JSON.stringify(windowSizeInfo)]. *)
Definition windowSizeInfo : string :=
  "{" ++ dq ++ "width" ++ dq ++ ":" ++ string_of_Z WINDOW_WIDTH
  ++ "," ++ dq ++ "height" ++ dq ++ ":" ++ string_of_Z WINDOW_HEIGHT
  ++ "," ++ dq ++ "x" ++ dq ++ ":" ++ string_of_Z xPosition
  ++ "," ++ dq ++ "y" ++ dq ++ ":" ++ string_of_Z yPosition
  ++ "," ++ dq ++ "frame" ++ dq ++ ":false"
  ++ "," ++ dq ++ "isDeveloperMode" ++ dq ++ ":" ++ string_of_bool isDeveloperMode
  ++ "}".

(** [configureTray]; the 'display-balloon' listener it installs only
    drives the tray and is not followed further. *)
Definition configureTray : M unit := when onWindows (emit NewTray).

(** [loadSurveyUI] up to the call of [fs.readFile]. *)
Definition loadSurveyUI : M unit :=
  logger INFO "Pre Log" ;;
  logger INFO "Main: Loading survey UI" ;;
  let events := addEvent [] LOAD_UI INFO (str "Main: Loading survey UI") in
  logger INFO "events added" ;;
  emit (AllowNTLMCredentialsForDomains ALLOW_NTLM_CREDENTIALS_DOMAINS) ;;
  logger INFO "session allow NTLMCreds success" ;;
  logger INFO "Jade File found" ;;
  id <- start_async (FileReading events) ;;
  emit (FsReadFile id).

(** The callback of [fs.readFile]; [err] is the error, if any. *)
Definition jadeFile_read (events : list client_event) (err : option string)
  : M unit :=
  logger INFO "JadeFile read" ;;
  match err with
  | Some e =>
      logger ERROR ("Failed to read jade file, error: " ++ e ++ ", exiting.") ;;
      reportClientEvents (addEvent events LOAD_UI_ERROR ERROR (str e)) ;;
      reportErrorAndExit JADE_ERROR (str e)
  | None =>
      logger INFO "after if" ;;
      reportClientEvents events ;;
      logger INFO "requests populated" ;;
      logger INFO "options created" ;;
      logger INFO "html set" ;;
      logger INFO "html reset" ;;
      emit LoadURL
  end.

Definition initApp : M unit :=
  logger INFO "Main: Initiating application" ;;
  let events :=
    addEvent [] DISCO_APP_INIT INFO (str "Main: Initiating application") in
  emit (NewBrowserWindow browserWindowOptions) ;;
  modify (set_mainWindow (Some browserWindowOptions)) ;;
  reportClientEvents (addEvent events WINDOW_SIZE INFO (str windowSizeInfo)) ;;
  emit SetVisibleOnAllWorkspaces ;;
  configureTray ;;
  loadSurveyUI.

(** *** main.js: the readiness promises *)

Definition run_reaction (r : reaction) : M unit :=
  match r with
  | PipeThen => then_catch whenAppReady [AppThenInit] []
  | PipeCatch =>
      logger ERROR "Failed to connect to pipe" ;;
      reportErrorAndExit PIPE_CONNECTION_ERROR undefined
  | AppThenInit => try_catch initApp handleUncaughtException
  end.

(** A reaction that queues another one is counted with it. *)
Definition reaction_weight (r : reaction) : nat :=
  match r with
  | PipeThen => 2
  | _ => 1
  end.

Definition queue_weight (q : list reaction) : nat :=
  fold_right (fun r n => (reaction_weight r + n)%nat) O q.

(** Runs queued reactions in order; an exception thrown by a reaction
    rejects a promise nobody listens to. *)
Fixpoint drain (fuel : nat) (s : state) : state :=
  match fuel with
  | O => s
  | S fuel' =>
      match microtasks s with
      | [] => s
      | r :: q => drain fuel' (exec (run_reaction r) (set_microtasks q s))
      end
  end.

Definition drain_microtasks (s : state) : state :=
  drain (queue_weight (microtasks s)) s.

(** One callback run by the event loop: an exception that escapes it goes
    to the 'uncaughtException' listener, then the queued reactions run. *)
Definition macrotask (m : M unit) (s : state) : state :=
  drain_microtasks
    (match m s with
     | (Ok _, s') => s'
     | (Throw e, s') => exec (handleUncaughtException e) s'
     end).

(** *** main.js: the listeners *)

Definition on_pipe_connected : M unit :=
  emit (StderrWrite ("Pipe connected" ++ nl)) ;;
  modify (set_stdoutTee true) ;;
  settle whenPipeConnected Fulfilled.

Definition on_pipe_error (code : string) : M unit :=
  let errorMsg := "Could not connect to pipe (error code: " ++ code ++ ")" in
  reportClientEvents
    (addEvent [] PIPE_CONNECTION_ERROR_EVENT ERROR (str errorMsg)) ;;
  if isDeveloperMode then
    let noPipeServer := code =? "ENOENT" in
    let timedOut := code =? "ETIMEDOUT" in
    (if negb noPipeServer && negb timedOut then
       settle whenPipeConnected Rejected ;;
       throw (SystemError code)
     else
       when timedOut
         (emit (StderrWrite
                  ("The pipe connection timed out, likely another app "
                   ++ "is already running and connected. Try using a different pipe name."
                   ++ nl)))) ;;
    emit (StderrWrite (errorMsg ++ " but in dev mode so continuing" ++ nl)) ;;
    settle whenPipeConnected Fulfilled
  else
    settle whenPipeConnected Rejected ;;
    emit (StderrWrite (errorMsg ++ ", exiting" ++ nl)) ;;
    waitAndExit 1 None.

Definition on_window_all_closed : M unit :=
  logger INFO "event window-all-closed called" ;;
  clearAppData LogBeforeQuit ;;
  emit AppQuit.

Definition on_will_quit : M unit :=
  logger INFO "event will-quit called" ;;
  clearAppData LogCacheDeleted ;;
  when (onWindows && hasPipe) (emit PipeEnd).

(** ipc 'error', 'warn' and 'info'; no other channel logs. *)
Definition on_ipc_log (level : ClientEventLevel) (message : string)
    (details : option string) : M unit :=
  match level with
  | ERROR | WARN | INFO =>
      emit (Log level message
              (Some (match details with Some d => d | None => "{}" end))) ;;
      emit (IpcReturnValue "success")
  | _ => ret tt
  end.

(** [safeCloseTimeout = setTimeout(crashCallback, delay)]. *)
Definition arm_safeClose (delay : Z) : M unit :=
  id <- setTimeout crashCallback delay ;;
  modify (set_safeCloseTimeout (Some id)).

(** The 'health-check-pulse' listener; [clearTimeout] of a handle that is
    not pending does nothing. *)
Definition on_health_check_pulse : M unit :=
  s <- get ;;
  match safeCloseTimeout s with
  | Some id => clearTimeout id
  | None => ret tt
  end ;;
  arm_safeClose HEALTH_CHECK_TIMEOUT.

Definition on_certificate_error (error url : string) : M unit :=
  logger INFO "event:" ;;
  logger ERROR "[object Object]" ;;
  logger INFO "certificate:" ;;
  logger ERROR "[object Object]" ;;
  logger INFO "webContents:" ;;
  logger ERROR "[object Object]" ;;
  logger ERROR ("Certificate Error, details: { error: { " ++ error
                ++ " }, url: { " ++ url ++ " } }") ;;
  when isDeveloperMode (emit CertificateAccepted).

Fixpoint find_op (id : nat) (ops : list (nat * async_op)) : option async_op :=
  match ops with
  | [] => None
  | (i, op) :: ops' => if (i =? id)%nat then Some op else find_op id ops'
  end.

Definition remove_op (id : nat) (ops : list (nat * async_op))
  : list (nat * async_op) :=
  filter (fun p => negb (fst p =? id)%nat) ops.

(** An operation in flight ends and its callback runs. *)
Definition on_completes (id : nat) (err : option string) : M unit :=
  s <- get ;;
  match find_op id (pending s) with
  | None => ret tt
  | Some op =>
      modify (fun s => set_pending (remove_op id (pending s)) s) ;;
      match op with
      | StorageClearing cb =>
          id' <- start_async (CacheClearing cb) ;;
          emit (ClearCache id')
      | CacheClearing cb =>
          logger INFO "Cleared app data" ;;
          cleared cb
      | Request k => request_settled k err
      | FileReading events => jadeFile_read events err
      end
  end.

(** The listener an event reaches.  The pipe's listeners exist only when a
    connection was attempted, and the window's only while it exists. *)
Definition listener (ev : event) : M unit :=
  match ev with
  | Elapse _ => ret tt
  | AppReady => settle whenAppReady Fulfilled
  | PipeConnected => when (onWindows && hasPipe) on_pipe_connected
  | PipeError code => when (onWindows && hasPipe) (on_pipe_error code)
  | PipeClosed => when (onWindows && hasPipe) (modify (set_stdoutTee false))
  | WindowClosed => modify (set_mainWindow None)
  | WindowAllClosed => on_window_all_closed
  | WillQuit => on_will_quit
  | IpcLog level message details => on_ipc_log level message details
  | IpcQuit => waitAndQuit None
  | IpcClearAppData => clearAppData IpcAcknowledge
  | IpcHealthCheckPulse => on_health_check_pulse
  | CertificateError error url => on_certificate_error error url
  | Completes id err => on_completes id err
  | UncaughtException error => throw error
  end.

(** *** Timers *)

(** The pending timer that fires first: the smallest deadline, and among
    equal deadlines the one created first. *)
Fixpoint earliest (ts : list timer) : option timer :=
  match ts with
  | [] => None
  | t :: ts' =>
      match earliest ts' with
      | Some u => if (deadline u <? deadline t)%Z then Some u else Some t
      | None => Some t
      end
  end.

Definition next_due (target : Z) (ts : list timer) : option timer :=
  match earliest ts with
  | Some t => if (deadline t <=? target)%Z then Some t else None
  | None => None
  end.

Definition remove_timer (id : nat) (ts : list timer) : list timer :=
  filter (fun t => negb (tid t =? id)%nat) ts.

(** A timer fires: the clock is at its deadline, it is no longer pending,
    and its callback runs as a callback of the event loop. *)
Definition fire (t : timer) (s : state) : state :=
  macrotask (run_callback (timer_cb t))
    (set_timers (remove_timer (tid t) (timers s))
       (set_now (Z.max (now s) (deadline t)) s)).

(** Firing [crashCallback] can arm one exit timer; no other callback arms
    a timer.  The count below bounds the firings still possible. *)
Definition timer_weight (t : timer) : nat :=
  match timer_cb t with
  | crashCallback => 2
  | _ => 1
  end.

Definition timers_weight (ts : list timer) : nat :=
  fold_right (fun t n => (timer_weight t + n)%nat) O ts.

(** Fires, in order, the timers due up to [target], until the process has
    exited or none is due. *)
Fixpoint run_timers (fuel : nat) (target : Z) (s : state) : state :=
  match fuel with
  | O => s
  | S fuel' =>
      match exitCode s with
      | Some _ => s
      | None =>
          match next_due target (timers s) with
          | Some t => run_timers fuel' target (fire t s)
          | None => s
          end
      end
  end.

Definition elapse (ms : Z) (s : state) : state :=
  let target := now s + Z.max 0 ms in
  let s' := run_timers (timers_weight (timers s)) target s in
  match exitCode s' with
  | Some _ => s'
  | None => set_now target s'
  end.

(** *** The event loop *)

(** Nothing runs once [process.exit] was called. *)
Definition handle (s : state) (ev : event) : state :=
  match exitCode s with
  | Some _ => s
  | None =>
      match ev with
      | Elapse ms => elapse ms s
      | _ => macrotask (listener ev) s
      end
  end.

Definition run (s : state) (evs : list event) : state := fold_left handle evs s.

(** *** The script itself, top to bottom *)

Definition main_script : M unit :=
  when (negb (truthy username))
    (reportClientEvents
       (addEvent [] USERNAME_NOT_FOUND ERROR (str "Username not found.")) ;;
     emit (StderrWrite usage) ;;
     waitAndExit 1 None) ;;
  modify (fun s => set_instanceConfig (setUsername (instanceConfig s) username) s) ;;
  stageWarningMsg <-
    (s <- get ;;
     match setStage (os_username l) (instanceConfig s) (arg_stage l) with
     | inr c => modify (set_instanceConfig c) ;; ret EmptyString
     | inl (IllegalArgumentException message) =>
         match setStage (os_username l) (instanceConfig s) (str PROD) with
         | inr c => modify (set_instanceConfig c)
         | inl e => throw e
         end ;;
         ret (message ++ ". Defaulting to prod.")
     | inl e => throw e
     end) ;;
  modify (fun s => set_stage (cfg_stage (instanceConfig s)) s) ;;
  modify (fun s =>
    set_domain (lookup (WEBSITE_DOMAINS (os_username l)) (to_str (stage s))) s) ;;
  when (negb (stageWarningMsg =? EmptyString)) (emit (Log WARN stageWarningMsg None)) ;;
  s <- get ;;
  logger INFO ("Stage: " ++ to_str (cfg_stage (instanceConfig s))) ;;
  logger INFO ("Username: " ++ to_str username) ;;
  logger INFO ("Base URL: "
               ++ to_str (lookup (WEBSITE_DOMAINS (os_username l))
                            (to_str (cfg_stage (instanceConfig s))))) ;;
  when (onWindows || onMac) (emit SetAccessibilitySupportEnabled) ;;
  (if negb onWindows || negb hasPipe then
     settle whenPipeConnected Fulfilled
   else
     emit (StderrWrite ("Attempting to connect to pipe " ++ to_str pipeName ++ nl)) ;;
     emit (NetConnect (backslash ++ backslash ++ "." ++ backslash ++ "pipe"
                       ++ backslash ++ to_str pipeName))) ;;
  then_catch whenPipeConnected [PipeThen] [PipeCatch] ;;
  arm_safeClose HEALTH_CHECK_INITIAL_TIMEOUT.

(** The process once the script has run to its end and the event loop is
    about to wait for its first event. *)
Definition startup : state := macrotask main_script initial.

End Script.

End Notifier.

(* ================================================================== *)
(** * What is proved of the notifier: the predicates of the statements   *)
(* ================================================================== *)

Module NotifierSpec.
Import Notifier.


(* ---------- definitions (to be moved) ---------- *)
Definition preserves {A} (I : state -> Prop) (m : M A) : Prop :=
  forall s, I s -> I (exec m s).

Definition is_window (e : Z * effect) : bool :=
  match snd e with NewBrowserWindow _ => true | _ => false end.
Definition windows_created (s : state) : nat := List.length (filter is_window (trace s)).

Definition fulfilled (p : promise) : bool :=
  match status p with Fulfilled => true | _ => false end.

Definition join_inv (s : state) : Prop :=
  microtasks s = [] /\
  match status (pipe_promise s), status (app_promise s) with
  | _, Rejected => False
  | Pending, _ =>
      on_fulfilled (pipe_promise s) = [PipeThen] /\
      on_rejected (pipe_promise s) = [PipeCatch] /\
      on_fulfilled (app_promise s) = [] /\
      windows_created s = 0%nat
  | Fulfilled, Pending =>
      on_fulfilled (app_promise s) = [AppThenInit] /\ windows_created s = 0%nat
  | Fulfilled, Fulfilled => windows_created s = 1%nat
  | Rejected, _ =>
      on_fulfilled (app_promise s) = [] /\ windows_created s = 0%nat
  end.

(** [join_inv] extended to the states in which a reaction is queued. *)
Definition join_q (s : state) : Prop :=
  status (app_promise s) <> Rejected /\
  match microtasks s with
  | [] => join_inv s
  | [PipeThen] =>
      status (pipe_promise s) = Fulfilled /\
      on_fulfilled (app_promise s) = [] /\ windows_created s = 0%nat
  | [AppThenInit] =>
      status (pipe_promise s) = Fulfilled /\
      status (app_promise s) = Fulfilled /\ windows_created s = 0%nat
  | [PipeCatch] =>
      status (pipe_promise s) = Rejected /\
      on_fulfilled (app_promise s) = [] /\ windows_created s = 0%nat
  | _ => False
  end.

(** Identifiers are fresh and unique; the only pending timer that runs
    [crashCallback] is the one [safeCloseTimeout] names, and the timers
    that exit all exit with status 1. *)
Definition sched_inv (s : state) : Prop :=
  NoDup (map tid (timers s)) /\
  (forall t, In t (timers s) -> (tid t < next_id s)%nat) /\
  NoDup (map fst (pending s)) /\
  (forall p, In p (pending s) -> (fst p < next_id s)%nat) /\
  (forall t, In t (timers s) -> timer_cb t = crashCallback ->
             safeCloseTimeout s = Some (tid t)) /\
  (forall t, In t (timers s) -> safeCloseTimeout s = Some (tid t) ->
             timer_cb t = crashCallback) /\
  (forall t c, In t (timers s) -> timer_cb t = exitCallback c -> c = 1) /\
  (forall id, safeCloseTimeout s = Some id -> (id < next_id s)%nat).

(** Everything in the state but the promises and the queue of reactions. *)
Definition rest_view (s : state) :=
  (now s, instanceConfig s, stage s, domain s, mainWindow s, stdoutTee s,
   timers s, safeCloseTimeout s, pending s, next_id s, trace s, exitCode s).

(** Every pending timer that exits was armed with the delay of 1000 ms,
    and every call of [process.exit] was armed that way at least 1000 ms
    before. *)
Definition funnel_inv (s : state) : Prop :=
  (forall t c, In t (timers s) -> timer_cb t = exitCallback c ->
     In (deadline t - 1000, SetTimeout (tid t) (exitCallback c) 1000) (trace s)) /\
  (forall tm c, In (tm, ProcessExit c) (trace s) ->
     exists t0 id,
       In (t0, SetTimeout id (exitCallback c) 1000) (trace s) /\ t0 + 1000 <= tm).

(** The part of the state the readiness join depends on. *)
Definition join_view (s : state) : promise * promise * list reaction * nat :=
  (pipe_promise s, app_promise s, microtasks s, windows_created s).

Definition weight_le (n : nat) (s : state) : Prop :=
  (timers_weight (timers s) <= n)%nat.

Definition clock_inv (s : state) : Prop :=
  exitCode s = None -> forall t, In t (timers s) -> now s < deadline t.

Definition exit_inv (s : state) : Prop :=
  forall c, exitCode s = Some c -> c = 1.

(** The invariants of the event loop, together. *)
Definition Inv (s : state) : Prop :=
  join_inv s /\ sched_inv s /\ clock_inv s /\ exit_inv s.

(** The timer [t] is still pending and the process still runs. *)
Definition keeps_timer (t : timer) (s : state) : Prop :=
  exitCode s = None /\ In t (timers s).

(** Either the process has exited with status 1 or [t] will still fire. *)
Definition doomed_by (t : timer) (s : state) : Prop :=
  exitCode s = Some 1 \/ keeps_timer t s.



Definition is_exit (t : timer) : bool :=
  match timer_cb t with exitCallback _ => true | _ => false end.














(** No pending timer is overdue, also between two firings. *)
Definition due_later (s : state) : Prop :=
  forall t, In t (timers s) -> now s <= deadline t.





(** Every pending timer that exits is due within 1000 ms. *)
Definition exit_soon (s : state) : Prop :=
  forall t, In t (timers s) -> is_exit t = true -> deadline t <= now s + 1000.

(** The report [id] is in flight and the process is alive. *)
Definition in_flight (id : nat) (k : request_callback) (s : state) : Prop :=
  exitCode s = None /\ In (id, Request k) (pending s).

(** The process is alive and a timer that exits is pending. *)
Definition armed (s : state) : Prop :=
  exitCode s = None /\ exists t, In t (timers s) /\ is_exit t = true.

Definition closing (id : nat) (k : request_callback) (s : state) : Prop :=
  in_flight id k s \/ armed s.

(** The process has exited with status 1, or is on its way there. *)
Definition awaiting (id : nat) (k : request_callback) (s : state) : Prop :=
  exitCode s = Some 1 \/ closing id k s.

Definition screen : area :=
  {| area_x := 0; area_y := 0; area_width := 1920; area_height := 1080 |}.

(** On a Mac, as the display helper starts the app there. *)
Definition mac_launch : launch :=
  {| arg_username := str "jdoe"; arg_stage := str "prod"; arg_dev := false;
     arg_pipeuuid := undefined; pipeuuid_isUUID := false; arg_nopipe := false;
     platform := "darwin"; os_username := "jdoe"; workArea := screen |}.

(** On Windows, with the pipe of the display helper. *)
Definition win_launch : launch :=
  {| arg_username := str "jdoe"; arg_stage := str "prod"; arg_dev := false;
     arg_pipeuuid := str "123e4567-e89b-12d3-a456-426614174000";
     pipeuuid_isUUID := true; arg_nopipe := false;
     platform := "win32"; os_username := "jdoe"; workArea := screen |}.

(** The same for a developer. *)
Definition dev_launch : launch :=
  {| arg_username := str "jdoe"; arg_stage := str "prod"; arg_dev := true;
     arg_pipeuuid := str "123e4567-e89b-12d3-a456-426614174000";
     pipeuuid_isUUID := true; arg_nopipe := false;
     platform := "win32"; os_username := "jdoe"; workArea := screen |}.

Definition no_user_launch : launch :=
  {| arg_username := undefined; arg_stage := str "prod"; arg_dev := false;
     arg_pipeuuid := undefined; pipeuuid_isUUID := false; arg_nopipe := false;
     platform := "darwin"; os_username := "jdoe"; workArea := screen |}.


(** The renderer never pulses: the watchdog fires after 90 s, the storage
    and the cache are cleared, the report is sent and settles, and one
    second later the process exits. *)
Definition silent_run : list event :=
  [AppReady; Elapse 90000; Completes 3 None; Completes 4 None;
   Completes 6 None; Elapse 1000].



(** What the launch allows of an effect: the pipe is touched only on
    Windows with a pipe, the tray exists only on Windows, a certificate is
    accepted only in developer mode, and a window is created with the
    options of [initApp]. *)
Definition guarded (l : launch) (e : Z * effect) : Prop :=
  match snd e with
  | NetConnect _ | PipeEnd => onWindows l = true /\ hasPipe l = true
  | NewTray => onWindows l = true
  | CertificateAccepted => isDeveloperMode l = true
  | NewBrowserWindow w => w = browserWindowOptions l
  | SetAccessibilitySupportEnabled => onWindows l = true \/ onMac l = true
  | _ => True
  end.

Definition guarded_inv (l : launch) (s : state) : Prop := Forall (guarded l) (trace s).

(** The stage the script settles on: the one given when [setStage] takes
    it, prod otherwise. *)
Definition resolved_stage (l : launch) : value :=
  if hasOwnProperty (WEBSITE_DOMAINS (os_username l)) (arg_stage l)
  then arg_stage l else str PROD.

(** What the script leaves in config.js, in [var stage] and in
    [global.domain]. *)
Definition settings_inv (l : launch) (s : state) : Prop :=
  instanceConfig s
  = {| cfg_username := arg_username l; cfg_stage := resolved_stage l |} /\
  stage s = resolved_stage l /\
  domain s = lookup (WEBSITE_DOMAINS (os_username l)) (to_str (resolved_stage l)).


(** The effects of the 'uncaughtException' listener: log lines, the two
    reports and the timer. *)
Definition is_report (e : Z * effect) : Prop :=
  match snd e with
  | Log _ _ _ | PostEvents _ _ _ _ | PostError _ _ _ _ | SetTimeout _ _ _ => True
  | _ => False
  end.


(** The timer [t] will still call [app.quit], or has done so at its
    deadline, or the process has exited. *)
Definition quit_by (t : timer) (s : state) : Prop :=
  exitCode s <> None \/ keeps_timer t s \/ In (deadline t, AppQuit) (trace s).

End NotifierSpec.

(* ================================================================== *)
(** * modules/requests.js and modules/logger.js, in full               *)
(* ================================================================== *)

Module Requests.
Import Notifier.

(** ** modules/requests.js: the event with its time stamps

    [Notifier.addEvent] keeps the type, the level and the description of
    an event.  Here is the whole record [addEvent] builds, with the two
    time stamps and the four parameters.  [time] stands for
    [new Date()]: [getTime] is its whole number of milliseconds since the
    epoch and [getTimezoneOffset] its whole number of minutes between UTC
    and the local time. *)

Record date := { getTime : Z; getTimezoneOffset : Z }.

(** [function getUTCTime(time)]. *)
Definition getUTCTime (time : date) : Z := getTime time.

(** [function getLocalTime(time, utc)]. *)
Definition getLocalTime (time : date) (utc : Z) : Z :=
  let offset := getTimezoneOffset time in
  utc + (- offset * 60 * 1000).

(** [Math.round(ms / 1000)] for a whole [ms]: the nearest whole number,
    a half going up. *)
Definition round_seconds (ms : Z) : Z := (ms + 500) / 1000.

Record event := {
  localTime : Z;
  utcTime : Z;
  type : ClientEventType;
  level : ClientEventLevel;
  description : value;
  parameter1 : value;
  parameter2 : value;
  parameter3 : value;
  parameter4 : value
}.

(** [para || ""]. *)
Definition or_empty (para : value) : value :=
  if truthy para then para else str EmptyString.

(** [exports.addEvent]; [events] is [None] for null and undefined. *)
Definition addEvent (time : date) (events : option (list event))
    (eventType : ClientEventType) (eventLevel : ClientEventLevel)
    (eventDetail para1 para2 para3 para4 : value) : list event :=
  let events := match events with Some evs => evs | None => [] end in
  let utcTimeInMs := getUTCTime time in
  let localTimeInMs := getLocalTime time utcTimeInMs in
  (events ++ [{| localTime := round_seconds localTimeInMs;
                 utcTime := round_seconds utcTimeInMs;
                 type := eventType; level := eventLevel;
                 description := eventDetail;
                 parameter1 := or_empty para1; parameter2 := or_empty para2;
                 parameter3 := or_empty para3; parameter4 := or_empty para4 |}])%list.

(** What [Notifier.addEvent] keeps of an event. *)
Definition forget (e : event) : client_event :=
  {| ev_type := type e; ev_level := level e; ev_description := description e |}.

Definition noon : date := {| getTime := 1500000000499; getTimezoneOffset := -330 |}.

End Requests.

Module Logger.

Local Open Scope string_scope.

(** ** modules/logger.js *)


(** What the module reads when it is loaded: [global.platform],
    [os.homedir()], [process.env.APPDATA], which may be missing, and
    whether [mkdirp.sync] returns for a directory or throws.  [path.join]
    is kept as it is given. *)
Record env := {
  platform : string;
  homedir : string;
  APPDATA : option string;
  path_join : string -> string -> string;
  mkdirp_sync : string -> bool
}.









End Logger.

(* ================================================================== *)
(** * Theorems: randompassword.c                                       *)
(* ================================================================== *)

Module RandomPasswordProofs.
Import RandomPassword.

Lemma distinct_NoDup (l : list ascii) : distinct l = true -> NoDup l.
Proof.
  induction l as [|c l IH]; simpl; intros H; constructor.
  - apply andb_true_iff in H as [H _].
    intros Hin. apply negb_true_iff in H.
    assert (existsb (Ascii.eqb c) l = true); [|congruence].
    apply existsb_exists. exists c. split; [assumption|apply Ascii.eqb_refl].
  - apply IH. apply andb_true_iff in H as [_ H]. exact H.
Qed.

Lemma octet_range (b : byte) : 0 <= octet b < 256.
Proof.
  unfold octet. pose proof (Byte.to_N_bounded b) as H. lia.
Qed.

Lemma octet_inj (a b : byte) : octet a = octet b -> a = b.
Proof.
  unfold octet. intros H. apply N2Z.inj in H.
  pose proof (Byte.of_to_N a) as Ha. pose proof (Byte.of_to_N b) as Hb.
  rewrite H in Ha. congruence.
Qed.

Lemma make_triple_eq (a b c : Z) :
  0 <= a < 256 -> 0 <= b < 256 -> 0 <= c < 256 ->
  make_triple a b c = a * 65536 + b * 256 + c.
Proof.
  intros Ha Hb Hc. unfold make_triple, wrap32.
  rewrite !Z.shiftl_mul_pow2 by lia.
  change (2 ^ 16) with 65536. change (2 ^ 8) with 256. change (2 ^ 32) with 4294967296.
  rewrite (Z.mod_small (a * 65536)) by lia.
  rewrite (Z.mod_small (b * 256)) by lia.
  rewrite (Z.mod_small (a * 65536 + b * 256)) by lia.
  apply Z.mod_small. lia.
Qed.

Lemma sextet_eq (t k : Z) : 0 <= k -> sextet t k = (t / 2 ^ (k * 6)) mod 64.
Proof.
  intros Hk. unfold sextet. rewrite Z.shiftr_div_pow2 by lia.
  change 63 with (Z.ones 6). rewrite Z.land_ones by lia. reflexivity.
Qed.

Lemma sextet_range (t k : Z) : 0 <= k -> 0 <= sextet t k < 64.
Proof.
  intros Hk. rewrite sextet_eq by assumption. apply Z.mod_pos_bound. lia.
Qed.

Lemma sextets_of_triple (a b c : Z) :
  0 <= a < 256 -> 0 <= b < 256 -> 0 <= c < 256 ->
  let t := make_triple a b c in
  sextet t 3 = a / 4 /\
  sextet t 2 = (a mod 4) * 16 + b / 16 /\
  sextet t 1 = (b mod 16) * 4 + c / 64 /\
  sextet t 0 = c mod 64.
Proof.
  intros Ha Hb Hc t. subst t. rewrite make_triple_eq by assumption.
  rewrite !sextet_eq by lia.
  change (2 ^ (3 * 6)) with 262144. change (2 ^ (2 * 6)) with 4096.
  change (2 ^ (1 * 6)) with 64. change (2 ^ (0 * 6)) with 1.
  repeat split; Z.div_mod_to_equations; lia.
Qed.


Lemma value_of_bits_app (xs ys : list bool) :
  value_of_bits (xs ++ ys) = value_of_bits xs * 2 ^ Z.of_nat (List.length ys) + value_of_bits ys.
Proof.
  unfold value_of_bits.
  assert (G : forall ys acc,
             fold_left (fun acc (b : bool) => 2 * acc + (if b then 1 else 0)) ys acc
             = acc * 2 ^ Z.of_nat (List.length ys)
               + fold_left (fun acc (b : bool) => 2 * acc + (if b then 1 else 0)) ys 0).
  { clear. induction ys as [|y ys IH]; intros acc.
    - simpl. lia.
    - cbn [fold_left List.length]. rewrite IH. rewrite (IH (2 * 0 + _)).
      rewrite Nat2Z.inj_succ, Z.pow_succ_r by lia. lia. }
  rewrite fold_left_app. apply G.
Qed.

Lemma bits_of_byte_split (b : byte) :
  let bs := bits_of_byte b in
  value_of_bits (firstn 6 bs) = octet b / 4 /\
  value_of_bits (skipn 6 bs) = octet b mod 4 /\
  value_of_bits (firstn 4 bs) = octet b / 16 /\
  value_of_bits (skipn 4 bs) = octet b mod 16 /\
  value_of_bits (firstn 2 bs) = octet b / 64 /\
  value_of_bits (skipn 2 bs) = octet b mod 64.
Proof.
  destruct b; vm_compute; repeat split; reflexivity.
Qed.

Lemma quad_is_packing (a b c : byte) :
  let t := make_triple (octet a) (octet b) (octet c) in
  let bits := bits_of_byte a ++ bits_of_byte b ++ bits_of_byte c in
  [sextet t 3; sextet t 2; sextet t 1; sextet t 0]
  = map value_of_bits (groups_of_six 4 bits).
Proof.
  intros t bits.
  destruct (sextets_of_triple (octet a) (octet b) (octet c)
              (octet_range a) (octet_range b) (octet_range c))
    as (H3 & H2 & H1 & H0).
  fold t in H3, H2, H1, H0. rewrite H3, H2, H1, H0.
  destruct (bits_of_byte_split a) as (A6 & A2 & _).
  destruct (bits_of_byte_split b) as (_ & _ & B4 & B4' & _).
  destruct (bits_of_byte_split c) as (_ & _ & _ & _ & C2 & C6).
  rewrite <- A6, <- A2, <- B4, <- B4', <- C2, <- C6.
  subst bits. unfold bits_of_byte. cbn [map app groups_of_six firstn skipn].
  repeat f_equal.
  - change [Z.testbit (octet a) 1; Z.testbit (octet a) 0; Z.testbit (octet b) 7;
            Z.testbit (octet b) 6; Z.testbit (octet b) 5; Z.testbit (octet b) 4]
      with ([Z.testbit (octet a) 1; Z.testbit (octet a) 0]
            ++ [Z.testbit (octet b) 7; Z.testbit (octet b) 6;
                Z.testbit (octet b) 5; Z.testbit (octet b) 4]).
    rewrite value_of_bits_app. reflexivity.
  - change [Z.testbit (octet b) 3; Z.testbit (octet b) 2; Z.testbit (octet b) 1;
            Z.testbit (octet b) 0; Z.testbit (octet c) 7; Z.testbit (octet c) 6]
      with ([Z.testbit (octet b) 3; Z.testbit (octet b) 2; Z.testbit (octet b) 1;
             Z.testbit (octet b) 0]
            ++ [Z.testbit (octet c) 7; Z.testbit (octet c) 6]).
    rewrite value_of_bits_app. reflexivity.
Qed.


Lemma table_length : List.length encoding_table = 64%nat.
Proof. reflexivity. Qed.

Lemma table_NoDup : NoDup encoding_table.
Proof. apply distinct_NoDup. vm_compute. reflexivity. Qed.

Lemma symbol_in_table (t k : Z) : 0 <= k -> In (symbol t k) encoding_table.
Proof.
  intros Hk. unfold symbol. apply nth_In. rewrite table_length.
  pose proof (sextet_range t k Hk). lia.
Qed.

Lemma symbol_inj (t u k : Z) :
  0 <= k -> symbol t k = symbol u k -> sextet t k = sextet u k.
Proof.
  intros Hk H. unfold symbol in H.
  pose proof (sextet_range t k Hk) as Ht. pose proof (sextet_range u k Hk) as Hu.
  apply (proj1 (NoDup_nth encoding_table zero) table_NoDup) in H;
    rewrite ?table_length; lia.
Qed.

(** The four symbols the loop stores for the octets [a], [b], [c]. *)
Lemma encode_twelve (b0 b1 b2 b3 b4 b5 b6 b7 b8 b9 b10 b11 : byte) :
  encode [b0; b1; b2; b3; b4; b5; b6; b7; b8; b9; b10; b11]
  = map (symbol (make_triple (octet b0) (octet b1) (octet b2))) [3; 2; 1; 0]
    ++ map (symbol (make_triple (octet b3) (octet b4) (octet b5))) [3; 2; 1; 0]
    ++ map (symbol (make_triple (octet b6) (octet b7) (octet b8))) [3; 2; 1; 0]
    ++ map (symbol (make_triple (octet b9) (octet b10) (octet b11))) [3; 2; 1; 0].
Proof. reflexivity. Qed.

Lemma pack_triple (a b c : byte) (rest : list byte) :
  base64_pack encoding_table (a :: b :: c :: rest)
  = map (symbol (make_triple (octet a) (octet b) (octet c))) [3; 2; 1; 0]
    ++ base64_pack encoding_table rest.
Proof.
  unfold base64_pack. cbn [flat_map].
  set (more := flat_map bits_of_byte rest).
  assert (L : (List.length (bits_of_byte a ++ bits_of_byte b ++ bits_of_byte c ++ more) / 6
               = 4 + List.length more / 6)%nat).
  { rewrite !length_app. unfold bits_of_byte. rewrite !length_map. cbn [List.length].
    replace (8 + (8 + (8 + List.length more)))%nat
      with (4 * 6 + List.length more)%nat by lia.
    rewrite Nat.div_add_l by lia. reflexivity. }
  rewrite L. clear L.
  pose proof (quad_is_packing a b c) as Q. cbv zeta in Q.
  unfold bits_of_byte in *.
  cbn [map app groups_of_six firstn skipn Nat.add] in *.
  injection Q as Q3 Q2 Q1 Q0.
  unfold symbol. rewrite Q3, Q2, Q1, Q0. reflexivity.
Qed.

Lemma encode_is_packing (rbuf : list byte) :
  List.length rbuf = RNDBUFSIZ -> encode rbuf = base64_pack encoding_table rbuf.
Proof.
  intros H.
  do 12 (destruct rbuf as [|? rbuf]; [discriminate H|]).
  destruct rbuf; [|discriminate H].
  rewrite encode_twelve, !pack_triple. reflexivity.
Qed.

Lemma encode_length (rbuf : list byte) : List.length (encode rbuf) = PWLEN.
Proof. reflexivity. Qed.

Lemma encode_in_table (rbuf : list byte) :
  Forall (fun c => In c encoding_table) (encode rbuf).
Proof.
  cbv [encode encode_loop RNDBUFSIZ loop_body next_octet Nat.ltb Nat.leb snd app].
  repeat (apply Forall_cons; [apply symbol_in_table; lia|]). apply Forall_nil.
Qed.

Lemma triple_inj (a b c a' b' c' : byte) :
  let t := make_triple (octet a) (octet b) (octet c) in
  let t' := make_triple (octet a') (octet b') (octet c') in
  symbol t 3 = symbol t' 3 -> symbol t 2 = symbol t' 2 ->
  symbol t 1 = symbol t' 1 -> symbol t 0 = symbol t' 0 ->
  a = a' /\ b = b' /\ c = c'.
Proof.
  intros t t' H3 H2 H1 H0.
  apply symbol_inj in H3, H2, H1, H0; try lia.
  destruct (sextets_of_triple (octet a) (octet b) (octet c)
              (octet_range a) (octet_range b) (octet_range c))
    as (E3 & E2 & E1 & E0).
  destruct (sextets_of_triple (octet a') (octet b') (octet c')
              (octet_range a') (octet_range b') (octet_range c'))
    as (F3 & F2 & F1 & F0).
  fold t in E3, E2, E1, E0. fold t' in F3, F2, F1, F0.
  rewrite E3, F3 in H3. rewrite E2, F2 in H2.
  rewrite E1, F1 in H1. rewrite E0, F0 in H0.
  pose proof (octet_range a). pose proof (octet_range b). pose proof (octet_range c).
  pose proof (octet_range a'). pose proof (octet_range b'). pose proof (octet_range c').
  repeat split; apply octet_inj; Z.div_mod_to_equations; lia.
Qed.

Lemma encode_inj (r1 r2 : list byte) :
  List.length r1 = RNDBUFSIZ -> List.length r2 = RNDBUFSIZ ->
  encode r1 = encode r2 -> r1 = r2.
Proof.
  intros H1 H2 E.
  do 12 (destruct r1 as [|? r1]; [discriminate H1|]).
  destruct r1; [|discriminate H1].
  do 12 (destruct r2 as [|? r2]; [discriminate H2|]).
  destruct r2; [|discriminate H2].
  rewrite !encode_twelve in E. cbn [map app] in E.
  injection E as.
  repeat match goal with
         | H3 : symbol ?t 3 = symbol ?u 3, H2 : symbol ?t 2 = symbol ?u 2,
           H1 : symbol ?t 1 = symbol ?u 1, H0 : symbol ?t 0 = symbol ?u 0 |- _ =>
             destruct (triple_inj _ _ _ _ _ _ H3 H2 H1 H0) as (? & ? & ?);
             clear H3 H2 H1 H0
         end.
  subst. reflexivity.
Qed.

(** What [main] prints is the encoding of the twelve bytes it read. *)
Lemma main_prints_encode (e : env) :
  open_ok e = true -> List.length (read_bytes e) = RNDBUFSIZ ->
  main e = {| out := string_of_list_ascii (encode (read_bytes e));
              err := EmptyString; status := 0 |}.
Proof. intros Ho Hl. unfold main. rewrite Ho, Hl. reflexivity. Qed.

(** C4.  The password is a function of the twelve bytes read and of
    nothing else: [main] prints [encode] of them and exits with status 0;
    [encode] is the base64 bit-packing over [encoding_table] (24 bits of
    three bytes, most significant first, cut into four groups of six
    bits, each selecting a symbol); the result has 16 characters; and
    twelve zero bytes give AAAAAAAAAAAAAAAA. *)
Theorem encode_is_base64_packing (e : env) :
  open_ok e = true -> List.length (read_bytes e) = RNDBUFSIZ ->
  main e = {| out := string_of_list_ascii
                       (base64_pack encoding_table (read_bytes e));
              err := EmptyString; status := 0 |} /\
  encode (read_bytes e) = base64_pack encoding_table (read_bytes e) /\
  List.length (encode (read_bytes e)) = PWLEN /\
  (read_bytes e = repeat x00 RNDBUFSIZ -> out (main e) = "AAAAAAAAAAAAAAAA"%string).
Proof.
  intros Ho Hl. rewrite (main_prints_encode e Ho Hl).
  rewrite <- (encode_is_packing _ Hl).
  repeat split. intros ->. reflexivity.
Qed.

Lemma encode_is_base64_packing_witness :
  out (main zeros) = "AAAAAAAAAAAAAAAA"%string /\
  encode (read_bytes zeros) = base64_pack encoding_table (read_bytes zeros).
Proof.
  destruct (encode_is_base64_packing zeros eq_refl eq_refl) as (_ & H & _ & Hz).
  split; [apply Hz; reflexivity|exact H].
Defined.

(** C9.  Every character [main] prints, and every character of the
    password, is one of [encoding_table], which holds 64 symbols, no two
    the same, and none of I, O, l, / and $. *)
Theorem output_within_alphabet (e : env) :
  Forall (fun c => In c encoding_table) (list_ascii_of_string (out (main e))) /\
  Forall (fun c => In c encoding_table) (encode (read_bytes e)) /\
  List.length (encode (read_bytes e)) = PWLEN /\
  List.length encoding_table = 64%nat /\
  NoDup encoding_table /\
  Forall (fun c => ~ In c encoding_table) ["I"; "O"; "l"; "/"; "$"]%char.
Proof.
  split; [|split; [apply encode_in_table|split; [reflexivity|]]].
  - unfold main. destruct (negb (open_ok e)); [constructor|].
    destruct (_ <? _)%nat; [constructor|]. cbn [out].
    rewrite list_ascii_of_string_of_list_ascii. apply encode_in_table.
  - split; [reflexivity|]. split; [apply table_NoDup|].
    repeat (apply Forall_cons;
            [intros H; cbv in H; repeat (destruct H as [H|H]; [discriminate H|]);
             exact H|]).
    apply Forall_nil.
Qed.

(** C10.  On buffers of twelve bytes [encode] is injective: buffers that
    differ give passwords that differ, equal passwords come from equal
    buffers, and so do equal outputs of [main]. *)
Theorem encode_injective (r1 r2 : list byte) :
  List.length r1 = RNDBUFSIZ -> List.length r2 = RNDBUFSIZ ->
  (r1 <> r2 -> encode r1 <> encode r2) /\
  (encode r1 = encode r2 -> r1 = r2) /\
  (out (main {| open_ok := true; read_bytes := r1 |})
   = out (main {| open_ok := true; read_bytes := r2 |}) -> r1 = r2).
Proof.
  intros H1 H2. split; [|split].
  - intros N E. apply N. apply encode_inj; assumption.
  - apply encode_inj; assumption.
  - intros E. unfold main in E. cbn [open_ok read_bytes negb] in E.
    rewrite H1, H2 in E. change (RNDBUFSIZ <? RNDBUFSIZ)%nat with false in E.
    cbn [out] in E.
    apply encode_inj; try assumption.
    rewrite <- (list_ascii_of_string_of_list_ascii (encode r1)).
    rewrite <- (list_ascii_of_string_of_list_ascii (encode r2)).
    rewrite E. reflexivity.
Qed.

Lemma encode_injective_witness :
  encode (read_bytes zeros) <> encode (read_bytes ones).
Proof.
  destruct (encode_injective (read_bytes zeros) (read_bytes ones) eq_refl eq_refl)
    as (H & _).
  apply H. discriminate.
Defined.


(** ** The inverse of the encoding

    The program has no decoder; this one states what the encoding keeps:
    the place of a symbol in [encoding_table] gives six bits back and four
    symbols give three bytes back. *)

Lemma octet_byte_of (z : Z) : 0 <= z < 256 -> octet (byte_of z) = z.
Proof.
  intros Hz. unfold byte_of, octet.
  destruct (Byte.of_N (Z.to_N z)) as [b|] eqn:E.
  - apply Byte.to_of_N in E. rewrite E. lia.
  - apply Byte.of_N_None_iff in E. lia.
Qed.

Lemma index_of_nth (i : nat) :
  (i < 64)%nat -> index_of (nth i encoding_table zero) = Some i.
Proof.
  intros Hi. do 64 (destruct i as [|i]; [reflexivity|]). lia.
Qed.

Lemma index_of_In (c : ascii) :
  In c encoding_table ->
  exists i, (i < 64)%nat /\ index_of c = Some i /\ nth i encoding_table zero = c.
Proof.
  intros H. apply (In_nth _ _ zero) in H as (i & Hi & E).
  rewrite table_length in Hi. exists i. split; [exact Hi|]. split; [|exact E].
  rewrite <- E. apply index_of_nth, Hi.
Qed.

(** Four places in the table are the four symbols of the three bytes
    [decode_quad] gives. *)
Lemma quad_round_trip (s3 s2 s1 s0 : Z) :
  0 <= s3 < 64 -> 0 <= s2 < 64 -> 0 <= s1 < 64 -> 0 <= s0 < 64 ->
  match decode_quad s3 s2 s1 s0 with
  | [a; b; c] =>
      let t := make_triple (octet a) (octet b) (octet c) in
      sextet t 3 = s3 /\ sextet t 2 = s2 /\ sextet t 1 = s1 /\ sextet t 0 = s0
  | _ => False
  end.
Proof.
  intros H3 H2 H1 H0. unfold decode_quad. cbv zeta.
  rewrite !octet_byte_of by (Z.div_mod_to_equations; lia).
  assert (Ha : 0 <= s3 * 4 + s2 / 16 < 256) by (Z.div_mod_to_equations; lia).
  assert (Hb : 0 <= s2 mod 16 * 16 + s1 / 4 < 256) by (Z.div_mod_to_equations; lia).
  assert (Hc : 0 <= s1 mod 4 * 64 + s0 < 256) by (Z.div_mod_to_equations; lia).
  destruct (sextets_of_triple _ _ _ Ha Hb Hc) as (E3 & E2 & E1 & E0).
  rewrite E3, E2, E1, E0.
  repeat split; Z.div_mod_to_equations; lia.
Qed.

Lemma decode_groups_sound (n : nat) (pw : list ascii) :
  List.length pw = (4 * n)%nat -> Forall (fun c => In c encoding_table) pw ->
  exists rbuf,
    decode_groups n pw = Some rbuf /\ List.length rbuf = (3 * n)%nat /\
    base64_pack encoding_table rbuf = pw.
Proof.
  revert pw. induction n as [|n IH]; intros pw Hl Hf.
  - destruct pw; [|discriminate Hl]. exists []. repeat split.
  - destruct pw as [|c3 [|c2 [|c1 [|c0 pw]]]]; try (cbn [List.length] in Hl; lia).
    apply Forall_cons_iff in Hf as [F3 Hf]. apply Forall_cons_iff in Hf as [F2 Hf].
    apply Forall_cons_iff in Hf as [F1 Hf]. apply Forall_cons_iff in Hf as [F0 Hf0].
    destruct (IH pw) as (rest & Er & Lr & Pr); [cbn in Hl; lia|exact Hf0|].
    apply index_of_In in F3 as (i3 & B3 & I3 & N3).
    apply index_of_In in F2 as (i2 & B2 & I2 & N2).
    apply index_of_In in F1 as (i1 & B1 & I1 & N1).
    apply index_of_In in F0 as (i0 & B0 & I0 & N0).
    cbn [decode_groups]. rewrite I3, I2, I1, I0, Er.
    eexists. split; [reflexivity|].
    pose proof (quad_round_trip (Z.of_nat i3) (Z.of_nat i2) (Z.of_nat i1) (Z.of_nat i0)
                  ltac:(lia) ltac:(lia) ltac:(lia) ltac:(lia)) as Q.
    unfold decode_quad in *. cbv zeta in Q. destruct Q as (Q3 & Q2 & Q1 & Q0).
    split; [cbn [app List.length]; lia|].
    cbn [app]. rewrite pack_triple, Pr. cbn [map app]. unfold symbol.
    rewrite Q3, Q2, Q1, Q0, !Nat2Z.id, N3, N2, N1, N0. reflexivity.
Qed.

(** X1.  Every string of 16 symbols of [encoding_table] is the password of
    exactly one buffer of twelve bytes, the one [decode] computes: with
    C10 the encoding is a bijection between the 2^96 buffers and the
    64^16 strings, and no password over the table is left out. *)
Theorem encode_onto_alphabet (pw : list ascii) :
  List.length pw = PWLEN -> Forall (fun c => In c encoding_table) pw ->
  exists rbuf,
    decode pw = Some rbuf /\ List.length rbuf = RNDBUFSIZ /\ encode rbuf = pw /\
    forall r, List.length r = RNDBUFSIZ -> encode r = pw -> r = rbuf.
Proof.
  intros Hl Hf.
  destruct (decode_groups_sound 4 pw Hl Hf) as (rbuf & Ed & Lr & Pr).
  exists rbuf. split; [exact Ed|]. split; [exact Lr|].
  assert (E : encode rbuf = pw) by (rewrite encode_is_packing; assumption).
  split; [exact E|].
  intros r Hr Er. apply encode_inj; [assumption..|congruence].
Qed.

Lemma encode_onto_alphabet_witness :
  exists rbuf,
    decode (list_ascii_of_string "Correct+Horse-42") = Some rbuf /\
    encode rbuf = list_ascii_of_string "Correct+Horse-42".
Proof.
  destruct (encode_onto_alphabet (list_ascii_of_string "Correct+Horse-42") eq_refl)
    as (rbuf & Hd & _ & He & _).
  - repeat (apply Forall_cons; [vm_compute; tauto|]). apply Forall_nil.
  - exists rbuf. split; assumption.
Defined.

(** X2.  Decoding the password of a buffer of twelve bytes gives the
    buffer back. *)
Theorem decode_encode (rbuf : list byte) :
  List.length rbuf = RNDBUFSIZ -> decode (encode rbuf) = Some rbuf.
Proof.
  intros Hl.
  destruct (decode_groups_sound 4 (encode rbuf) (encode_length rbuf)
              (encode_in_table rbuf)) as (r & Ed & Lr & Pr).
  unfold decode. change (PWLEN / 4)%nat with 4%nat. rewrite Ed. f_equal.
  apply encode_inj; [exact Lr|exact Hl|]. rewrite encode_is_packing; assumption.
Qed.

Lemma decode_encode_witness :
  decode (encode (read_bytes ones)) = Some (read_bytes ones).
Proof. apply decode_encode. reflexivity. Defined.

Lemma length_string_of_list_ascii (l : list ascii) :
  String.length (string_of_list_ascii l) = List.length l.
Proof. induction l as [|c l IH]; [reflexivity|]. cbn. rewrite IH. reflexivity. Qed.

(** X3.  [main] prints a password only when both [open] and [read]
    succeeded: its status is 0 exactly then, and 1 otherwise; with status
    1 nothing is written to standard output; with status 0 the 16
    characters are written and nothing else. *)
Theorem main_prints_only_on_success (e : env) :
  (status (main e) = 0 <->
   open_ok e = true /\ (RNDBUFSIZ <= List.length (read_bytes e))%nat) /\
  (status (main e) <> 0 -> status (main e) = 1 /\ out (main e) = EmptyString) /\
  (status (main e) = 0 ->
   String.length (out (main e)) = PWLEN /\
   out (main e) = string_of_list_ascii (encode (read_bytes e))).
Proof.
  unfold main. destruct (open_ok e); cbn [negb].
  - destruct (Nat.ltb_spec (List.length (read_bytes e)) RNDBUFSIZ) as [H|H];
      cbn [status out]; rewrite ?length_string_of_list_ascii;
      repeat split; intros; try discriminate; try lia; try tauto; intuition lia.
  - cbn [status out]. repeat split; intros; try discriminate; try tauto;
      intuition discriminate.
Qed.

Lemma main_prints_only_on_success_witness :
  out (main {| open_ok := true; read_bytes := [x01; x02; x03] |}) = EmptyString /\
  out (main {| open_ok := false; read_bytes := read_bytes ones |}) = EmptyString.
Proof.
  split.
  - destruct (main_prints_only_on_success
                {| open_ok := true; read_bytes := [x01; x02; x03] |}) as (_ & H & _).
    apply H. discriminate.
  - destruct (main_prints_only_on_success
                {| open_ok := false; read_bytes := read_bytes ones |}) as (_ & H & _).
    apply H. discriminate.
Defined.

Lemma next_octet_range (rbuf : list byte) (i : nat) :
  0 <= fst (next_octet rbuf i) < 256.
Proof.
  unfold next_octet. destruct (i <? RNDBUFSIZ)%nat; cbn [fst]; [apply octet_range|lia].
Qed.

(** X4.  The loop stays within its arrays and its arithmetic never wraps:
    it ends with [i = RNDBUFSIZ] and 16 symbols stored, so that the
    terminating NUL goes to [pw[PWLEN]]; every octet is below 256, the
    triple of three octets is their concatenation, below 2^24, and every
    index into [encoding_table] is below 64. *)
Theorem loop_stays_in_bounds (rbuf : list byte) :
  fst (encode_loop RNDBUFSIZ rbuf 0 []) = RNDBUFSIZ /\
  List.length (snd (encode_loop RNDBUFSIZ rbuf 0 [])) = PWLEN /\
  (forall i, 0 <= fst (next_octet rbuf i) < 256) /\
  (forall a b c, 0 <= a < 256 -> 0 <= b < 256 -> 0 <= c < 256 ->
     make_triple a b c = a * 2 ^ 16 + b * 2 ^ 8 + c /\
     0 <= make_triple a b c < 2 ^ 24) /\
  (forall triple k, 0 <= k ->
     (Z.to_nat (sextet triple k) < List.length encoding_table)%nat).
Proof.
  split; [reflexivity|]. split; [reflexivity|].
  split; [apply next_octet_range|]. split.
  - intros a b c Ha Hb Hc. rewrite make_triple_eq by assumption.
    change (2 ^ 16) with 65536. change (2 ^ 8) with 256. change (2 ^ 24) with 16777216.
    lia.
  - intros t k Hk. pose proof (sextet_range t k Hk). rewrite table_length. lia.
Qed.

Lemma loop_stays_in_bounds_witness :
  make_triple 255 255 255 = 16777215.
Proof.
  destruct (loop_stays_in_bounds []) as (_ & _ & _ & H & _).
  destruct (H 255 255 255) as (E & _); [lia..|]. exact E.
Defined.


End RandomPasswordProofs.

(* ================================================================== *)
(** * Theorems: parentalcontrolsd_terminator.sh                        *)
(* ================================================================== *)

Module TerminatorProofs.
Import Terminator.

(** The comparison of the script is a comparison of the usage [ps]
    printed with 5.0. *)
Lemma over_limit (e : env) :
  (CPU_PERCENTAGE e >=? CPU_LIMIT_PERCENTAGE) = (50 <=? ps_cpu_tenths e).
Proof.
  unfold CPU_PERCENTAGE, CPU_LIMIT_PERCENTAGE, CPU_LIMIT.
  rewrite Z.geb_leb.
  destruct (Z.leb_spec (5 * 100) (ps_cpu_tenths e * 10));
    destruct (Z.leb_spec 50 (ps_cpu_tenths e)); try reflexivity; lia.
Qed.

(** C5.  With no process found the script sends no signal and exits with
    status 0.  With a process using less than 5.0% of the CPU it sends no
    signal and exits with status 0.  With a process using 5.0% or more it
    sends the default signal to that process, sleeps 5 seconds, and sends
    signal 9 exactly when the process is still found after the sleep;
    these are the only signals, in this order. *)
Theorem watchdog_signals (e : env) :
  (pgrep_first e = None ->
   signals (fst (script e)) = [] /\ snd (script e) = 0) /\
  (forall pid, pgrep_first e = Some pid -> ps_cpu_tenths e < 50 ->
   signals (fst (script e)) = [] /\ snd (script e) = 0) /\
  (forall pid, pgrep_first e = Some pid -> 50 <= ps_cpu_tenths e ->
   exists pre post,
     fst (script e) = pre ++ [Kill pid; Sleep 5] ++ post /\
     signals pre = [] /\
     signals post = (if pgrep_after_sleep e then [KillAll9 APP_NAME] else []) /\
     signals (fst (script e))
     = Kill pid :: (if pgrep_after_sleep e then [KillAll9 APP_NAME] else [])).
Proof.
  unfold script. rewrite over_limit. repeat split.
  - rewrite H. reflexivity.
  - rewrite H. reflexivity.
  - rewrite H. destruct (Z.leb_spec 50 (ps_cpu_tenths e)); [lia|reflexivity].
  - rewrite H. destruct (Z.leb_spec 50 (ps_cpu_tenths e)); [lia|reflexivity].
  - intros pid Hp Hc. rewrite Hp.
    destruct (Z.leb_spec 50 (ps_cpu_tenths e)); [|lia].
    exists [Logger (APP_NAME ++ " is using more than 5% CPU.");
            Logger "Attempting to shut down process nicely..."].
    destruct (pgrep_after_sleep e).
    + exists [Logger (APP_NAME ++ " is still running. Terminating.");
              KillAll9 APP_NAME]. repeat split.
    + exists [Logger (APP_NAME ++ " was shut down successfully.")]. repeat split.
Qed.

Lemma watchdog_signals_witness :
  signals (fst (script busy)) = [Kill 42%N; KillAll9 APP_NAME].
Proof.
  destruct (watchdog_signals busy) as (_ & _ & H).
  destruct (H 42%N eq_refl ltac:(vm_compute; discriminate)) as (pre & post & _ & _ & _ & Hs).
  exact Hs.
Defined.

(** X5.  The status of the script is that of [killall -9] when it ran and
    0 in every other run, so that a status other than 0 means that the
    forced kill was tried and failed.  Every run says what it found: the
    first action is a line for the logger, every signal is announced by
    such a line right before it, and the script sleeps only after the
    [kill]. *)
Theorem status_and_log_of_every_run (e : env) :
  (snd (script e) <> 0 ->
   In (KillAll9 APP_NAME) (fst (script e)) /\ snd (script e) = killall_status e) /\
  (In (KillAll9 APP_NAME) (fst (script e)) -> snd (script e) = killall_status e) /\
  (exists msg rest, fst (script e) = Logger msg :: rest) /\
  announced false (fst (script e)) = true /\
  (forall pre n post, fst (script e) = pre ++ Sleep n :: post ->
     n = 5 /\ exists pid pre', pre = pre' ++ [Kill pid]).
Proof.
  unfold script.
  destruct (pgrep_first e) as [pid|];
    [destruct (CPU_PERCENTAGE e >=? CPU_LIMIT_PERCENTAGE);
     [destruct (pgrep_after_sleep e)|]|];
    cbn [fst snd app].
  all: split; [intros H; try (exfalso; apply H; reflexivity)|].
  all: try (split; [cbn; auto 10|reflexivity]).
  all: split;
    [intros H; try reflexivity;
     cbn in H; repeat (destruct H as [H|H]; [discriminate H|]); contradiction|].
  all: split; [do 2 eexists; reflexivity|].
  all: split; [reflexivity|].
  all: intros pre n post H.
  all: repeat (destruct pre as [|? pre]; cbn in H;
               [try discriminate H;
                try (injection H as <- <-; split;
                     [reflexivity|exists pid; eexists [_; _]; reflexivity])|
                injection H as <- H]).
  all: try (destruct pre; discriminate H).
Qed.

Lemma status_and_log_of_every_run_witness :
  snd (script {| pgrep_first := Some 42%N; ps_cpu_tenths := 990;
                 pgrep_after_sleep := true; killall_status := 1 |}) = 1.
Proof.
  destruct (status_and_log_of_every_run
              {| pgrep_first := Some 42%N; ps_cpu_tenths := 990;
                 pgrep_after_sleep := true; killall_status := 1 |}) as (_ & H & _).
  apply H. vm_compute. auto 10.
Defined.


End TerminatorProofs.

(* ================================================================== *)
(** * Theorems: the notifier's main process                            *)
(* ================================================================== *)

Module NotifierProofs.
Import Notifier NotifierSpec.

(* ---------- proofs ---------- *)
Section Hoare.
Context {I : state -> Prop}.

Lemma preserves_ret {A} (a : A) : preserves I (ret a).
Proof. intros s H. exact H. Qed.

Lemma preserves_throw {A} (e : exn) : preserves I (@throw A e).
Proof. intros s H. exact H. Qed.

Lemma preserves_get : preserves I get.
Proof. intros s H. exact H. Qed.

Lemma preserves_bind {A B} (m : M A) (k : A -> M B) :
  preserves I m -> (forall a, preserves I (k a)) -> preserves I (bind m k).
Proof.
  intros Hm Hk s H. unfold exec, bind. specialize (Hm s H). unfold exec in Hm.
  destruct (m s) as [[a|e] s']; cbn in *.
  - apply (Hk a s' Hm).
  - exact Hm.
Qed.

Lemma preserves_try_catch {A} (m : M A) (h : exn -> M A) :
  preserves I m -> (forall e, preserves I (h e)) -> preserves I (try_catch m h).
Proof.
  intros Hm Hh s H. unfold exec, try_catch. specialize (Hm s H). unfold exec in Hm.
  destruct (m s) as [[a|e] s']; cbn in *.
  - exact Hm.
  - apply (Hh e s' Hm).
Qed.

Lemma preserves_when (b : bool) (m : M unit) :
  preserves I m -> preserves I (when b m).
Proof. intros Hm. destruct b; [exact Hm|apply preserves_ret]. Qed.

Lemma preserves_modify (f : state -> state) :
  (forall s, I s -> I (f s)) -> preserves I (modify f).
Proof. intros Hf s H. apply Hf, H. Qed.

(** Reactions run from the queue keep an invariant that every reaction
    keeps and that does not depend on the queue. *)
Lemma drain_preserves (l : launch) :
  (forall r, preserves I (run_reaction l r)) ->
  (forall q s, I s -> I (set_microtasks q s)) ->
  forall fuel s, I s -> I (drain l fuel s).
Proof.
  intros Hr Hq. induction fuel as [|fuel IH]; intros s H; cbn [drain].
  - exact H.
  - destruct (microtasks s) as [|r q]; [exact H|].
    apply IH. apply Hr. apply Hq. exact H.
Qed.

Lemma macrotask_after (l : launch) (m : M unit) (s : state) :
  (forall r, preserves I (run_reaction l r)) ->
  (forall q s, I s -> I (set_microtasks q s)) ->
  (forall e, preserves I (handleUncaughtException e)) ->
  I (exec m s) -> I (macrotask l m s).
Proof.
  intros Hr Hq He Hm. unfold macrotask, drain_microtasks.
  apply drain_preserves; try assumption.
  unfold exec in Hm.
  destruct (m s) as [[[]|e] s']; cbn in *.
  - exact Hm.
  - apply He. exact Hm.
Qed.

Lemma macrotask_preserves (l : launch) (m : M unit) :
  (forall r, preserves I (run_reaction l r)) ->
  (forall q s, I s -> I (set_microtasks q s)) ->
  (forall e, preserves I (handleUncaughtException e)) ->
  preserves I m ->
  forall s, I s -> I (macrotask l m s).
Proof.
  intros Hr Hq He Hm s H. apply macrotask_after; try assumption. apply Hm, H.
Qed.

End Hoare.

(** *** Facts on the choice of the timer that fires *)

Lemma earliest_In (ts : list timer) (t : timer) :
  earliest ts = Some t -> In t ts.
Proof.
  revert t. induction ts as [|u ts IH]; intros t; cbn [earliest]; [discriminate|].
  destruct (earliest ts) as [v|].
  - destruct (deadline v <? deadline u); intros [= <-]; [right; apply IH; reflexivity|left; reflexivity].
  - intros [= <-]. left. reflexivity.
Qed.

Lemma earliest_le (ts : list timer) (t : timer) :
  earliest ts = Some t -> forall u, In u ts -> deadline t <= deadline u.
Proof.
  revert t. induction ts as [|v ts IH]; intros t; cbn [earliest]; [discriminate|].
  destruct (earliest ts) as [w|] eqn:E.
  - specialize (IH w eq_refl).
    destruct (deadline w <? deadline v) eqn:C; intros [= <-] u [<-|Hu].
    + apply Z.ltb_lt in C. lia.
    + apply IH, Hu.
    + lia.
    + apply Z.ltb_ge in C. specialize (IH u Hu). lia.
  - intros [= <-] u [<-|Hu]; [lia|].
    destruct ts; [contradiction|]. cbn in E. destruct (earliest ts) as [x|].
    + destruct (deadline x <? deadline t); discriminate.
    + discriminate.
Qed.

Lemma earliest_None (ts : list timer) : earliest ts = None -> ts = [].
Proof.
  destruct ts as [|t ts]; [reflexivity|]. cbn. destruct (earliest ts) as [u|].
  - destruct (deadline u <? deadline t); discriminate.
  - discriminate.
Qed.

Lemma next_due_Some (target : Z) (ts : list timer) (t : timer) :
  next_due target ts = Some t ->
  In t ts /\ deadline t <= target /\ forall u, In u ts -> deadline t <= deadline u.
Proof.
  unfold next_due. destruct (earliest ts) as [u|] eqn:E; [|discriminate].
  destruct (deadline u <=? target) eqn:C; [|discriminate]. intros [= <-].
  apply Z.leb_le in C. repeat split.
  - apply earliest_In, E.
  - exact C.
  - apply earliest_le, E.
Qed.

Lemma next_due_None (target : Z) (ts : list timer) :
  next_due target ts = None -> forall u, In u ts -> target < deadline u.
Proof.
  unfold next_due. destruct (earliest ts) as [t|] eqn:E.
  - destruct (deadline t <=? target) eqn:C; [discriminate|]. intros _ u Hu.
    apply Z.leb_gt in C. pose proof (earliest_le ts t E u Hu). lia.
  - intros _ u Hu. apply earliest_None in E. subst ts. contradiction.
Qed.

Section Loop.
Context {I : state -> Prop}.

Lemma run_timers_preserves (l : launch) :
  (forall t s, I s -> exitCode s = None -> In t (timers s) -> I (fire l t s)) ->
  forall fuel target s, I s -> I (run_timers l fuel target s).
Proof.
  intros Hf. induction fuel as [|fuel IH]; intros target s H; cbn [run_timers].
  - exact H.
  - destruct (exitCode s) eqn:Ex; [exact H|].
    destruct (next_due target (timers s)) as [t|] eqn:Nd; [|exact H].
    apply IH. apply Hf; try assumption. apply (next_due_Some _ _ _ Nd).
Qed.

(** An invariant kept by every listener, by every firing of a timer and
    by the passing of time holds after every event. *)
Lemma handle_preserves_fire (l : launch) :
  (forall ev, preserves I (listener l ev)) ->
  (forall e, preserves I (handleUncaughtException e)) ->
  (forall r, preserves I (run_reaction l r)) ->
  (forall q s, I s -> I (set_microtasks q s)) ->
  (forall t s, I s -> exitCode s = None -> In t (timers s) -> I (fire l t s)) ->
  (forall t s, I s -> I (set_now t s)) ->
  forall s ev, I s -> I (handle l s ev).
Proof.
  intros Hl He Hr Hq Hf Hn s ev H. unfold handle.
  destruct (exitCode s) eqn:Ex; [exact H|].
  destruct ev; try (apply macrotask_preserves; try assumption; apply Hl).
  unfold elapse. cbv zeta.
  set (x := run_timers l _ _ s).
  assert (Hx : I x) by (apply run_timers_preserves; assumption).
  destruct (exitCode x); [exact Hx|]. apply Hn. exact Hx.
Qed.

(** The same when the invariant does not depend on the clock and every
    timer callback keeps it. *)
Lemma handle_preserves (l : launch) :
  (forall ev, preserves I (listener l ev)) ->
  (forall cb, preserves I (run_callback cb)) ->
  (forall e, preserves I (handleUncaughtException e)) ->
  (forall r, preserves I (run_reaction l r)) ->
  (forall q s, I s -> I (set_microtasks q s)) ->
  (forall id s, I s -> I (set_timers (remove_timer id (timers s)) s)) ->
  (forall t s, I s -> I (set_now t s)) ->
  forall s ev, I s -> I (handle l s ev).
Proof.
  intros Hl Hc He Hr Hq Ht Hn. apply handle_preserves_fire; try assumption.
  intros t s0 H0 _ _. unfold fire. apply macrotask_preserves; try assumption.
  - apply Hc.
  - apply (Ht (tid t) (set_now _ s0)). apply Hn. exact H0.
Qed.

Lemma run_preserves (l : launch) :
  (forall s ev, I s -> I (handle l s ev)) ->
  forall evs s, I s -> I (run l s evs).
Proof.
  intros Hh. induction evs as [|ev evs IH]; intros s H; cbn.
  - exact H.
  - apply IH, Hh, H.
Qed.

End Loop.

(** Unfolds the script's functions down to the primitives. *)
Ltac unfold_script :=
  unfold reportClientEvents, reportError, waitAndQuit, waitAndExit, waitAndRun,
    reportErrorAndExit, handleUncaughtException, request_settled, clearAppData,
    cleared, crash, process_exit, run_callback, configureTray, loadSurveyUI,
    jadeFile_read, initApp, on_pipe_connected, on_pipe_error,
    on_window_all_closed, on_will_quit, on_ipc_log, on_certificate_error,
    on_completes, on_health_check_pulse, arm_safeClose, listener, logger;
  cbv beta iota zeta.

Ltac pres_step prim :=
  lazymatch goal with
  | |- preserves _ (bind _ _) => apply preserves_bind; [|intro]
  | |- preserves _ (ret _) => apply preserves_ret
  | |- preserves _ (throw _) => apply preserves_throw
  | |- preserves _ get => apply preserves_get
  | |- preserves _ (try_catch _ _) => apply preserves_try_catch; [|intro]
  | |- preserves _ (when _ _) => apply preserves_when
  | |- preserves _ (if ?b then _ else _) => destruct b
  | |- preserves _ (match ?x with _ => _ end) => destruct x
  | |- preserves _ _ => first [prim | progress unfold_script]
  end.

Ltac pres prim := repeat (pres_step prim).

(** *** The readiness join *)

Lemma filter_window_app (t u : list (Z * effect)) :
  List.length (filter is_window (t ++ u))
  = (List.length (filter is_window t) + List.length (filter is_window u))%nat.
Proof. rewrite filter_app, length_app. reflexivity. Qed.

Lemma join_q_frame (s s' : state) :
  join_view s' = join_view s -> join_q s -> join_q s'.
Proof.
  unfold join_view, join_q, join_inv. intros [= -> -> -> ->]. auto.
Qed.

Lemma join_inv_frame (s s' : state) :
  join_view s' = join_view s -> join_inv s -> join_inv s'.
Proof.
  unfold join_view, join_inv. intros [= -> -> -> ->]. auto.
Qed.

Lemma join_view_emit (e : effect) (s : state) :
  (forall w, e <> NewBrowserWindow w) -> join_view (exec (emit e) s) = join_view s.
Proof.
  intros He. unfold join_view, windows_created. cbn. rewrite filter_window_app.
  destruct e; cbn; rewrite ?Nat.add_0_r; try reflexivity.
  exfalso. eapply He. reflexivity.
Qed.

Lemma join_view_setTimeout cb d s :
  join_view (exec (setTimeout cb d) s) = join_view s.
Proof.
  unfold join_view, windows_created. cbn. rewrite filter_window_app. cbn.
  rewrite Nat.add_0_r. reflexivity.
Qed.

Lemma join_view_clearTimeout id s :
  join_view (exec (clearTimeout id) s) = join_view s.
Proof.
  unfold join_view, windows_created. cbn. rewrite filter_window_app. cbn.
  rewrite Nat.add_0_r. reflexivity.
Qed.

(** A predicate on the view is kept by whatever leaves the view alone. *)
Ltac view_prim :=
  idtac;
  lazymatch goal with
  | |- preserves _ (setTimeout _ _) =>
      intros ? ?; rewrite join_view_setTimeout; assumption
  | |- preserves _ (clearTimeout _) =>
      intros ? ?; rewrite join_view_clearTimeout; assumption
  | |- preserves _ (start_async _) => intros ? ?; assumption
  | |- preserves _ (emit _) =>
      intros ? ?; rewrite join_view_emit by discriminate; assumption
  | |- preserves _ (modify _) => intros ? ?; assumption
  end.

Lemma view_handleUncaughtException v e :
  preserves (fun s => join_view s = v) (handleUncaughtException e).
Proof. pres view_prim. Qed.

Lemma view_run_callback v cb :
  preserves (fun s => join_view s = v) (run_callback cb).
Proof. pres view_prim. Qed.

Lemma view_PipeCatch l v :
  preserves (fun s => join_view s = v) (run_reaction l PipeCatch).
Proof. unfold run_reaction. pres view_prim. Qed.

Lemma view_after_window l v :
  preserves (fun s => join_view s = v)
    (try_catch
       (modify (set_mainWindow (Some (browserWindowOptions l))) ;;
        reportClientEvents
          (addEvent (addEvent [] DISCO_APP_INIT INFO (str "Main: Initiating application"))
             WINDOW_SIZE INFO (str (windowSizeInfo l))) ;;
        emit SetVisibleOnAllWorkspaces ;;
        configureTray l ;;
        loadSurveyUI)
       handleUncaughtException).
Proof. pres view_prim. Qed.

Lemma view_initApp l s :
  join_view (exec (try_catch (initApp l) handleUncaughtException) s)
  = (pipe_promise s, app_promise s, microtasks s, S (windows_created s)).
Proof.
  set (s1 := exec (emit (NewBrowserWindow (browserWindowOptions l)))
               (exec (logger INFO "Main: Initiating application") s)).
  change (exec (try_catch (initApp l) handleUncaughtException) s)
    with (exec (try_catch
                  (modify (set_mainWindow (Some (browserWindowOptions l))) ;;
                   reportClientEvents
                     (addEvent (addEvent [] DISCO_APP_INIT INFO (str "Main: Initiating application"))
                        WINDOW_SIZE INFO (str (windowSizeInfo l))) ;;
                   emit SetVisibleOnAllWorkspaces ;;
                   configureTray l ;;
                   loadSurveyUI)
                  handleUncaughtException) s1).
  rewrite (view_after_window l (join_view s1) s1 eq_refl).
  subst s1. unfold join_view, windows_created. cbn.
  rewrite !filter_window_app. cbn. f_equal. lia.
Qed.

Ltac break_state s :=
  destruct s as [now0 cfg0 stage0 domain0 win0 tee0 [pst pf pr] [ast af ar]
                 mt0 tm0 sct0 pend0 nid0 tr0 ex0].

Ltac join_cases :=
  unfold join_q, join_inv, windows_created in *; cbn in *;
  repeat match goal with
         | H : _ /\ _ |- _ => destruct H
         | H : False |- _ => contradiction H
         | H : ?x <> ?x |- _ => exfalso; apply H; reflexivity
         | H : match ?x with _ => _ end |- _ => is_var x; destruct x; cbn in *
         | |- context [match ?x with _ => _ end] => is_var x; destruct x; cbn in *
         | H : ?x = _ |- _ => is_var x; subst x; cbn in *
         end;
  repeat split; cbn; try congruence; try assumption; try discriminate.

Lemma join_q_settle_pipe (o : pstatus) :
  o <> Pending -> preserves join_q (settle whenPipeConnected o).
Proof.
  intros Ho s H. break_state s. destruct o; [congruence| |]; join_cases.
Qed.

Lemma join_q_settle_app :
  preserves join_q (settle whenAppReady Fulfilled).
Proof. intros s H. break_state s. join_cases. Qed.

Ltac join_prim :=
  idtac;
  lazymatch goal with
  | |- preserves _ (setTimeout _ _) =>
      intros ? ?; eapply join_q_frame; [apply join_view_setTimeout|assumption]
  | |- preserves _ (clearTimeout _) =>
      intros ? ?; eapply join_q_frame; [apply join_view_clearTimeout|assumption]
  | |- preserves _ (start_async _) => intros ? ?; assumption
  | |- preserves _ (emit _) =>
      intros ? ?; eapply join_q_frame; [apply join_view_emit; discriminate|assumption]
  | |- preserves _ (settle whenPipeConnected _) =>
      apply join_q_settle_pipe; discriminate
  | |- preserves _ (settle whenAppReady Fulfilled) => apply join_q_settle_app
  | |- preserves _ (modify _) => intros ? ?; assumption
  end.

Lemma join_q_listener l ev : preserves join_q (listener l ev).
Proof. pres join_prim. Qed.

Lemma join_q_handleUncaughtException e : preserves join_q (handleUncaughtException e).
Proof. pres join_prim. Qed.

Lemma join_q_run_callback cb : preserves join_q (run_callback cb).
Proof. pres join_prim. Qed.

Lemma join_inv_q s : join_inv s -> join_q s.
Proof.
  intros H. pose proof H as [Hm Hp]. split.
  - intros E. rewrite E in Hp. destruct (status (pipe_promise s)); exact Hp.
  - rewrite Hm. exact H.
Qed.

(** Running the queue to its end from a state of [join_q] re-establishes
    [join_inv]. *)
Lemma join_drain l fuel s :
  join_q s -> (queue_weight (microtasks s) <= fuel)%nat -> join_inv (drain l fuel s).
Proof.
  revert s. induction fuel as [|fuel IH]; intros s H Hw.
  - cbn. destruct H as [_ H]. destruct (microtasks s) as [|[] ?]; cbn in Hw; try lia. exact H.
  - cbn [drain]. destruct (microtasks s) as [|r q] eqn:Eq.
    + destruct H as [_ H]. rewrite Eq in H. exact H.
    + destruct H as [Hr H]. rewrite Eq in H.
      destruct r, q; try contradiction; destruct H as (Hp & Ha & Hn).
      * (* PipeThen *)
        apply IH.
        -- break_state s. cbn in *. subst. unfold join_q, join_inv, windows_created.
           destruct ast; cbn in *; try congruence; repeat split; auto; try congruence; discriminate.
        -- break_state s. cbn in *. subst. destruct ast; cbn in *; lia.
      * (* PipeCatch *)
        apply IH.
        -- apply join_inv_q. eapply join_inv_frame.
           ++ apply (view_PipeCatch l _ (set_microtasks [] s) eq_refl).
           ++ break_state s. cbn in *. subst. unfold join_inv, windows_created.
              destruct ast; cbn in *; try congruence; auto.
        -- pose proof (view_PipeCatch l _ (set_microtasks [] s) eq_refl) as V.
           unfold join_view in V. injection V as _ _ V3 _.
           change (microtasks (exec (run_reaction l PipeCatch) (set_microtasks [] s)))
             with (microtasks
                     (exec (logger ERROR "Failed to connect to pipe";;
                            reportErrorAndExit PIPE_CONNECTION_ERROR undefined)
                        (set_microtasks [] s))).
           rewrite V3. cbn. lia.
      * (* AppThenInit *)
        pose proof (view_initApp l (set_microtasks [] s)) as V.
        cbn [run_reaction]. apply IH.
        -- apply join_inv_q. unfold join_view in V. injection V as V1 V2 V3 V4.
           unfold join_inv. rewrite V1, V2, V3, V4. break_state s. cbn in *. subst.
           cbn. auto.
        -- unfold join_view in V. injection V as V1 V2 V3 V4. rewrite V3. cbn. lia.
Qed.

Lemma join_macrotask l m s :
  preserves join_q m -> join_inv s -> join_inv (macrotask l m s).
Proof.
  intros Hm H. unfold macrotask, drain_microtasks. apply join_drain; [|lia].
  apply join_inv_q in H. specialize (Hm s H). unfold exec in Hm.
  destruct (m s) as [[[]|e] s']; cbn in *.
  - exact Hm.
  - apply join_q_handleUncaughtException. exact Hm.
Qed.

Lemma join_inv_handle l s ev : join_inv s -> join_inv (handle l s ev).
Proof.
  intros H. unfold handle. destruct (exitCode s); [exact H|].
  destruct ev; try (apply join_macrotask; [apply join_q_listener|exact H]).
  unfold elapse. cbv zeta. set (x := run_timers l _ _ s).
  assert (Hx : join_inv x).
  { apply run_timers_preserves; [|exact H].
    intros t s0 H0 _ _. unfold fire. apply join_macrotask; [apply join_q_run_callback|].
    eapply join_inv_frame; [|exact H0]. reflexivity. }
  destruct (exitCode x); [exact Hx|]. eapply join_inv_frame; [|exact Hx]. reflexivity.
Qed.

(** *** The state after the script has run *)

Lemma prod_is_valid os : hasOwnProperty (WEBSITE_DOMAINS os) (str PROD) = true.
Proof. reflexivity. Qed.

(** Evaluates [startup l] once the tests the script makes on the launch
    parameters are decided. *)
Ltac eval_startup l :=
  unfold startup, macrotask, main_script, username, setStage;
  rewrite ?prod_is_valid;
  destruct (arg_username l) as [| |[|? ?]];
  destruct (hasOwnProperty (WEBSITE_DOMAINS (os_username l)) (arg_stage l));
  destruct (onWindows l); destruct (hasPipe l); destruct (onMac l);
  cbv -[to_str lookup join hasOwnProperty string_of_Z WEBSITE_DOMAINS
        VALID_STAGES_LIST usage nl backslash arg_username arg_stage os_username
        onWindows hasPipe onMac pipeName Z.add Z.max Z.lt Z.le].

Lemma join_inv_startup l : join_inv (startup l).
Proof.
  unfold join_inv, windows_created. eval_startup l; auto.
Qed.

Lemma join_inv_run l evs : join_inv (run l (startup l) evs).
Proof. apply run_preserves; [apply join_inv_handle|apply join_inv_startup]. Qed.

(** C2.  After any sequence of events, in any order, the number of
    windows [initApp] has created is 1 when both the promise of the pipe
    and the promise of the app are fulfilled, and 0 otherwise: [initApp]
    does not start before the later of the two, and runs once. *)
Theorem initApp_once_after_both_ready (l : launch) (evs : list event) :
  let s := run l (startup l) evs in
  windows_created s
  = if fulfilled (pipe_promise s) && fulfilled (app_promise s) then 1%nat else 0%nat.
Proof.
  intros s. destruct (join_inv_run l evs) as [_ H]. fold s in H.
  unfold fulfilled.
  destruct (status (pipe_promise s)), (status (app_promise s)); cbn; tauto.
Qed.

Lemma rest_view_settle p o s : rest_view (exec (settle p o) s) = rest_view s.
Proof.
  unfold exec, settle, modify. cbn.
  destruct p; cbn; destruct (status _); reflexivity.
Qed.

Lemma rest_view_then_catch p f g s :
  rest_view (exec (then_catch p f g) s) = rest_view s.
Proof.
  unfold exec, then_catch, modify. cbn.
  destruct p; cbn; destruct (status _); reflexivity.
Qed.

(** *** Identifiers and the timers pending *)

Lemma NoDup_map_filter {A B} (f : A -> B) (p : A -> bool) (xs : list A) :
  NoDup (map f xs) -> NoDup (map f (filter p xs)).
Proof.
  induction xs as [|x xs IH]; cbn; intros H; [constructor|].
  inversion H as [|? ? Hx Hxs]; subst.
  destruct (p x); cbn; [constructor|]; auto.
  intros Hin. apply Hx. apply in_map_iff in Hin as (y & Ey & Hy).
  apply in_map_iff. exists y. split; [exact Ey|]. apply filter_In in Hy. tauto.
Qed.

Lemma NoDup_map_snoc {A} (f : A -> nat) (xs : list A) (x : A) (n : nat) :
  NoDup (map f xs) -> (forall y, In y xs -> (f y < n)%nat) -> f x = n ->
  NoDup (map f (xs ++ [x])).
Proof.
  intros H Hlt Hx. rewrite map_app. cbn.
  apply NoDup_app; [exact H|repeat constructor; intros []|].
  intros a Ha [<-|[]]. apply in_map_iff in Ha as (y & Ey & Hy).
  specialize (Hlt y Hy). lia.
Qed.

Lemma sched_frame (s s' : state) :
  timers s' = timers s -> pending s' = pending s -> next_id s' = next_id s ->
  safeCloseTimeout s' = safeCloseTimeout s -> sched_inv s -> sched_inv s'.
Proof. unfold sched_inv. intros -> -> -> ->. auto. Qed.

Lemma sched_rest (s s' : state) :
  rest_view s' = rest_view s -> sched_inv s -> sched_inv s'.
Proof. unfold rest_view. intros [= ? ? ? ? ? ? ? ? ? ? ? ?]. apply sched_frame; assumption. Qed.

Lemma sched_setTimeout cb d :
  cb <> crashCallback -> (forall c, cb = exitCallback c -> c = 1) ->
  preserves sched_inv (setTimeout cb d).
Proof.
  intros Hcb Hex s (T1 & T2 & P1 & P2 & T3 & T4 & T5 & T6).
  unfold sched_inv. cbn. repeat split.
  - apply NoDup_map_snoc with (n := next_id s); auto.
  - intros t Ht. apply in_app_iff in Ht as [Ht|[<-|[]]]; [specialize (T2 t Ht)|cbn]; lia.
  - exact P1.
  - intros p Hp. specialize (P2 p Hp). lia.
  - intros t Ht Hc. apply in_app_iff in Ht as [Ht|[<-|[]]]; [auto|]. cbn in Hc. congruence.
  - intros t Ht Hs. apply in_app_iff in Ht as [Ht|[<-|[]]]; [auto|]. cbn in Hs.
    apply T6 in Hs. lia.
  - intros t c Ht Hc. apply in_app_iff in Ht as [Ht|[<-|[]]]; [eauto|]. cbn in Hc. auto.
  - intros id Hs. specialize (T6 id Hs). lia.
Qed.

Lemma sched_remove_timer id s :
  sched_inv s -> sched_inv (set_timers (remove_timer id (timers s)) s).
Proof.
  intros (T1 & T2 & P1 & P2 & T3 & T4 & T5 & T6).
  unfold sched_inv, remove_timer. cbn. repeat split; auto.
  - apply NoDup_map_filter, T1.
  - intros t Ht. apply filter_In in Ht as [Ht _]. auto.
  - intros t Ht. apply filter_In in Ht as [Ht _]. auto.
  - intros t Ht. apply filter_In in Ht as [Ht _]. auto.
  - intros t c Ht. apply filter_In in Ht as [Ht _]. eauto.
Qed.

Lemma sched_clearTimeout id : preserves sched_inv (clearTimeout id).
Proof.
  intros s H. apply (sched_remove_timer id) in H.
  revert H. apply sched_frame; reflexivity.
Qed.

Lemma sched_start_async op : preserves sched_inv (start_async op).
Proof.
  intros s (T1 & T2 & P1 & P2 & T3 & T4 & T5 & T6).
  unfold sched_inv. cbn. repeat split; auto.
  - intros t Ht. specialize (T2 t Ht). lia.
  - apply NoDup_map_snoc with (n := next_id s); auto.
  - intros p Hp. apply in_app_iff in Hp as [Hp|[<-|[]]]; [specialize (P2 p Hp)|cbn]; lia.
  - intros id Hs. specialize (T6 id Hs). lia.
Qed.

Lemma sched_remove_op id s :
  sched_inv s -> sched_inv (set_pending (remove_op id (pending s)) s).
Proof.
  intros (T1 & T2 & P1 & P2 & T3 & T4 & T5 & T6).
  unfold sched_inv, remove_op. cbn. repeat split; auto.
  - apply NoDup_map_filter, P1.
  - intros p Hp. apply filter_In in Hp as [Hp _]. auto.
Qed.

(** [safeCloseTimeout = setTimeout(crashCallback, d)] once no timer runs
    [crashCallback] any more. *)
Lemma sched_arm d s :
  sched_inv s -> (forall t, In t (timers s) -> timer_cb t <> crashCallback) ->
  sched_inv (exec (arm_safeClose d) s).
Proof.
  intros (T1 & T2 & P1 & P2 & T3 & T4 & T5 & T6) Hno.
  unfold sched_inv. cbn. repeat split; auto.
  - apply NoDup_map_snoc with (n := next_id s); auto.
  - intros t Ht. apply in_app_iff in Ht as [Ht|[<-|[]]]; [specialize (T2 t Ht)|cbn]; lia.
  - intros p Hp. specialize (P2 p Hp). lia.
  - intros t Ht Hc. apply in_app_iff in Ht as [Ht|[<-|[]]]; [|reflexivity].
    exfalso. apply (Hno t Ht Hc).
  - intros t Ht [= Hs]. apply in_app_iff in Ht as [Ht|[<-|[]]]; [|reflexivity].
    specialize (T2 t Ht). lia.
  - intros t c Ht Hc. apply in_app_iff in Ht as [Ht|[<-|[]]]; [eauto|]. discriminate Hc.
  - intros id [= <-]. lia.
Qed.

Lemma sched_pulse : preserves sched_inv on_health_check_pulse.
Proof.
  intros s H.
  assert (E : exec on_health_check_pulse s
              = exec (arm_safeClose HEALTH_CHECK_TIMEOUT)
                  (match safeCloseTimeout s with
                   | Some id => exec (clearTimeout id) s
                   | None => s
                   end)).
  { unfold on_health_check_pulse, exec, bind, get. cbn.
    destruct (safeCloseTimeout s); reflexivity. }
  rewrite E. clear E.
  pose proof H as (T1 & T2 & P1 & P2 & T3 & T4 & T5 & T6).
  destruct (safeCloseTimeout s) as [id|] eqn:Es.
  - apply sched_arm; [apply sched_clearTimeout, H|].
    cbn. intros t Ht Hc. apply filter_In in Ht as [Ht Hid].
    specialize (T3 t Ht Hc). injection T3 as E. subst id.
    rewrite Nat.eqb_refl in Hid. discriminate.
  - apply sched_arm; [exact H|].
    intros t Ht Hc. specialize (T3 t Ht Hc). discriminate.
Qed.

Ltac sched_prim :=
  idtac;
  lazymatch goal with
  | |- preserves _ on_health_check_pulse => apply sched_pulse
  | |- preserves _ (setTimeout _ _) =>
      apply sched_setTimeout;
      [discriminate|intros ? E; first [discriminate E|injection E as <-; reflexivity]]
  | |- preserves _ (clearTimeout _) => apply sched_clearTimeout
  | |- preserves _ (start_async _) => apply sched_start_async
  | |- preserves _ (emit _) => intros ? ?; eapply sched_frame; [..|eassumption]; reflexivity
  | |- preserves _ (settle _ _) =>
      intros ? ?; eapply sched_rest; [apply rest_view_settle|assumption]
  | |- preserves _ (then_catch _ _ _) =>
      intros ? ?; eapply sched_rest; [apply rest_view_then_catch|assumption]
  | |- preserves _ (modify (fun s => set_pending (remove_op _ (pending s)) s)) =>
      apply preserves_modify; intros ?; apply sched_remove_op
  | |- preserves _ (modify _) =>
      apply preserves_modify; intros ? ?; eapply sched_frame; [..|eassumption]; reflexivity
  end.

Lemma sched_listener l ev : preserves sched_inv (listener l ev).
Proof. pres sched_prim. Qed.

Lemma sched_run_callback cb : preserves sched_inv (run_callback cb).
Proof. pres sched_prim. Qed.

Lemma sched_handleUncaughtException e :
  preserves sched_inv (handleUncaughtException e).
Proof. pres sched_prim. Qed.

Lemma sched_run_reaction l r : preserves sched_inv (run_reaction l r).
Proof. unfold run_reaction. pres sched_prim. Qed.

Lemma sched_inv_handle l s ev : sched_inv s -> sched_inv (handle l s ev).
Proof.
  apply handle_preserves.
  - apply sched_listener.
  - apply sched_run_callback.
  - apply sched_handleUncaughtException.
  - apply sched_run_reaction.
  - intros q s0. apply sched_frame; reflexivity.
  - intros id s0. apply sched_remove_timer.
  - intros t s0. apply sched_frame; reflexivity.
Qed.

Lemma sched_inv_startup l : sched_inv (startup l).
Proof.
  unfold sched_inv. eval_startup l.
  all: repeat split; try solve [repeat constructor; cbn; intuition (try discriminate; try lia)].
  all: intros;
    repeat match goal with
           | H : _ \/ _ |- _ => destruct H
           | H : False |- _ => contradiction H
           | H : Some _ = Some _ |- _ => injection H as H
           end;
    subst; cbn in *; try congruence; try lia.
Qed.

Lemma sched_inv_run l evs : sched_inv (run l (startup l) evs).
Proof. apply run_preserves; [apply sched_inv_handle|apply sched_inv_startup]. Qed.


(** *** The delayed exit *)

Lemma funnel_grow (s s' : state) (more : list (Z * effect)) :
  trace s' = trace s ++ more ->
  (forall t, In t (timers s') -> In t (timers s)) ->
  (forall tm c, ~ In (tm, ProcessExit c) more) ->
  funnel_inv s -> funnel_inv s'.
Proof.
  intros Et Hsub Hno (F1 & F2). unfold funnel_inv. rewrite Et. split.
  - intros t c Ht Hc. apply in_or_app. left. apply F1; auto.
  - intros tm c Hin. apply in_app_or in Hin as [Hin|Hin]; [|exfalso; eapply Hno, Hin].
    destruct (F2 tm c Hin) as (t0 & id & Hi & Hle). exists t0, id. split; [|exact Hle].
    apply in_or_app. left. exact Hi.
Qed.

Lemma funnel_rest (s s' : state) :
  rest_view s' = rest_view s -> funnel_inv s -> funnel_inv s'.
Proof.
  unfold rest_view. intros [= ? ? ? ? ? ? Ht ? ? ? Etr ?].
  apply (funnel_grow s s' []).
  - rewrite app_nil_r. exact Etr.
  - rewrite Ht. auto.
  - intros ? ? [].
Qed.

Lemma funnel_emit (e : effect) :
  (forall c, e <> ProcessExit c) -> preserves funnel_inv (emit e).
Proof.
  intros He s. apply (funnel_grow _ _ [(now s, e)]).
  - reflexivity.
  - auto.
  - intros tm c [[= _ ->]|[]]. eapply He. reflexivity.
Qed.

Lemma funnel_setTimeout cb d :
  (forall c, cb = exitCallback c -> d = 1000) -> preserves funnel_inv (setTimeout cb d).
Proof.
  intros Hd s (F1 & F2). unfold funnel_inv. cbn. split.
  - intros t c Ht Hc. apply in_or_app.
    apply in_app_or in Ht as [Ht|[<-|[]]].
    + left. apply F1; auto.
    + right. cbn in *. subst cb. rewrite (Hd c eq_refl). left. f_equal. lia.
  - intros tm c Hin. apply in_app_or in Hin as [Hin|[[=]|[]]].
    destruct (F2 tm c Hin) as (t0 & id & Hi & Hle). exists t0, id. split; [|exact Hle].
    apply in_or_app. left. exact Hi.
Qed.

Lemma funnel_clearTimeout id : preserves funnel_inv (clearTimeout id).
Proof.
  intros s. apply (funnel_grow _ _ [(now s, ClearTimeout id)]).
  - reflexivity.
  - cbn. intros t Ht. apply filter_In in Ht. tauto.
  - intros tm c [[=]|[]].
Qed.

Ltac funnel_prim :=
  idtac;
  lazymatch goal with
  | |- preserves _ (setTimeout _ _) =>
      apply funnel_setTimeout; intros ? E; first [discriminate E|reflexivity]
  | |- preserves _ (clearTimeout _) => apply funnel_clearTimeout
  | |- preserves _ (start_async _) =>
      intros ? ?; eapply (funnel_grow _ _ []);
      [symmetry; apply app_nil_r|cbn; auto|intros ? ? []|eassumption]
  | |- preserves _ (emit _) => apply funnel_emit; discriminate
  | |- preserves _ (settle _ _) =>
      intros ? ?; eapply funnel_rest; [apply rest_view_settle|assumption]
  | |- preserves _ (then_catch _ _ _) =>
      intros ? ?; eapply funnel_rest; [apply rest_view_then_catch|assumption]
  | |- preserves _ (modify _) =>
      apply preserves_modify; intros ? ?; eapply (funnel_grow _ _ []);
      [symmetry; apply app_nil_r|cbn; auto|intros ? ? []|eassumption]
  end.

Lemma funnel_listener l ev : preserves funnel_inv (listener l ev).
Proof. pres funnel_prim. Qed.

Lemma funnel_handleUncaughtException e :
  preserves funnel_inv (handleUncaughtException e).
Proof. pres funnel_prim. Qed.

Lemma funnel_run_reaction l r : preserves funnel_inv (run_reaction l r).
Proof. unfold run_reaction. pres funnel_prim. Qed.

Lemma funnel_crash : preserves funnel_inv crash.
Proof. pres funnel_prim. Qed.

Lemma funnel_fire l t s :
  funnel_inv s -> exitCode s = None -> In t (timers s) -> funnel_inv (fire l t s).
Proof.
  intros H _ Ht. unfold fire.
  set (s1 := set_timers _ _).
  assert (H1 : funnel_inv s1).
  { revert H. apply (funnel_grow _ _ []).
    - symmetry. apply app_nil_r.
    - cbn. intros u Hu. apply filter_In in Hu. tauto.
    - intros ? ? []. }
  apply macrotask_after.
  - apply funnel_run_reaction.
  - intros q s0. apply funnel_rest. reflexivity.
  - apply funnel_handleUncaughtException.
  - destruct (timer_cb t) as [|c|] eqn:Ecb; cbn [run_callback].
    + apply funnel_crash, H1.
    + destruct H as (F1 & F2). destruct H1 as (G1 & G2).
      unfold funnel_inv. cbn. split.
      * intros u c' Hu Hc. apply in_or_app. left. apply F1; [|exact Hc].
        apply filter_In in Hu. tauto.
      * intros tm c' Hin. apply in_app_or in Hin as [Hin|[[= <- <-]|[]]].
        -- destruct (F2 tm c' Hin) as (t0 & id & Hi & Hle). exists t0, id.
           split; [apply in_or_app; left; exact Hi|exact Hle].
        -- exists (deadline t - 1000), (tid t). split; [|lia].
           apply in_or_app. left. apply F1; assumption.
    + apply funnel_emit; [discriminate|exact H1].
Qed.

Lemma funnel_inv_handle l s ev : funnel_inv s -> funnel_inv (handle l s ev).
Proof.
  apply handle_preserves_fire.
  - apply funnel_listener.
  - apply funnel_handleUncaughtException.
  - apply funnel_run_reaction.
  - intros q s0. apply funnel_rest. reflexivity.
  - intros t s0. apply funnel_fire.
  - intros t s0. apply (funnel_grow _ _ []).
    + symmetry. apply app_nil_r.
    + auto.
    + intros ? ? [].
Qed.

Lemma funnel_main_script l : preserves funnel_inv (main_script l).
Proof. unfold main_script. pres funnel_prim. Qed.

Lemma funnel_inv_startup l : funnel_inv (startup l).
Proof.
  unfold startup. apply macrotask_preserves.
  - apply funnel_run_reaction.
  - intros q s0. apply funnel_rest. reflexivity.
  - apply funnel_handleUncaughtException.
  - apply funnel_main_script.
  - split; cbn; intros; contradiction.
Qed.

Lemma funnel_inv_run l evs : funnel_inv (run l (startup l) evs).
Proof. apply run_preserves; [apply funnel_inv_handle|apply funnel_inv_startup]. Qed.

(** *** The loop that fires the timers ends *)

Lemma timers_weight_cons t ts :
  timers_weight (t :: ts) = (timer_weight t + timers_weight ts)%nat.
Proof. reflexivity. Qed.

Lemma timers_weight_app ts us :
  timers_weight (ts ++ us) = (timers_weight ts + timers_weight us)%nat.
Proof.
  induction ts as [|t ts IH]; [reflexivity|].
  cbn [app]. rewrite !timers_weight_cons, IH. lia.
Qed.

Lemma timer_weight_pos t : (1 <= timer_weight t)%nat.
Proof. unfold timer_weight. destruct (timer_cb t); lia. Qed.

Lemma timers_weight_filter p ts :
  (timers_weight (filter p ts) <= timers_weight ts)%nat.
Proof.
  induction ts as [|t ts IH]; [cbn; lia|].
  cbn [filter]. destruct (p t); rewrite ?timers_weight_cons; lia.
Qed.

Lemma timers_weight_remove t ts :
  In t ts ->
  (timers_weight (remove_timer (tid t) ts) + timer_weight t <= timers_weight ts)%nat.
Proof.
  unfold remove_timer. induction ts as [|u ts IH]; [contradiction|].
  cbn [filter]. rewrite timers_weight_cons. intros [->|Hin].
  - rewrite Nat.eqb_refl. cbn [negb].
    pose proof (timers_weight_filter (fun t0 => negb (tid t0 =? tid t)%nat) ts). lia.
  - specialize (IH Hin). destruct (negb _); rewrite ?timers_weight_cons; lia.
Qed.

Ltac weight_prim :=
  idtac;
  lazymatch goal with
  | |- preserves _ (clearTimeout _) =>
      intros s0 H0; unfold weight_le in *; cbn;
      etransitivity; [apply timers_weight_filter|exact H0]
  | |- preserves _ (start_async _) => intros ? H0; exact H0
  | |- preserves _ (emit _) => intros ? H0; exact H0
  | |- preserves _ (modify _) => intros ? H0; exact H0
  end.

Lemma weight_run_callback n cb : preserves (weight_le n) (run_callback cb).
Proof. pres weight_prim. Qed.

Lemma weight_handleUncaughtException n e s :
  weight_le n s -> weight_le (S n) (exec (handleUncaughtException e) s).
Proof.
  intros H. unfold handleUncaughtException.
  set (body := _ ;; _).
  assert (Hb : preserves (weight_le n) body) by (subst body; pres weight_prim).
  specialize (Hb s H). unfold exec, try_catch in *.
  destruct (body s) as [[[]|e'] s']; cbn in *.
  - unfold weight_le in *. lia.
  - unfold weight_le in *. cbn. rewrite timers_weight_app. cbn. lia.
Qed.

Lemma run_callback_returns cb s :
  cb <> crashCallback -> exists s', run_callback cb s = (Ok tt, s').
Proof.
  destruct cb; [congruence| |]; intros _; cbn; eexists; reflexivity.
Qed.

(** A macrotask that leaves the queue of reactions empty is not followed
    by any reaction. *)
Lemma drain_nothing l s : microtasks s = [] -> drain_microtasks l s = s.
Proof. unfold drain_microtasks. intros ->. reflexivity. Qed.

(** With no reaction queued, a timer that fires runs its callback and,
    if that throws, the 'uncaughtException' listener; nothing else. *)
Lemma fire_eq l t s :
  microtasks s = [] ->
  fire l t s
  = let s1 := set_timers (remove_timer (tid t) (timers s))
                (set_now (Z.max (now s) (deadline t)) s) in
    match run_callback (timer_cb t) s1 with
    | (Ok _, s') => s'
    | (Throw e, s') => exec (handleUncaughtException e) s'
    end.
Proof.
  intros Hq. unfold fire, macrotask. cbv zeta.
  set (s1 := set_timers _ _). apply drain_nothing.
  pose proof (view_run_callback (join_view s1) (timer_cb t) s1 eq_refl) as V.
  unfold exec in V. destruct (run_callback (timer_cb t) s1) as [[[]|e] s'].
  - cbn in V. unfold join_view in V. injection V as _ _ V _. rewrite V. exact Hq.
  - cbn in V. pose proof (view_handleUncaughtException _ e s' V) as V'.
    cbn in V'. unfold join_view in V'. injection V' as _ _ V' _. rewrite V'. exact Hq.
Qed.

Lemma fire_weight l t s :
  microtasks s = [] -> In t (timers s) ->
  (timers_weight (timers (fire l t s)) < timers_weight (timers s))%nat.
Proof.
  intros Hq Ht. rewrite fire_eq by exact Hq. cbv zeta.
  set (s1 := set_timers _ _).
  pose proof (timers_weight_remove t (timers s) Ht) as Hr.
  assert (H1 : weight_le (timers_weight (timers s1)) s1) by (unfold weight_le; lia).
  pose proof (weight_run_callback _ (timer_cb t) s1 H1) as Hc.
  unfold exec in Hc.
  assert (E1 : timers s1 = remove_timer (tid t) (timers s)) by reflexivity.
  rewrite E1 in Hc.
  pose proof (timer_weight_pos t) as Hp.
  destruct (timer_cb t) eqn:Ecb.
  - assert (Hw : timer_weight t = 2%nat) by (unfold timer_weight; rewrite Ecb; reflexivity).
    destruct (run_callback crashCallback s1) as [[[]|e] s'] eqn:Er; cbn in Hc.
    + unfold weight_le in Hc. lia.
    + apply (weight_handleUncaughtException _ e) in Hc. unfold weight_le in Hc. lia.
  - destruct (run_callback_returns (exitCallback errorCode) s1) as [s' Es]; [discriminate|].
    rewrite Es in *. cbn in Hc. unfold weight_le in Hc. lia.
  - destruct (run_callback_returns quitCallback s1) as [s' Es]; [discriminate|].
    rewrite Es in *. cbn in Hc. unfold weight_le in Hc. lia.
Qed.

Lemma join_inv_fire l t s : join_inv s -> join_inv (fire l t s).
Proof.
  intros H. unfold fire. apply join_macrotask; [apply join_q_run_callback|].
  eapply join_inv_frame; [|exact H]. reflexivity.
Qed.

Lemma timers_weight_zero ts : timers_weight ts = 0%nat -> ts = [].
Proof.
  destruct ts as [|t ts]; [reflexivity|]. rewrite timers_weight_cons.
  pose proof (timer_weight_pos t). lia.
Qed.

(** The fuel [elapse] gives to [run_timers] is enough: the loop stops only
    when the process has exited or no timer is due. *)
Lemma run_timers_complete l fuel target s :
  join_inv s -> (timers_weight (timers s) <= fuel)%nat ->
  exitCode (run_timers l fuel target s) = None ->
  next_due target (timers (run_timers l fuel target s)) = None.
Proof.
  revert s. induction fuel as [|fuel IH]; intros s Hj Hw.
  - cbn. intros _. assert (E : timers s = []) by (apply timers_weight_zero; lia).
    rewrite E. reflexivity.
  - cbn [run_timers]. destruct (exitCode s) eqn:Ex; [intros E; congruence|].
    destruct (next_due target (timers s)) as [t|] eqn:Nd; [|intros _; exact Nd].
    apply IH.
    + apply join_inv_fire, Hj.
    + destruct Hj as [Hq _]. apply next_due_Some in Nd as (Ht & _).
      pose proof (fire_weight l t s Hq Ht). lia.
Qed.

Lemma elapse_no_due l ms s :
  join_inv s -> exitCode (elapse l ms s) = None ->
  forall t, In t (timers (elapse l ms s)) -> now (elapse l ms s) < deadline t.
Proof.
  intros Hj. unfold elapse. cbv zeta.
  pose proof (run_timers_complete l (timers_weight (timers s)) (now s + Z.max 0 ms) s
                Hj (Nat.le_refl _)) as Hc.
  destruct (exitCode (run_timers l _ _ s)) eqn:Ex; [intros E; congruence|].
  intros _ t Ht. cbn in *. apply (next_due_None _ _ (Hc eq_refl)), Ht.
Qed.

(** *** The clock never passes a pending timer, and the only exit status is 1 *)

Lemma clock_frame (s s' : state) :
  exitCode s' = exitCode s -> now s' = now s ->
  (forall t, In t (timers s') -> In t (timers s)) ->
  clock_inv s -> clock_inv s'.
Proof. unfold clock_inv. intros -> -> Hsub H Hx t Ht. apply H; auto. Qed.

Lemma clock_rest (s s' : state) :
  rest_view s' = rest_view s -> clock_inv s -> clock_inv s'.
Proof.
  unfold rest_view. intros [= ? ? ? ? ? ? Ht ? ? ? ? ?].
  apply clock_frame; try assumption. rewrite Ht. auto.
Qed.

Lemma clock_setTimeout cb d : preserves clock_inv (setTimeout cb d).
Proof.
  intros s H Hx t Ht. cbn in *. apply in_app_or in Ht as [Ht|[<-|[]]].
  - apply H; assumption.
  - cbn. lia.
Qed.

Lemma clock_clearTimeout id : preserves clock_inv (clearTimeout id).
Proof.
  intros s. apply clock_frame; try reflexivity.
  unfold exec, clearTimeout. cbn. intros t Ht. apply filter_In in Ht. tauto.
Qed.

Ltac clock_prim :=
  idtac;
  lazymatch goal with
  | |- preserves _ (setTimeout _ _) => apply clock_setTimeout
  | |- preserves _ (clearTimeout _) => apply clock_clearTimeout
  | |- preserves _ (settle _ _) =>
      intros ? ?; eapply clock_rest; [apply rest_view_settle|assumption]
  | |- preserves _ (then_catch _ _ _) =>
      intros ? ?; eapply clock_rest; [apply rest_view_then_catch|assumption]
  | |- preserves _ (start_async _) =>
      intros ? ?; eapply clock_frame; [reflexivity|reflexivity|cbn; auto|eassumption]
  | |- preserves _ (emit _) =>
      intros ? ?; eapply clock_frame; [reflexivity|reflexivity|cbn; auto|eassumption]
  | |- preserves _ (modify _) =>
      intros ? ?; eapply clock_frame; [reflexivity|reflexivity|cbn; auto|eassumption]
  end.

Lemma clock_listener l ev : preserves clock_inv (listener l ev).
Proof. pres clock_prim. Qed.

Lemma clock_handleUncaughtException e : preserves clock_inv (handleUncaughtException e).
Proof. pres clock_prim. Qed.

Lemma clock_run_reaction l r : preserves clock_inv (run_reaction l r).
Proof. unfold run_reaction. pres clock_prim. Qed.

Lemma clock_inv_handle l s ev :
  join_inv s -> clock_inv s -> clock_inv (handle l s ev).
Proof.
  intros Hj H. unfold handle. destruct (exitCode s) eqn:Ex; [exact H|].
  destruct ev;
    try (apply macrotask_preserves;
         [apply clock_run_reaction
         |intros q s0; apply clock_frame; auto
         |apply clock_handleUncaughtException
         |apply clock_listener
         |exact H]).
  intros Hx. apply elapse_no_due; assumption.
Qed.

Lemma exit_frame (s s' : state) :
  exitCode s' = exitCode s -> exit_inv s -> exit_inv s'.
Proof. unfold exit_inv. intros ->. auto. Qed.

Lemma exit_rest (s s' : state) :
  rest_view s' = rest_view s -> exit_inv s -> exit_inv s'.
Proof.
  unfold rest_view. intros [= ? ? ? ? ? ? ? ? ? ? ? ?]. apply exit_frame. assumption.
Qed.

Ltac exit_prim :=
  idtac;
  lazymatch goal with
  | |- preserves _ (settle _ _) =>
      intros ? ?; eapply exit_rest; [apply rest_view_settle|assumption]
  | |- preserves _ (then_catch _ _ _) =>
      intros ? ?; eapply exit_rest; [apply rest_view_then_catch|assumption]
  | |- preserves _ (setTimeout _ _) =>
      intros ? ?; eapply exit_frame; [reflexivity|eassumption]
  | |- preserves _ (clearTimeout _) =>
      intros ? ?; eapply exit_frame; [reflexivity|eassumption]
  | |- preserves _ (start_async _) =>
      intros ? ?; eapply exit_frame; [reflexivity|eassumption]
  | |- preserves _ (emit _) =>
      intros ? ?; eapply exit_frame; [reflexivity|eassumption]
  | |- preserves _ (modify _) =>
      intros ? ?; eapply exit_frame; [reflexivity|eassumption]
  end.

Lemma exit_listener l ev : preserves exit_inv (listener l ev).
Proof. pres exit_prim. Qed.

Lemma exit_handleUncaughtException e : preserves exit_inv (handleUncaughtException e).
Proof. pres exit_prim. Qed.

Lemma exit_run_reaction l r : preserves exit_inv (run_reaction l r).
Proof. unfold run_reaction. pres exit_prim. Qed.

Lemma exit_crash : preserves exit_inv crash.
Proof. pres exit_prim. Qed.

Lemma sched_inv_fire l t s : sched_inv s -> sched_inv (fire l t s).
Proof.
  intros H. unfold fire. apply macrotask_preserves.
  - apply sched_run_reaction.
  - intros q s0. apply sched_frame; reflexivity.
  - apply sched_handleUncaughtException.
  - apply sched_run_callback.
  - apply (sched_remove_timer (tid t) (set_now _ s)).
    revert H. apply sched_frame; reflexivity.
Qed.

Lemma exit_inv_fire l t s :
  sched_inv s -> In t (timers s) -> exit_inv s -> exit_inv (fire l t s).
Proof.
  intros Hs Ht H. unfold fire. apply macrotask_after.
  - apply exit_run_reaction.
  - intros q s0. apply exit_frame. reflexivity.
  - apply exit_handleUncaughtException.
  - set (s1 := set_timers _ _).
    assert (H1 : exit_inv s1) by (revert H; apply exit_frame; reflexivity).
    destruct (timer_cb t) as [|c|] eqn:Ecb; cbn [run_callback].
    + apply exit_crash, H1.
    + intros c' [= <-]. destruct Hs as (_ & _ & _ & _ & _ & _ & T5 & _). eapply T5; eassumption.
    + revert H1. apply exit_frame. reflexivity.
Qed.

Lemma Inv_fire l t s : Inv s -> In t (timers s) -> join_inv (fire l t s) /\ sched_inv (fire l t s) /\ exit_inv (fire l t s).
Proof.
  intros (Hj & Hs & Hc & He) Ht. refine (conj _ (conj _ _)).
  - apply join_inv_fire, Hj.
  - apply sched_inv_fire, Hs.
  - apply exit_inv_fire; assumption.
Qed.

Lemma exit_inv_handle l s ev : sched_inv s -> exit_inv s -> exit_inv (handle l s ev).
Proof.
  intros Hs H.
  assert (G : (sched_inv (handle l s ev) /\ exit_inv (handle l s ev))); [|tauto].
  apply (@handle_preserves_fire (fun s => sched_inv s /\ exit_inv s)); [..|tauto].
  - intros ev0 s0 [? ?]. split; [apply sched_listener|apply exit_listener]; assumption.
  - intros e s0 [? ?].
    split; [apply sched_handleUncaughtException|apply exit_handleUncaughtException]; assumption.
  - intros r s0 [? ?]. split; [apply sched_run_reaction|apply exit_run_reaction]; assumption.
  - intros q s0 [? ?]. split; [revert H0; apply sched_frame|revert H1; apply exit_frame]; reflexivity.
  - intros t s0 [? ?] _ Ht. split; [apply sched_inv_fire|apply exit_inv_fire]; assumption.
  - intros t s0 [? ?]. split; [revert H0; apply sched_frame|revert H1; apply exit_frame]; reflexivity.
Qed.

Lemma Inv_handle l s ev : Inv s -> Inv (handle l s ev).
Proof.
  intros (Hj & Hs & Hc & He). refine (conj _ (conj _ (conj _ _))).
  - apply join_inv_handle, Hj.
  - apply sched_inv_handle, Hs.
  - apply clock_inv_handle; assumption.
  - apply exit_inv_handle; assumption.
Qed.

Lemma Inv_run l s evs : Inv s -> Inv (run l s evs).
Proof. apply run_preserves. intros s0 ev. apply Inv_handle. Qed.

Lemma Inv_startup l : Inv (startup l).
Proof.
  refine (conj _ (conj _ (conj _ _))).
  - apply join_inv_startup.
  - apply sched_inv_startup.
  - unfold clock_inv. eval_startup l; intros;
      repeat match goal with
             | H : _ \/ _ |- _ => destruct H
             | H : False |- _ => contradiction H
             end; subst; cbn; reflexivity.
  - unfold exit_inv. eval_startup l; intros; discriminate.
Qed.

(** *** A pending exit timer ends the process *)

Lemma keeps_frame t (s s' : state) :
  exitCode s' = exitCode s -> (In t (timers s) -> In t (timers s')) ->
  keeps_timer t s -> keeps_timer t s'.
Proof. unfold keeps_timer. intros -> Hsub [? ?]. auto. Qed.

Lemma keeps_rest t (s s' : state) :
  rest_view s' = rest_view s -> keeps_timer t s -> keeps_timer t s'.
Proof.
  unfold rest_view. intros [= ? ? ? ? ? ? Ht ? ? ? ? ?].
  apply keeps_frame; [assumption|]. rewrite Ht. auto.
Qed.

Lemma keeps_setTimeout t cb d : preserves (keeps_timer t) (setTimeout cb d).
Proof.
  intros s. apply keeps_frame; [reflexivity|].
  unfold exec, setTimeout. cbn. intros H. apply in_or_app. left. exact H.
Qed.

Lemma preserves_and {A} (P Q : state -> Prop) (m : M A) :
  preserves P m -> preserves Q m -> preserves (fun s => P s /\ Q s) m.
Proof. intros HP HQ s [? ?]. split; [apply HP|apply HQ]; assumption. Qed.

(** A pulse cancels the timer [safeCloseTimeout] names, which never is a
    timer that exits. *)
Lemma keeps_pulse t c :
  timer_cb t = exitCallback c ->
  preserves (fun s => sched_inv s /\ keeps_timer t s) on_health_check_pulse.
Proof.
  intros Hcb s [Hs [Hx Ht]]. split; [apply sched_pulse, Hs|].
  destruct Hs as (_ & _ & _ & _ & _ & T4 & _).
  unfold keeps_timer, exec, on_health_check_pulse, bind, get. cbn.
  destruct (safeCloseTimeout s) as [id|] eqn:Es; cbn; (split; [exact Hx|]).
  - apply in_or_app. left. apply filter_In. split; [exact Ht|].
    destruct (Nat.eqb_spec (tid t) id) as [E|]; [|reflexivity].
    subst id. specialize (T4 t Ht eq_refl). congruence.
  - apply in_or_app. left. exact Ht.
Qed.

Ltac keeps_prim :=
  idtac;
  lazymatch goal with
  | |- preserves _ (setTimeout _ _) => apply keeps_setTimeout
  | |- preserves _ (settle _ _) =>
      intros ? ?; eapply keeps_rest; [apply rest_view_settle|assumption]
  | |- preserves _ (then_catch _ _ _) =>
      intros ? ?; eapply keeps_rest; [apply rest_view_then_catch|assumption]
  | |- preserves _ (start_async _) =>
      intros ? ?; eapply keeps_frame; [reflexivity|cbn; auto|eassumption]
  | |- preserves _ (emit _) =>
      intros ? ?; eapply keeps_frame; [reflexivity|cbn; auto|eassumption]
  | |- preserves _ (modify _) =>
      intros ? ?; eapply keeps_frame; [reflexivity|cbn; auto|eassumption]
  end.

Ltac sched_keeps_prim c Hcb :=
  idtac;
  lazymatch goal with
  | |- preserves _ on_health_check_pulse => apply (keeps_pulse _ c Hcb)
  | |- preserves _ (bind _ _) => fail
  | |- preserves _ _ => apply preserves_and; [sched_prim|keeps_prim]
  end.

Lemma keeps_listener l ev t c :
  timer_cb t = exitCallback c ->
  preserves (fun s => sched_inv s /\ keeps_timer t s) (listener l ev).
Proof. intros Hcb. pres ltac:(sched_keeps_prim c Hcb). Qed.

Lemma keeps_handleUncaughtException t e :
  preserves (keeps_timer t) (handleUncaughtException e).
Proof. pres keeps_prim. Qed.

Lemma keeps_run_reaction l r t : preserves (keeps_timer t) (run_reaction l r).
Proof. unfold run_reaction. pres keeps_prim. Qed.

Lemma keeps_crash t : preserves (keeps_timer t) crash.
Proof. pres keeps_prim. Qed.

Lemma NoDup_tid_eq (ts : list timer) (u t : timer) :
  NoDup (map tid ts) -> In u ts -> In t ts -> tid u = tid t -> u = t.
Proof.
  induction ts as [|x ts IH]; cbn; [contradiction|].
  intros H Hu Ht E. inversion H as [|? ? Hx Hts]; subst.
  destruct Hu as [->|Hu], Ht as [->|Ht]; auto.
  - exfalso. apply Hx. rewrite E. apply in_map, Ht.
  - exfalso. apply Hx. rewrite <- E. apply in_map, Hu.
Qed.

Lemma doomed_fire l u s t c :
  join_inv s -> sched_inv s -> timer_cb t = exitCallback c ->
  keeps_timer t s -> In u (timers s) -> doomed_by t (fire l u s).
Proof.
  intros [Hq _] Hs Hcb [Hx Ht] Hu. rewrite fire_eq by exact Hq. cbv zeta.
  set (s1 := set_timers _ _).
  pose proof Hs as (T1 & _ & _ & _ & _ & _ & T5 & _).
  destruct (Nat.eqb_spec (tid u) (tid t)) as [E|N].
  - assert (u = t) by (eapply NoDup_tid_eq; eassumption). subst u.
    rewrite Hcb. cbn. left. rewrite (T5 t c Ht Hcb). reflexivity.
  - assert (K1 : keeps_timer t s1).
    { split; [exact Hx|]. cbn. apply filter_In. split; [exact Ht|].
      destruct (Nat.eqb_spec (tid t) (tid u)); [congruence|reflexivity]. }
    destruct (timer_cb u) as [|c'|] eqn:Eu.
    + right. pose proof (keeps_crash t s1 K1) as Kc. unfold exec in Kc.
      cbn [run_callback]. destruct (crash s1) as [[[]|e] s']; cbn in Kc.
      * exact Kc.
      * apply keeps_handleUncaughtException, Kc.
    + left. cbn. rewrite (T5 u c' Hu Eu). reflexivity.
    + right. cbn. exact K1.
Qed.

Lemma doomed_run_timers l t c fuel target s :
  timer_cb t = exitCallback c ->
  join_inv s -> sched_inv s -> doomed_by t s ->
  doomed_by t (run_timers l fuel target s).
Proof.
  intros Hcb. revert s. induction fuel as [|fuel IH]; intros s Hj Hs Hd; cbn [run_timers].
  - exact Hd.
  - destruct (exitCode s) eqn:Ex; [exact Hd|].
    destruct (next_due target (timers s)) as [u|] eqn:Nd; [|exact Hd].
    apply next_due_Some in Nd as (Hu & _).
    destruct Hd as [Hd|Hk]; [congruence|].
    pose proof (doomed_fire l u s t c Hj Hs Hcb Hk Hu) as Hf.
    apply IH; [apply join_inv_fire, Hj|apply sched_inv_fire, Hs|exact Hf].
Qed.

Lemma doomed_handle l s ev t c :
  Inv s -> timer_cb t = exitCallback c -> doomed_by t s -> doomed_by t (handle l s ev).
Proof.
  intros (Hj & Hs & _ & _) Hcb Hd. unfold handle.
  destruct (exitCode s) eqn:Ex; [exact Hd|].
  destruct Hd as [Hd|Hk]; [congruence|].
  assert (Hm : forall m, preserves (fun s => sched_inv s /\ keeps_timer t s) m ->
                         doomed_by t (macrotask l m s)).
  { intros m Hm. right.
    apply (@macrotask_preserves (fun s => sched_inv s /\ keeps_timer t s)).
    - intros r. apply preserves_and; [apply sched_run_reaction|apply keeps_run_reaction].
    - intros q s0 [? ?]. split; [eapply sched_frame; [..|eassumption]; reflexivity|].
      eapply keeps_frame; [..|eassumption]; [reflexivity|auto].
    - intros e. apply preserves_and;
        [apply sched_handleUncaughtException|apply keeps_handleUncaughtException].
    - exact Hm.
    - split; assumption. }
  destruct ev; try (apply Hm; apply (keeps_listener l _ t c Hcb)).
  unfold elapse. cbv zeta. set (x := run_timers l _ _ s).
  assert (Hx : doomed_by t x).
  { apply (doomed_run_timers l t c); auto. right. exact Hk. }
  destruct (exitCode x) eqn:Ex'; [exact Hx|].
  destruct Hx as [Hx|[_ Hx]]; [congruence|]. right. split; assumption.
Qed.

Lemma doomed_run l evs s t c :
  Inv s -> timer_cb t = exitCallback c -> doomed_by t s -> doomed_by t (run l s evs).
Proof.
  revert s. induction evs as [|ev evs IH]; intros s Hi Hcb Hd; cbn.
  - exact Hd.
  - apply IH; [apply Inv_handle, Hi|exact Hcb|apply (doomed_handle l s ev t c); assumption].
Qed.

(** Once a timer that exits is pending, the process has exited with
    status 1 whenever the clock has reached its deadline. *)
Lemma exit_timer_fires l s evs t c :
  Inv s -> exitCode s = None -> In t (timers s) -> timer_cb t = exitCallback c ->
  deadline t <= now (run l s evs) -> exitCode (run l s evs) = Some 1.
Proof.
  intros Hi Hx Ht Hcb Hd.
  pose proof (doomed_run l evs s t c Hi Hcb (or_intror (conj Hx Ht))) as [H|[Hx' Ht']].
  - exact H.
  - pose proof (Inv_run l s evs Hi) as (_ & _ & Hc & _).
    specialize (Hc Hx' t Ht'). lia.
Qed.


(** *** Stage resolution *)

Lemma hasOwnProperty_stage os v :
  hasOwnProperty (WEBSITE_DOMAINS os) v = true
  <-> In (to_str v) [ALPHA; INTEG; GAMMA; PROD].
Proof.
  unfold hasOwnProperty, WEBSITE_DOMAINS. cbn [existsb fst In].
  rewrite !orb_true_iff, !String.eqb_eq. intuition congruence.
Qed.


(** *** No window is ever created visible *)











(** *** Launch without a username *)


(** *** The delayed exit is the only way out *)

Lemma view_listener_quit l s :
  join_inv s -> handle l s IpcQuit
               = match exitCode s with
                 | Some _ => s
                 | None => exec (setTimeout quitCallback 1000) s
                 end.
Proof.
  intros [Hq _]. unfold handle. destruct (exitCode s); [reflexivity|].
  unfold macrotask. rewrite drain_nothing; [reflexivity|exact Hq].
Qed.

(** C3.  In every run, each call of [process.exit] was armed by
    [setTimeout] with the delay of 1000 ms, at least 1000 ms earlier: no
    path calls it directly, and no caller shortens the wait.  The quit the
    renderer asks for is armed the same way.  [waitAndRun] waits the time
    it is given, and 1000 ms when it is given none. *)
Theorem exits_pass_through_delay (l : launch) (evs : list event) :
  let s := run l (startup l) evs in
  (forall tm c, In (tm, ProcessExit c) (trace s) ->
     exists t0 id,
       In (t0, SetTimeout id (exitCallback c) 1000) (trace s) /\ t0 + 1000 <= tm) /\
  (exitCode s = None ->
     let s' := handle l s IpcQuit in
     trace s' = trace s ++ [(now s, SetTimeout (next_id s) quitCallback 1000)] /\
     timers s' = timers s ++ [{| tid := next_id s; deadline := now s + 1000;
                                 timer_cb := quitCallback |}]) /\
  (forall cb waitTime s0,
     timers (exec (waitAndRun cb waitTime) s0)
     = timers s0 ++ [{| tid := next_id s0;
                        deadline := now s0 + Z.max 1 (match waitTime with
                                                      | Some w => w
                                                      | None => 1000
                                                      end);
                        timer_cb := cb |}]).
Proof.
  intros s. split; [|split].
  - apply (funnel_inv_run l evs).
  - intros Hx. cbv zeta. rewrite view_listener_quit by apply join_inv_run.
    fold s. rewrite Hx. split; reflexivity.
  - intros cb waitTime s0. reflexivity.
Qed.



(** *** Only the passing of time moves the clock *)

Ltac now_prim :=
  idtac;
  lazymatch goal with
  | |- preserves _ (settle _ _) =>
      intros s0 H0; rewrite <- H0;
      pose proof (f_equal (fun v => fst (fst (fst (fst (fst (fst (fst (fst (fst (fst (fst v)))))))))))
                    (rest_view_settle whenPipeConnected Fulfilled s0)) as _;
      match goal with
      | |- now (exec (settle ?p ?o) s0) = _ =>
          exact (f_equal (fun v => fst (fst (fst (fst (fst (fst (fst (fst (fst (fst (fst v)))))))))))
                   (rest_view_settle p o s0))
      end
  | |- preserves _ (then_catch _ _ _) =>
      intros s0 H0; rewrite <- H0;
      match goal with
      | |- now (exec (then_catch ?p ?f ?g) s0) = _ =>
          exact (f_equal (fun v => fst (fst (fst (fst (fst (fst (fst (fst (fst (fst (fst v)))))))))))
                   (rest_view_then_catch p f g s0))
      end
  | |- preserves _ _ => intros ? H0; exact H0
  end.

Lemma now_listener n l ev : preserves (fun s => now s = n) (listener l ev).
Proof. pres now_prim. Qed.

Lemma now_run_callback n cb : preserves (fun s => now s = n) (run_callback cb).
Proof. pres now_prim. Qed.

Lemma now_handleUncaughtException n e :
  preserves (fun s => now s = n) (handleUncaughtException e).
Proof. pres now_prim. Qed.

Lemma now_run_reaction n l r : preserves (fun s => now s = n) (run_reaction l r).
Proof. unfold run_reaction. pres now_prim. Qed.

Lemma now_macrotask l m s :
  preserves (fun s0 => now s0 = now s) m -> now (macrotask l m s) = now s.
Proof.
  intros Hm. apply (@macrotask_preserves (fun s0 => now s0 = now s)); auto.
  - intros r. apply now_run_reaction.
  - intros e. apply now_handleUncaughtException.
Qed.

Lemma now_fire l u s : now (fire l u s) = Z.max (now s) (deadline u).
Proof.
  unfold fire. set (s1 := set_timers _ _).
  change (Z.max (now s) (deadline u)) with (now s1).
  apply now_macrotask. apply now_run_callback.
Qed.

Lemma now_run_timers l fuel target s :
  now s <= target -> now s <= now (run_timers l fuel target s) <= target.
Proof.
  revert s. induction fuel as [|fuel IH]; intros s H; cbn [run_timers]; [lia|].
  destruct (exitCode s); [lia|].
  destruct (next_due target (timers s)) as [u|] eqn:Nd; [|lia].
  apply next_due_Some in Nd as (_ & Hd & _).
  pose proof (now_fire l u s) as Hf.
  specialize (IH (fire l u s)). lia.
Qed.

(** Time never runs backwards. *)
Lemma now_handle l s ev : now s <= now (handle l s ev).
Proof.
  unfold handle. destruct (exitCode s); [lia|].
  destruct ev; try (rewrite now_macrotask; [lia|apply now_listener]).
  unfold elapse. cbv zeta.
  assert (H0 : now s <= now s + Z.max 0 ms) by lia.
  pose proof (now_run_timers l (timers_weight (timers s)) (now s + Z.max 0 ms) s H0) as H.
  destruct (exitCode (run_timers l _ _ s)); cbn; lia.
Qed.

Lemma now_run l evs s : now s <= now (run l s evs).
Proof.
  revert s. induction evs as [|ev evs IH]; intros s; [cbn; lia|].
  change (run l s (ev :: evs)) with (run l (handle l s ev) evs).
  pose proof (now_handle l s ev). specialize (IH (handle l s ev)). lia.
Qed.

(** *** The heartbeat *)





































Lemma later_frame (s s' : state) :
  now s' = now s -> (forall t, In t (timers s') -> In t (timers s)) ->
  due_later s -> due_later s'.
Proof. unfold due_later. intros -> Hsub H t Ht. apply H; auto. Qed.

Lemma later_rest (s s' : state) :
  rest_view s' = rest_view s -> due_later s -> due_later s'.
Proof.
  unfold rest_view. intros [= ? ? ? ? ? ? Ht ? ? ? ? ?].
  apply later_frame; try assumption. rewrite Ht. auto.
Qed.

Lemma later_setTimeout cb d : preserves due_later (setTimeout cb d).
Proof.
  intros s H t Ht. cbn in *. apply in_app_or in Ht as [Ht|[<-|[]]].
  - apply H; assumption.
  - cbn. lia.
Qed.

Ltac later_prim :=
  idtac;
  lazymatch goal with
  | |- preserves _ (setTimeout _ _) => apply later_setTimeout
  | |- preserves _ (settle _ _) =>
      intros ? ?; eapply later_rest; [apply rest_view_settle|assumption]
  | |- preserves _ (then_catch _ _ _) =>
      intros ? ?; eapply later_rest; [apply rest_view_then_catch|assumption]
  | |- preserves _ (start_async _) =>
      intros ? ?; eapply later_frame; [| |eassumption]; [reflexivity|cbn; auto]
  | |- preserves _ (emit _) =>
      intros ? ?; eapply later_frame; [| |eassumption]; [reflexivity|cbn; auto]
  | |- preserves _ (modify _) =>
      intros ? ?; eapply later_frame; [| |eassumption]; [reflexivity|cbn; auto]
  end.

Lemma later_run_callback cb : preserves due_later (run_callback cb).
Proof. pres later_prim. Qed.

Lemma later_handleUncaughtException e : preserves due_later (handleUncaughtException e).
Proof. pres later_prim. Qed.

Lemma later_run_reaction l r : preserves due_later (run_reaction l r).
Proof. unfold run_reaction. pres later_prim. Qed.




Lemma later_fire l u s :
  due_later s -> (forall v, In v (timers s) -> deadline u <= deadline v) ->
  due_later (fire l u s).
Proof.
  intros H Hmin. unfold fire.
  apply macrotask_preserves;
    [intro; apply later_run_reaction
    |intros q s0; apply later_frame; [reflexivity|auto]
    |intro; apply later_handleUncaughtException
    |apply later_run_callback
    |].
  intros v Hv. cbn in Hv. apply filter_In in Hv as [Hv _].
  pose proof (H v Hv). pose proof (Hmin v Hv). cbn. lia.
Qed.





(** *** The configuration is not touched after startup *)











(** *** A failure of the pipe connection *)

Ltac find_in :=
  first [ solve [repeat first [left; reflexivity|right]]
        | apply in_or_app;
          first [ right; solve [repeat first [left; reflexivity|right]]
                | left; find_in ] ].


(** *** A report in flight whose settlement arms the exit *)

Lemma soon_frame (s s' : state) :
  now s <= now s' -> (forall t, In t (timers s') -> In t (timers s)) ->
  exit_soon s -> exit_soon s'.
Proof.
  unfold exit_soon. intros Hn Hsub H t Ht He. specialize (H t (Hsub t Ht) He). lia.
Qed.

Lemma soon_rest (s s' : state) :
  rest_view s' = rest_view s -> exit_soon s -> exit_soon s'.
Proof.
  unfold rest_view. intros [= En ? ? ? ? ? Ht ? ? ? ? ?].
  apply soon_frame; [lia|]. rewrite Ht. auto.
Qed.

Lemma soon_setTimeout cb d :
  (forall c, cb = exitCallback c -> d = 1000) -> preserves exit_soon (setTimeout cb d).
Proof.
  intros Hd s H t Ht He. cbn in *. apply in_app_or in Ht as [Ht|[<-|[]]].
  - apply H; assumption.
  - unfold is_exit in He. cbn in *. destruct cb; try discriminate.
    rewrite (Hd _ eq_refl). lia.
Qed.

Ltac soon_prim :=
  idtac;
  lazymatch goal with
  | |- preserves _ (setTimeout _ _) =>
      apply soon_setTimeout; intros ? E; first [discriminate E|reflexivity]
  | |- preserves _ (clearTimeout _) =>
      intros ? ?; eapply soon_frame; [|cbn|eassumption];
      [cbn; lia|intros ? Hf; apply filter_In in Hf; tauto]
  | |- preserves _ (settle _ _) =>
      intros ? ?; eapply soon_rest; [apply rest_view_settle|assumption]
  | |- preserves _ (then_catch _ _ _) =>
      intros ? ?; eapply soon_rest; [apply rest_view_then_catch|assumption]
  | |- preserves _ (start_async _) =>
      intros ? ?; eapply soon_frame; [|cbn|eassumption]; [cbn; lia|cbn; auto]
  | |- preserves _ (emit _) =>
      intros ? ?; eapply soon_frame; [|cbn|eassumption]; [cbn; lia|cbn; auto]
  | |- preserves _ (modify _) =>
      intros ? ?; eapply soon_frame; [|cbn|eassumption]; [cbn; lia|cbn; auto]
  end.

Lemma soon_listener l ev : preserves exit_soon (listener l ev).
Proof. pres soon_prim. Qed.

Lemma soon_run_callback cb : preserves exit_soon (run_callback cb).
Proof. pres soon_prim. Qed.

Lemma soon_handleUncaughtException e : preserves exit_soon (handleUncaughtException e).
Proof. pres soon_prim. Qed.

Lemma soon_run_reaction l r : preserves exit_soon (run_reaction l r).
Proof. unfold run_reaction. pres soon_prim. Qed.

Lemma soon_microtasks q s : exit_soon s -> exit_soon (set_microtasks q s).
Proof. intros H. eapply soon_frame; [| |exact H]; cbn; [lia|auto]. Qed.

Lemma soon_fire l u s : exit_soon s -> exit_soon (fire l u s).
Proof.
  intros H. unfold fire.
  apply macrotask_preserves;
    auto using soon_run_reaction, soon_microtasks, soon_handleUncaughtException,
      soon_run_callback.
  eapply soon_frame; [| |exact H]; cbn; [lia|].
  unfold remove_timer. intros t Ht. apply filter_In in Ht. tauto.
Qed.

Lemma soon_handle l s ev : exit_soon s -> exit_soon (handle l s ev).
Proof.
  intros H. unfold handle. destruct (exitCode s); [exact H|].
  destruct ev;
    try (apply macrotask_preserves;
         auto using soon_run_reaction, soon_microtasks,
           soon_handleUncaughtException, soon_listener).
  unfold elapse. cbv zeta.
  assert (H0 : now s <= now s + Z.max 0 ms) by lia.
  pose proof (now_run_timers l (timers_weight (timers s)) _ s H0) as Hn.
  set (x := run_timers l _ _ s) in *.
  assert (Hx : exit_soon x)
    by (apply run_timers_preserves; [intros; apply soon_fire; assumption|exact H]).
  destruct (exitCode x); [exact Hx|].
  eapply soon_frame; [| |exact Hx]; cbn; [lia|auto].
Qed.

Lemma soon_run l evs s : exit_soon s -> exit_soon (run l s evs).
Proof.
  revert s. induction evs as [|ev evs IH]; intros s H; [exact H|].
  apply IH, soon_handle, H.
Qed.

Lemma soon_main_script l : preserves exit_soon (main_script l).
Proof. unfold main_script. pres soon_prim. Qed.

Lemma soon_startup l : exit_soon (startup l).
Proof.
  unfold startup.
  apply macrotask_preserves;
    auto using soon_run_reaction, soon_microtasks, soon_handleUncaughtException,
      soon_main_script.
  intros t [].
Qed.

Lemma flight_frame id k (s s' : state) :
  exitCode s' = exitCode s ->
  (In (id, Request k) (pending s) -> In (id, Request k) (pending s')) ->
  in_flight id k s -> in_flight id k s'.
Proof. unfold in_flight. intros -> Hp [? ?]. auto. Qed.

Lemma armed_frame (s s' : state) :
  exitCode s' = exitCode s ->
  (forall t, In t (timers s) -> In t (timers s')) ->
  armed s -> armed s'.
Proof.
  unfold armed. intros -> Ht [? (t & ? & ?)]. split; [assumption|]. exists t. auto.
Qed.

Lemma closing_frame id k (s s' : state) :
  exitCode s' = exitCode s ->
  (In (id, Request k) (pending s) -> In (id, Request k) (pending s')) ->
  (forall t, In t (timers s) -> In t (timers s')) ->
  closing id k s -> closing id k s'.
Proof.
  intros Hx Hp Ht [H|H]; [left; eapply flight_frame|right; eapply armed_frame];
    eassumption.
Qed.

Lemma closing_rest id k (s s' : state) :
  rest_view s' = rest_view s -> closing id k s -> closing id k s'.
Proof.
  unfold rest_view. intros [= ? ? ? ? ? ? Ht ? Hp ? ? Hx].
  apply closing_frame; [exact Hx|rewrite Hp; auto|rewrite Ht; auto].
Qed.

Lemma flight_rest id k (s s' : state) :
  rest_view s' = rest_view s -> in_flight id k s -> in_flight id k s'.
Proof.
  unfold rest_view. intros [= ? ? ? ? ? ? Ht ? Hp ? ? Hx].
  apply flight_frame; [exact Hx|rewrite Hp; auto].
Qed.

Ltac flight_prim :=
  idtac;
  lazymatch goal with
  | |- preserves _ (settle _ _) =>
      intros ? ?; eapply flight_rest; [apply rest_view_settle|assumption]
  | |- preserves _ (then_catch _ _ _) =>
      intros ? ?; eapply flight_rest; [apply rest_view_then_catch|assumption]
  | |- preserves _ (setTimeout _ _) =>
      intros ? ?; eapply flight_frame; [| |eassumption]; [reflexivity|cbn; auto]
  | |- preserves _ (clearTimeout _) =>
      intros ? ?; eapply flight_frame; [| |eassumption]; [reflexivity|cbn; auto]
  | |- preserves _ (start_async _) =>
      intros ? ?; eapply flight_frame; [| |eassumption];
      [reflexivity|cbn; intros; apply in_or_app; auto]
  | |- preserves _ (emit _) =>
      intros ? ?; eapply flight_frame; [| |eassumption]; [reflexivity|cbn; auto]
  | |- preserves _ (modify _) =>
      intros ? ?; eapply flight_frame; [| |eassumption]; [reflexivity|cbn; auto]
  end.

Ltac closing_prim :=
  idtac;
  lazymatch goal with
  | |- preserves _ (settle _ _) =>
      intros ? ?; eapply closing_rest; [apply rest_view_settle|assumption]
  | |- preserves _ (then_catch _ _ _) =>
      intros ? ?; eapply closing_rest; [apply rest_view_then_catch|assumption]
  | |- preserves _ (setTimeout _ _) =>
      intros ? ?; eapply closing_frame; [| | |eassumption];
      [reflexivity|cbn; auto|cbn; intros; apply in_or_app; auto]
  | |- preserves _ (start_async _) =>
      intros ? ?; eapply closing_frame; [| | |eassumption];
      [reflexivity|cbn; intros; apply in_or_app; auto|cbn; auto]
  | |- preserves _ (emit _) =>
      intros ? ?; eapply closing_frame; [| | |eassumption]; [reflexivity|cbn; auto|cbn; auto]
  | |- preserves _ (modify _) =>
      intros ? ?; eapply closing_frame; [| | |eassumption]; [reflexivity|cbn; auto|cbn; auto]
  end.

Lemma flight_listener l id k ev :
  (forall i e, ev <> Completes i e) -> preserves (in_flight id k) (listener l ev).
Proof.
  intros Hev. destruct ev; try (exfalso; eapply Hev; reflexivity); pres flight_prim.
Qed.

Lemma flight_handleUncaughtException id k e :
  preserves (in_flight id k) (handleUncaughtException e).
Proof. pres flight_prim. Qed.

Lemma flight_run_reaction l id k r : preserves (in_flight id k) (run_reaction l r).
Proof. unfold run_reaction. pres flight_prim. Qed.

Lemma flight_crash id k : preserves (in_flight id k) crash.
Proof. pres flight_prim. Qed.

Lemma closing_handleUncaughtException id k e :
  preserves (closing id k) (handleUncaughtException e).
Proof. pres closing_prim. Qed.

Lemma closing_run_reaction l id k r : preserves (closing id k) (run_reaction l r).
Proof. unfold run_reaction. pres closing_prim. Qed.

Lemma find_op_In id op (ops : list (nat * async_op)) :
  NoDup (map fst ops) -> In (id, op) ops -> find_op id ops = Some op.
Proof.
  induction ops as [|[i o] ops IH]; cbn; [contradiction|].
  intros H Hin. inversion H as [|? ? Hi Hops]; subst.
  destruct Hin as [E|Hin].
  - injection E as -> ->. rewrite Nat.eqb_refl. reflexivity.
  - destruct (Nat.eqb_spec i id) as [->|N]; [|auto].
    exfalso. apply Hi. apply (in_map fst) in Hin. exact Hin.
Qed.

Lemma closing_settled id k k' err :
  preserves (closing id k) (request_settled k' err).
Proof. pres closing_prim. Qed.

Lemma closing_cleared id k cb : preserves (closing id k) (cleared cb).
Proof. pres closing_prim. Qed.

Lemma closing_jadeFile_read id k events err :
  preserves (closing id k) (jadeFile_read events err).
Proof. pres closing_prim. Qed.

(** When the report settles the exit is armed; the settlement of any
    other operation leaves the report in flight. *)
Lemma closing_completes id k i err s :
  k <> Unhandled -> sched_inv s -> in_flight id k s ->
  closing id k (exec (on_completes i err) s).
Proof.
  intros Hk Hs [Hx Hin]. pose proof Hs as (_ & _ & Hnd & _).
  unfold on_completes, exec, bind, get. cbn [fst snd].
  destruct (Nat.eqb_spec i id) as [->|N].
  - rewrite (find_op_In _ _ _ Hnd Hin). right.
    destruct k; [congruence| |destruct err]; cbn; (split; [exact Hx|]);
      eexists; (split; [apply in_or_app; right; left; reflexivity|reflexivity]).
  - destruct (find_op i (pending s)) as [op|]; [|left; split; assumption].
    set (s1 := set_pending (remove_op i (pending s)) s).
    assert (H1 : closing id k s1).
    { left. split; [exact Hx|]. cbn. apply filter_In. split; [exact Hin|].
      cbn. destruct (Nat.eqb_spec id i); [congruence|reflexivity]. }
    change (closing id k
      (exec (match op with
             | StorageClearing cb =>
                 id' <- start_async (CacheClearing cb) ;; emit (ClearCache id')
             | CacheClearing cb => logger INFO "Cleared app data" ;; cleared cb
             | Request k0 => request_settled k0 err
             | FileReading events => jadeFile_read events err
             end) s1)).
    revert H1. generalize s1.
    change (preserves (closing id k)
      (match op with
       | StorageClearing cb =>
           id' <- start_async (CacheClearing cb) ;; emit (ClearCache id')
       | CacheClearing cb => logger INFO "Cleared app data" ;; cleared cb
       | Request k0 => request_settled k0 err
       | FileReading events => jadeFile_read events err
       end)).
    destruct op;
      [pres closing_prim| |apply closing_settled|apply closing_jadeFile_read].
    unfold logger. apply preserves_bind; [closing_prim|intro; apply closing_cleared].
Qed.

Lemma flight_fire l id k u s :
  join_inv s -> sched_inv s -> In u (timers s) -> in_flight id k s ->
  exitCode (fire l u s) = Some 1 \/ in_flight id k (fire l u s).
Proof.
  intros [Hq _] Hs Hu [Hx Hin]. rewrite fire_eq by exact Hq. cbv zeta.
  set (s1 := set_timers _ _).
  pose proof Hs as (_ & _ & _ & _ & _ & _ & T5 & _).
  assert (H1 : in_flight id k s1) by (split; assumption).
  destruct (timer_cb u) as [|c|] eqn:Eu.
  - right. pose proof (flight_crash id k s1 H1) as Hc. unfold exec in Hc.
    cbn [run_callback]. destruct (crash s1) as [[[]|e] s']; cbn in Hc.
    + exact Hc.
    + apply flight_handleUncaughtException, Hc.
  - left. cbn. rewrite (T5 u c Hu Eu). reflexivity.
  - right. cbn. exact H1.
Qed.

Lemma flight_run_timers l id k fuel target s :
  join_inv s -> sched_inv s ->
  exitCode s = Some 1 \/ in_flight id k s ->
  exitCode (run_timers l fuel target s) = Some 1
  \/ in_flight id k (run_timers l fuel target s).
Proof.
  revert s. induction fuel as [|fuel IH]; intros s Hj Hs H; cbn [run_timers].
  - exact H.
  - destruct H as [H|H]; [rewrite H; left; exact H|].
    pose proof H as [Ex _]. rewrite Ex.
    destruct (next_due target (timers s)) as [u|] eqn:Nd; [|right; exact H].
    apply next_due_Some in Nd as (Hu & _).
    apply IH; [apply join_inv_fire, Hj|apply sched_inv_fire, Hs|].
    apply flight_fire; assumption.
Qed.

(** Once the report is in flight, the process has exited with status 1,
    or the report is still in flight, or a timer that exits is pending. *)
Lemma awaiting_handle l id k s ev :
  k <> Unhandled -> Inv s -> awaiting id k s -> awaiting id k (handle l s ev).
Proof.
  intros Hk Hi [H|[H|H]].
  - left. unfold handle. rewrite H. exact H.
  - pose proof Hi as (Hj & Hs & _ & _). pose proof H as [Hx _].
    unfold handle. rewrite Hx.
    destruct ev.
    all: try (right; left;
         apply (@macrotask_preserves (in_flight id k));
         [intro; apply flight_run_reaction
         |intros ? ? ?; eapply flight_frame; [| |eassumption]; [reflexivity|cbn; auto]
         |intro; apply flight_handleUncaughtException
         |apply flight_listener; intros ? ?; discriminate
         |exact H]).
    + unfold elapse. cbv zeta. set (x := run_timers l _ _ s).
      assert (Hr : exitCode x = Some 1 \/ in_flight id k x)
        by (apply flight_run_timers; auto).
      destruct (exitCode x) eqn:Ex'.
      * destruct Hr as [Hr|[Hr _]]; [left; congruence|congruence].
      * destruct Hr as [Hr|Hr]; [congruence|]. right. left.
        eapply flight_frame; [| |exact Hr]; [reflexivity|cbn; auto].
    + right.
      apply (@macrotask_after (closing id k));
        [intro; apply closing_run_reaction
        |intros ? ? ?; eapply closing_frame; [| | |eassumption];
           [reflexivity|cbn; auto|cbn; auto]
        |intro; apply closing_handleUncaughtException
        |].
      apply closing_completes; assumption.
  - destruct H as [Hx (t & Ht & He)].
    unfold is_exit in He. destruct (timer_cb t) as [|c|] eqn:Ec; try discriminate.
    destruct (doomed_handle l s ev t c Hi Ec (or_intror (conj Hx Ht))) as [D|[D1 D2]].
    + left. exact D.
    + right. right. split; [exact D1|]. exists t. split; [exact D2|].
      unfold is_exit. rewrite Ec. reflexivity.
Qed.

Lemma awaiting_run l id k evs s :
  k <> Unhandled -> Inv s -> awaiting id k s -> awaiting id k (run l s evs).
Proof.
  intros Hk. revert s. induction evs as [|ev evs IH]; intros s Hi H; [exact H|].
  change (run l s (ev :: evs)) with (run l (handle l s ev) evs).
  apply IH; [apply Inv_handle, Hi|apply awaiting_handle; assumption].
Qed.

(** Once the report has settled, or no report was sent, 1000 ms later the
    process has exited with status 1. *)
Lemma armed_exits l s evs :
  Inv s -> exit_soon s -> armed s ->
  now s + 1000 <= now (run l s evs) -> exitCode (run l s evs) = Some 1.
Proof.
  intros Hi Hsoon [Hx (t & Ht & He)] Hn.
  pose proof (Hsoon t Ht He) as Hd.
  unfold is_exit in He. destruct (timer_cb t) as [|c|] eqn:Ec; try discriminate.
  apply (exit_timer_fires l s evs t c); auto. lia.
Qed.

(** The settlement of the report arms the exit. *)
Lemma completes_arms l id k err s :
  k <> Unhandled -> join_inv s -> sched_inv s -> in_flight id k s ->
  armed (handle l s (Completes id err)).
Proof.
  intros Hk [Hq _] Hs [Hx Hin]. pose proof Hs as (_ & _ & Hnd & _).
  unfold handle. rewrite Hx. unfold macrotask, listener, on_completes, bind, get.
  cbn [fst snd]. rewrite (find_op_In _ _ _ Hnd Hin).
  destruct k; [congruence| |destruct err]; cbn; unfold drain_microtasks; cbn;
    rewrite Hq; cbn; (split; [exact Hx|]);
    eexists; (split; [apply in_or_app; right; left; reflexivity|reflexivity]).
Qed.

Lemma run_exited l evs s c : exitCode s = Some c -> run l s evs = s.
Proof.
  induction evs as [|ev evs IH]; intros H; [reflexivity|].
  change (run l s (ev :: evs)) with (run l (handle l s ev) evs).
  unfold handle at 1. rewrite H. apply IH, H.
Qed.

(** With the report in flight: once it has settled, the process exits
    with status 1 within 1000 ms. *)
Lemma report_then_exit l id k s evs1 err evs2 :
  k <> Unhandled -> Inv s -> exit_soon s -> in_flight id k s ->
  let s1 := run l s evs1 in
  let s2 := run l (handle l s1 (Completes id err)) evs2 in
  now s1 + 1000 <= now s2 -> exitCode s2 = Some 1.
Proof.
  intros Hk Hi Hsoon Hf s1 s2 Hn. subst s2.
  assert (Hi1 : Inv s1) by (apply Inv_run, Hi).
  assert (Hs1 : exit_soon s1) by (apply soon_run, Hsoon).
  assert (Ha1 : awaiting id k s1) by (apply awaiting_run; auto; right; left; exact Hf).
  destruct Ha1 as [Hx|[Hfl|Ha]].
  - unfold handle at 1. rewrite Hx.
    rewrite (run_exited l evs2 s1 1 Hx). exact Hx.
  - set (s1' := handle l s1 (Completes id err)) in *.
    assert (Hn1 : now s1' = now s1).
    { unfold s1', handle. destruct Hfl as [Hx _]. rewrite Hx.
      apply now_macrotask, now_listener. }
    apply armed_exits; [apply Inv_handle, Hi1|apply soon_handle, Hs1| |lia].
    pose proof Hi1 as (Hj & Hs & _ & _).
    apply (completes_arms l id k); assumption.
  - apply (armed_exits l s1 (Completes id err :: evs2)); assumption.
Qed.




(** ** Launches and runs used as examples *)

(** *** The watchdog over a whole run *)






(** *** The claims on concrete launches *)

Lemma find_effect (e : Z * effect) (tr : list (Z * effect)) (n : nat) :
  nth_error tr n = Some e -> In e tr.
Proof. apply nth_error_In. Qed.

Lemma initApp_once_after_both_ready_witness :
  windows_created (run win_launch (startup win_launch) [AppReady]) = 0%nat /\
  windows_created (run win_launch (startup win_launch) [PipeConnected]) = 0%nat /\
  windows_created (run win_launch (startup win_launch) [AppReady; PipeConnected]) = 1%nat /\
  windows_created (run win_launch (startup win_launch) [PipeConnected; AppReady]) = 1%nat.
Proof.
  rewrite !initApp_once_after_both_ready. vm_compute. repeat split; reflexivity.
Defined.



Lemma exits_pass_through_delay_witness :
  exists t0 id,
    In (t0, SetTimeout id (exitCallback 1) 1000)
       (trace (run mac_launch (startup mac_launch) silent_run)) /\
    t0 + 1000 <= 91000.
Proof.
  destruct (exits_pass_through_delay mac_launch silent_run) as (H & _).
  apply H. apply (find_effect _ _ 27). vm_compute. reflexivity.
Defined.


(** When the last window is closed the app quits at once, with no delay:
    this path is not an error path and is no [process.exit]. *)
Lemma window_all_closed_quits_at_once :
  let s := run mac_launch (startup mac_launch) [AppReady; Elapse 10; WindowAllClosed] in
  In (10, AppQuit) (trace s) /\ timers s = timers (startup mac_launch) /\
  exitCode s = None.
Proof.
  cbv zeta. split; [|split; vm_compute; reflexivity].
  apply (find_effect _ _ 22). vm_compute. reflexivity.
Qed.


(** *** Effects guarded by the launch *)

Ltac gpres_step prim :=
  lazymatch goal with
  | |- preserves _ (bind _ _) => apply preserves_bind; [|intro]
  | |- preserves _ (ret _) => apply preserves_ret
  | |- preserves _ (throw _) => apply preserves_throw
  | |- preserves _ get => apply preserves_get
  | |- preserves _ (try_catch _ _) => apply preserves_try_catch; [|intro]
  | |- preserves _ (when ?b _) =>
      let E := fresh "E" in destruct b eqn:E; cbv beta iota delta [when]
  | |- preserves _ (if ?b then _ else _) => let E := fresh "E" in destruct b eqn:E
  | |- preserves _ (match ?x with _ => _ end) => destruct x
  | |- preserves _ _ => first [prim | progress unfold_script]
  end.

Ltac gpres prim := repeat (gpres_step prim).

Lemma guarded_frame l (s s' : state) :
  trace s' = trace s -> guarded_inv l s -> guarded_inv l s'.
Proof. unfold guarded_inv. intros ->. auto. Qed.

Lemma guarded_rest l (s s' : state) :
  rest_view s' = rest_view s -> guarded_inv l s -> guarded_inv l s'.
Proof.
  unfold rest_view. intros [= ? ? ? ? ? ? ? ? ? ? ? ?]. apply guarded_frame. assumption.
Qed.

Lemma guarded_emit l e :
  (forall tm, guarded l (tm, e)) -> preserves (guarded_inv l) (emit e).
Proof.
  intros He s H. unfold guarded_inv in *. cbn. apply Forall_app. split; [exact H|].
  repeat constructor. apply He.
Qed.

Ltac guard_holds :=
  cbn [guarded snd];
  first [ exact I | reflexivity | assumption
        | match goal with
          | E : _ && _ = true |- _ /\ _ => apply andb_true_iff in E; exact E
          | E : negb _ || negb _ = false |- _ /\ _ =>
              apply orb_false_iff in E; destruct E as [E1 E2];
              apply negb_false_iff in E1, E2; split; assumption
          | E : _ || _ = true |- _ \/ _ => apply orb_true_iff in E; exact E
          end ].

Ltac guarded_prim :=
  idtac;
  lazymatch goal with
  | |- preserves _ (setTimeout _ _) =>
      intros ? H0; unfold guarded_inv in *; cbn; apply Forall_app; split;
      [exact H0|repeat constructor]
  | |- preserves _ (clearTimeout _) =>
      intros ? H0; unfold guarded_inv in *; cbn; apply Forall_app; split;
      [exact H0|repeat constructor]
  | |- preserves _ (settle _ _) =>
      intros ? ?; eapply guarded_rest; [apply rest_view_settle|assumption]
  | |- preserves _ (then_catch _ _ _) =>
      intros ? ?; eapply guarded_rest; [apply rest_view_then_catch|assumption]
  | |- preserves _ (start_async _) =>
      intros ? ?; eapply guarded_frame; [|eassumption]; reflexivity
  | |- preserves _ (emit _) => apply guarded_emit; intros ?; guard_holds
  | |- preserves _ (modify _) =>
      intros ? ?; eapply guarded_frame; [|eassumption]; reflexivity
  end.

Lemma guarded_listener l ev : preserves (guarded_inv l) (listener l ev).
Proof. gpres guarded_prim. Qed.

Lemma guarded_run_callback l cb : preserves (guarded_inv l) (run_callback cb).
Proof. gpres guarded_prim. Qed.

Lemma guarded_handleUncaughtException l e :
  preserves (guarded_inv l) (handleUncaughtException e).
Proof. gpres guarded_prim. Qed.

Lemma guarded_run_reaction l r : preserves (guarded_inv l) (run_reaction l r).
Proof. unfold run_reaction. gpres guarded_prim. Qed.

Lemma guarded_main_script l : preserves (guarded_inv l) (main_script l).
Proof. unfold main_script. gpres guarded_prim. Qed.

Lemma guarded_inv_run l evs : guarded_inv l (run l (startup l) evs).
Proof.
  apply run_preserves.
  - apply handle_preserves.
    + apply guarded_listener.
    + apply guarded_run_callback.
    + apply guarded_handleUncaughtException.
    + apply guarded_run_reaction.
    + intros q s0. apply guarded_frame. reflexivity.
    + intros id s0. apply guarded_frame. reflexivity.
    + intros t s0. apply guarded_frame. reflexivity.
  - unfold startup. apply macrotask_preserves.
    + apply guarded_run_reaction.
    + intros q s0. apply guarded_frame. reflexivity.
    + apply guarded_handleUncaughtException.
    + apply guarded_main_script.
    + constructor.
Qed.

Lemma guarded_at l evs e :
  In e (trace (run l (startup l) evs)) -> guarded l e.
Proof.
  intros H. pose proof (guarded_inv_run l evs) as G. unfold guarded_inv in G.
  rewrite Forall_forall in G. apply G, H.
Qed.



(** X7.  A certificate error is always logged, last of all with the error
    and the address, and the certificate is accepted exactly when the app
    runs in developer mode: in no run is a certificate accepted outside
    developer mode. *)
Theorem certificate_accepted_only_in_dev (l : launch) (evs : list event) :
  let s := run l (startup l) evs in
  (forall tm, In (tm, CertificateAccepted) (trace s) -> isDeveloperMode l = true) /\
  (exitCode s = None ->
   forall error url,
     let s' := handle l s (CertificateError error url) in
     (exists logs,
        List.length logs = 6%nat /\
        Forall (fun e => match snd e with Log _ _ _ => True | _ => False end) logs /\
        trace s'
        = trace s ++ logs
          ++ [(now s, Log ERROR ("Certificate Error, details: { error: { " ++ error
                                 ++ " }, url: { " ++ url ++ " } }") None)]
          ++ (if isDeveloperMode l then [(now s, CertificateAccepted)] else [])) /\
     exitCode s' = None /\ timers s' = timers s /\ pending s' = pending s).
Proof.
  intros s. split.
  - intros tm H. apply (guarded_at l evs (tm, CertificateAccepted) H).
  - intros Hx error url. cbv zeta. destruct (join_inv_run l evs) as [Hq _].
    fold s in Hq. unfold handle. rewrite Hx.
    unfold macrotask, listener, on_certificate_error, logger, emit, modify, when,
      bind, ret.
    destruct (isDeveloperMode l); cbn; unfold drain_microtasks; cbn; rewrite Hq; cbn;
      (split; [|auto]);
      (exists [(now s, Log INFO "event:" None);
               (now s, Log ERROR "[object Object]" None);
               (now s, Log INFO "certificate:" None);
               (now s, Log ERROR "[object Object]" None);
               (now s, Log INFO "webContents:" None);
               (now s, Log ERROR "[object Object]" None)];
       split; [reflexivity|]; split; [repeat constructor|]);
      rewrite <- ?app_assoc; cbn; reflexivity.
Qed.

Lemma certificate_accepted_only_in_dev_witness :
  let s := run win_launch (startup win_launch) [AppReady] in
  List.length (trace (handle win_launch s (CertificateError "ERR_CERT" "https://a/")))
  = (List.length (trace s) + 7)%nat.
Proof.
  intros s.
  assert (Hx : exitCode (run win_launch (startup win_launch) [AppReady]) = None)
    by (vm_compute; reflexivity).
  destruct (certificate_accepted_only_in_dev win_launch [AppReady]) as (_ & H).
  destruct (H Hx "ERR_CERT"%string "https://a/"%string) as ((logs & L & _ & E) & _).
  unfold s. rewrite E. rewrite !length_app, L. reflexivity.
Defined.

(** X8.  Every window the app creates is the one [initApp] describes:
    1000 by 670, not shown, resizable only in developer mode.  For a work
    area with whole coordinates it never starts above the work area; when
    the work area is at least as wide as the window the window lies
    within it from left to right, centred up to one pixel; when it is at
    least as high the window lies within it from top to bottom, and when
    it is more than 100 higher the window sits above the centre, the
    margin below exceeding the margin above by 99 or 100. *)
Theorem window_lies_in_work_area (l : launch) (evs : list event) (tm : Z) (w : window) :
  In (tm, NewBrowserWindow w) (trace (run l (startup l) evs)) ->
  let a := workArea l in
  win_width w = 1000 /\ win_height w = 670 /\ win_show w = false /\
  win_resizable w = isDeveloperMode l /\
  area_y a <= win_y w /\
  (win_width w <= area_width a ->
   area_x a <= win_x w /\ win_x w + win_width w <= area_x a + area_width a /\
   0 <= (win_x w - area_x a) - (area_x a + area_width a - (win_x w + win_width w)) <= 1) /\
  (win_height w <= area_height a ->
   win_y w + win_height w <= area_y a + area_height a) /\
  (win_height w + 100 <= area_height a ->
   99 <= (area_y a + area_height a - (win_y w + win_height w)) - (win_y w - area_y a)
      <= 100).
Proof.
  intros H a. apply guarded_at in H. cbn [guarded snd] in H. subst w.
  unfold browserWindowOptions, xPosition, yPosition, WINDOW_WIDTH, WINDOW_HEIGHT.
  cbn [win_width win_height win_show win_resizable win_x win_y]. fold a.
  repeat split; try reflexivity; intros; Z.div_mod_to_equations; lia.
Qed.

Lemma window_lies_in_work_area_witness :
  exists w,
    win_x w = 460 /\ win_y w = 155 /\
    win_x w + win_width w <= 1920 /\ win_y w + win_height w <= 1080.
Proof.
  exists (browserWindowOptions mac_launch).
  assert (H : In (0, NewBrowserWindow (browserWindowOptions mac_launch))
                 (trace (run mac_launch (startup mac_launch) [AppReady])))
    by (apply (find_effect _ _ 6); vm_compute; reflexivity).
  destruct (window_lies_in_work_area mac_launch [AppReady] 0 _ H)
    as (_ & _ & _ & _ & _ & Hx & Hy & _).
  destruct Hx as (_ & Hx & _); [vm_compute; discriminate|].
  specialize (Hy ltac:(vm_compute; discriminate)).
  split; [reflexivity|]. split; [reflexivity|]. split; assumption.
Defined.

(** *** The stage and the domain are settled once *)

Lemma settings_frame l (s s' : state) :
  instanceConfig s' = instanceConfig s -> stage s' = stage s -> domain s' = domain s ->
  settings_inv l s -> settings_inv l s'.
Proof. unfold settings_inv. intros -> -> ->. auto. Qed.

Lemma settings_rest l (s s' : state) :
  rest_view s' = rest_view s -> settings_inv l s -> settings_inv l s'.
Proof.
  unfold rest_view. intros [= ? ? ? ? ? ? ? ? ? ? ? ?]. apply settings_frame; assumption.
Qed.

Ltac settings_prim :=
  idtac;
  lazymatch goal with
  | |- preserves _ (settle _ _) =>
      intros ? ?; eapply settings_rest; [apply rest_view_settle|assumption]
  | |- preserves _ (then_catch _ _ _) =>
      intros ? ?; eapply settings_rest; [apply rest_view_then_catch|assumption]
  | |- preserves _ (setTimeout _ _) =>
      intros ? ?; eapply settings_frame; [| | |eassumption]; reflexivity
  | |- preserves _ (clearTimeout _) =>
      intros ? ?; eapply settings_frame; [| | |eassumption]; reflexivity
  | |- preserves _ (start_async _) =>
      intros ? ?; eapply settings_frame; [| | |eassumption]; reflexivity
  | |- preserves _ (emit _) =>
      intros ? ?; eapply settings_frame; [| | |eassumption]; reflexivity
  | |- preserves _ (modify _) =>
      intros ? ?; eapply settings_frame; [| | |eassumption]; reflexivity
  end.

Lemma settings_listener l ev : preserves (settings_inv l) (listener l ev).
Proof. pres settings_prim. Qed.

Lemma settings_run_callback l cb : preserves (settings_inv l) (run_callback cb).
Proof. pres settings_prim. Qed.

Lemma settings_handleUncaughtException l e :
  preserves (settings_inv l) (handleUncaughtException e).
Proof. pres settings_prim. Qed.

Lemma settings_run_reaction l r : preserves (settings_inv l) (run_reaction l r).
Proof. unfold run_reaction. pres settings_prim. Qed.

Lemma settings_inv_startup l : settings_inv l (startup l).
Proof.
  unfold settings_inv, resolved_stage. eval_startup l; repeat split; reflexivity.
Qed.

Lemma settings_inv_run l evs : settings_inv l (run l (startup l) evs).
Proof.
  apply run_preserves.
  - apply handle_preserves.
    + apply settings_listener.
    + apply settings_run_callback.
    + apply settings_handleUncaughtException.
    + apply settings_run_reaction.
    + intros q s0. apply settings_frame; reflexivity.
    + intros id s0. apply settings_frame; reflexivity.
    + intros t s0. apply settings_frame; reflexivity.
  - apply settings_inv_startup.
Qed.

Lemma resolved_stage_valid l :
  In (to_str (resolved_stage l)) [ALPHA; INTEG; GAMMA; PROD].
Proof.
  unfold resolved_stage.
  destruct (hasOwnProperty _ _) eqn:E.
  - apply hasOwnProperty_stage in E. exact E.
  - cbn. auto.
Qed.



(** *** Reports *)

Lemma valid_stage_cases (v : value) :
  In (to_str v) [ALPHA; INTEG; GAMMA; PROD] ->
  v = str ALPHA \/ v = str INTEG \/ v = str GAMMA \/ v = str PROD.
Proof.
  destruct v as [| |x]; cbn; intros H.
  - repeat (destruct H as [H|H]; [discriminate H|]). contradiction.
  - repeat (destruct H as [H|H]; [discriminate H|]). contradiction.
  - destruct H as [<-|[<-|[<-|[<-|[]]]]]; auto.
Qed.

(** X10.  In every run [reportClientEvents] posts its events and does not
    throw: under the username given, to the metrics address of the stage,
    or, when no username was given, under NotFound to the address of
    alpha.  [reportError] posts to the service address of the stage when a
    username was given, and otherwise throws before doing anything. *)
Theorem reports_post_or_throw (l : launch) (evs : list event) :
  let s := run l (startup l) evs in
  (forall events,
     fst (reportClientEvents events s) = Ok tt /\
     trace (exec (reportClientEvents events) s)
     = trace s
       ++ [(now s,
            PostEvents (next_id s)
              (to_str (lookup CLIENTMETRICS_DOMAIN
                         (if truthy (arg_username l) then to_str (stage s) else ALPHA))
               ++ "events")
              (if truthy (arg_username l) then to_str (arg_username l) else "NotFound")
              events)] /\
     pending (exec (reportClientEvents events) s)
     = pending s ++ [(next_id s, Request Unhandled)]) /\
  (forall eventName errorDetails k,
     if truthy (arg_username l) then
       fst (reportError eventName errorDetails k s) = Ok tt /\
       trace (exec (reportError eventName errorDetails k) s)
       = trace s
         ++ [(now s,
              PostError (next_id s)
                (to_str (lookup SERVICE_DOMAINS (to_str (stage s))) ++ "events/"
                 ++ to_str (arg_username l))
                eventName
                (if truthy errorDetails then to_str errorDetails else EmptyString))] /\
       pending (exec (reportError eventName errorDetails k) s)
       = pending s ++ [(next_id s, Request k)]
     else
       exists message, reportError eventName errorDetails k s = (Throw (Error message), s)) /\
  (exists u, lookup CLIENTMETRICS_DOMAIN
               (if truthy (arg_username l) then to_str (stage s) else ALPHA) = str u) /\
  (exists u, lookup SERVICE_DOMAINS (to_str (stage s)) = str u).
Proof.
  intros s. destruct (settings_inv_run l evs) as (Hc & Hs & _). fold s in Hc, Hs.
  pose proof (valid_stage_cases _ (resolved_stage_valid l)) as Hv.
  rewrite Hs. split; [|split; [|split]].
  - intros events. unfold reportClientEvents, exec, bind, get. cbn [fst snd].
    rewrite Hc. cbn [cfg_username cfg_stage].
    destruct (truthy (arg_username l));
      [destruct Hv as [-> | [-> | [-> | ->]]]|]; cbn; repeat split.
  - intros eventName errorDetails k. unfold reportError, exec, bind, get. cbn [fst snd].
    rewrite Hc. cbn [cfg_username cfg_stage].
    destruct (truthy (arg_username l));
      [destruct Hv as [-> | [-> | [-> | ->]]]; cbn; repeat split|].
    rewrite orb_true_r. eexists. reflexivity.
  - destruct (truthy (arg_username l));
      [destruct Hv as [-> | [-> | [-> | ->]]]|]; cbn; eexists; reflexivity.
  - destruct Hv as [-> | [-> | [-> | ->]]]; cbn; eexists; reflexivity.
Qed.

Lemma reports_post_or_throw_witness :
  exists message,
    reportError JADE_ERROR undefined FinallyExit
      (run no_user_launch (startup no_user_launch) [AppReady])
    = (Throw (Error message), run no_user_launch (startup no_user_launch) [AppReady]).
Proof.
  destruct (reports_post_or_throw no_user_launch [AppReady]) as (_ & H & _).
  specialize (H JADE_ERROR undefined FinallyExit).
  assert (E : truthy (arg_username no_user_launch) = false) by reflexivity.
  rewrite E in H. exact H.
Defined.

(** *** What the 'uncaughtException' listener leaves behind *)

Lemma handler_outcome l s e :
  settings_inv l s ->
  let s' := exec (handleUncaughtException e) s in
  fst (handleUncaughtException e s) = Ok tt /\
  microtasks s' = microtasks s /\ exitCode s' = exitCode s /\ now s' = now s /\
  mainWindow s' = mainWindow s /\
  (exists more, trace s' = trace s ++ more /\
     Forall (fun x => match snd x with
                      | Log _ _ _ | PostEvents _ _ _ _ | PostError _ _ _ _
                      | SetTimeout _ _ _ => True
                      | _ => False
                      end) more /\
     In (now s, Log ERROR "Main: uncaughtException" (Some (exn_to_string e))) more) /\
  if truthy (arg_username l) then
    pending s' = pending s ++ [(next_id s, Request Unhandled);
                               (S (next_id s), Request CatchLogFinallyExit)] /\
    timers s' = timers s
  else
    pending s' = pending s ++ [(next_id s, Request Unhandled)] /\
    timers s' = timers s ++ [{| tid := S (next_id s); deadline := now s + 1000;
                                timer_cb := exitCallback 1 |}].
Proof.
  intros (Hc & _). pose proof (valid_stage_cases _ (resolved_stage_valid l)) as Hv.
  break_state s. cbn in Hc. subst cfg0. cbv zeta.
  unfold handleUncaughtException, try_catch, reportClientEvents, reportError,
    waitAndExit, waitAndRun, setTimeout, start_async, emit, modify, exec, bind, get, ret.
  destruct (truthy (arg_username l)) eqn:Eu;
    destruct Hv as [Hv | [Hv | [Hv | Hv]]]; rewrite Hv; cbn; repeat (rewrite Eu; cbn);
    rewrite <- ?app_assoc; cbn;
    repeat split; try reflexivity;
    eexists; (split; [reflexivity|]); split;
    try (repeat constructor; fail); left; reflexivity.
Qed.

(** An exception that escapes a listener: the 'uncaughtException'
    listener runs on the state the listener left, and nothing else. *)
Lemma thrown_step l s m e s1 :
  settings_inv l s1 -> microtasks s1 = [] -> m s = (Throw e, s1) ->
  macrotask l m s = exec (handleUncaughtException e) s1.
Proof.
  intros Hc Hq Hm. unfold macrotask. rewrite Hm.
  apply drain_nothing.
  destruct (handler_outcome l s1 e Hc) as (_ & Hq' & _). rewrite Hq'. exact Hq.
Qed.

(** After the 'uncaughtException' listener the process is on its way
    out: with no username the exit with status 1 is armed, 1000 ms ahead;
    with a username it follows the settlement of the report. *)
Lemma exits_after_exception l s ev e s1 :
  Inv s -> exit_soon s -> settings_inv l s1 -> exitCode s1 = None -> now s1 = now s ->
  handle l s ev = exec (handleUncaughtException e) s1 ->
  let s' := handle l s ev in
  exitCode s' = None /\
  (truthy (arg_username l) = false ->
   forall evs', now s + 1000 <= now (run l s' evs') ->
                exitCode (run l s' evs') = Some 1) /\
  (truthy (arg_username l) = true ->
   exists id,
     In (id, Request CatchLogFinallyExit) (pending s') /\
     forall evs1 err evs2,
       let s2 := run l s' evs1 in
       let s3 := run l (handle l s2 (Completes id err)) evs2 in
       now s2 + 1000 <= now s3 -> exitCode s3 = Some 1).
Proof.
  intros Hi Hsoon Hc Hx Hn E s'.
  assert (Hi' : Inv s') by (apply Inv_handle, Hi).
  assert (Hsoon' : exit_soon s') by (apply soon_handle, Hsoon).
  destruct (handler_outcome l s1 e Hc) as (_ & _ & Hx' & _ & _ & _ & Ho).
  cbv zeta in Hx', Ho. unfold s' in *. rewrite E in *. rewrite Hx in Hx'.
  split; [exact Hx'|]. split.
  - intros Eu evs' Hd. rewrite Eu in Ho. destruct Ho as [_ Ht].
    apply (exit_timer_fires l _ evs'
             {| tid := S (next_id s1); deadline := now s1 + 1000;
                timer_cb := exitCallback 1 |} 1 Hi' Hx'); [|reflexivity|cbn; lia].
    rewrite Ht. apply in_or_app. right. left. reflexivity.
  - intros Eu. rewrite Eu in Ho. destruct Ho as [Hp _].
    exists (S (next_id s1)). split.
    + rewrite Hp. apply in_or_app. right. right. left. reflexivity.
    + intros evs1 err evs2.
      apply (report_then_exit l (S (next_id s1)) CatchLogFinallyExit);
        [discriminate|exact Hi'|exact Hsoon'|].
      split; [exact Hx'|]. rewrite Hp. apply in_or_app. right. right. left. reflexivity.
Qed.

(** X11.  An exception that reaches the 'uncaughtException' listener while
    the process is alive is logged, and the process exits with status 1:
    when no username was given, 1000 ms later; otherwise within 1000 ms
    of the settlement of the report of the exception, whether the report
    succeeded or failed. *)
Theorem uncaught_exception_exits (l : launch) (evs : list event) (e : exn) :
  let s := run l (startup l) evs in
  exitCode s = None ->
  let s' := handle l s (UncaughtException e) in
  In (now s, Log ERROR "Main: uncaughtException" (Some (exn_to_string e))) (trace s') /\
  exitCode s' = None /\
  (truthy (arg_username l) = false ->
   forall evs', now s + 1000 <= now (run l s' evs') ->
                exitCode (run l s' evs') = Some 1) /\
  (truthy (arg_username l) = true ->
   exists id,
     In (id, Request CatchLogFinallyExit) (pending s') /\
     forall evs1 err evs2,
       let s2 := run l s' evs1 in
       let s3 := run l (handle l s2 (Completes id err)) evs2 in
       now s2 + 1000 <= now s3 -> exitCode s3 = Some 1).
Proof.
  intros s Hx s'.
  assert (Hi : Inv s) by (apply Inv_run, Inv_startup).
  assert (Hsoon : exit_soon s) by (apply soon_run, soon_startup).
  assert (Hc : settings_inv l s) by apply settings_inv_run.
  destruct Hi as (Hj & Hi). pose proof Hj as [Hq _].
  assert (E : handle l s (UncaughtException e) = exec (handleUncaughtException e) s).
  { unfold handle. rewrite Hx. apply thrown_step; [exact Hc|exact Hq|reflexivity]. }
  split.
  - unfold s'. rewrite E.
    destruct (handler_outcome l s e Hc) as (_ & _ & _ & _ & _ & (more & Et & _ & Hin) & _).
    cbv zeta in Et. rewrite Et. apply in_or_app. right. exact Hin.
  - apply (exits_after_exception l s _ e s); auto. split; assumption.
Qed.

Lemma uncaught_exception_exits_witness :
  let s := run no_user_launch (startup no_user_launch) [AppReady] in
  exitCode (run no_user_launch
              (handle no_user_launch s (UncaughtException (Foreign "boom")))
              [Elapse 1000]) = Some 1.
Proof.
  intros s.
  assert (Hx : exitCode (run no_user_launch (startup no_user_launch) [AppReady]) = None)
    by (vm_compute; reflexivity).
  destruct (uncaught_exception_exits no_user_launch [AppReady] (Foreign "boom") Hx)
    as (_ & _ & H & _).
  apply H; [reflexivity|]. vm_compute. discriminate.
Defined.

(** X12.  While no window exists, that is before [initApp] and after the
    window was closed, the listeners of 'will-quit', 'window-all-closed'
    and 'clear-app-data' fail in [clearAppData]: nothing is cleared, the
    pipe is not ended, [app.quit] is not called and the renderer gets no
    answer; the exception is logged by the 'uncaughtException' listener
    and the process exits with status 1 as after any uncaught exception. *)
Theorem clearing_without_window_is_fatal (l : launch) (evs : list event) (ev : event) :
  let s := run l (startup l) evs in
  exitCode s = None -> mainWindow s = None ->
  ev = WillQuit \/ ev = WindowAllClosed \/ ev = IpcClearAppData ->
  let s' := handle l s ev in
  (exists more message,
     trace s' = trace s ++ more /\ Forall is_report more /\
     In (now s, Log ERROR "Main: uncaughtException" (Some message)) more) /\
  exitCode s' = None /\
  (truthy (arg_username l) = false ->
   forall evs', now s + 1000 <= now (run l s' evs') ->
                exitCode (run l s' evs') = Some 1) /\
  (truthy (arg_username l) = true ->
   exists id,
     In (id, Request CatchLogFinallyExit) (pending s') /\
     forall evs1 err evs2,
       let s2 := run l s' evs1 in
       let s3 := run l (handle l s2 (Completes id err)) evs2 in
       now s2 + 1000 <= now s3 -> exitCode s3 = Some 1).
Proof.
  intros s Hx Hw Hev s'.
  assert (Hi : Inv s) by (apply Inv_run, Inv_startup).
  assert (Hsoon : exit_soon s) by (apply soon_run, soon_startup).
  assert (Hc : settings_inv l s) by apply settings_inv_run.
  pose proof Hi as ([Hq _] & _).
  set (e := TypeError "Cannot read property 'webContents' of null").
  assert (E : exists s1 pre,
             handle l s ev = exec (handleUncaughtException e) s1 /\
             settings_inv l s1 /\ exitCode s1 = None /\ now s1 = now s /\
             trace s1 = trace s ++ pre /\ Forall is_report pre).
  { assert (Hlog : forall m,
              settings_inv l (exec (logger INFO m) s) /\
              exitCode (exec (logger INFO m) s) = None /\
              now (exec (logger INFO m) s) = now s /\
              trace (exec (logger INFO m) s) = trace s ++ [(now s, Log INFO m None)] /\
              Forall is_report [(now s, Log INFO m None)]).
    { intros m. split; [revert Hc; apply settings_frame; reflexivity|].
      split; [exact Hx|]. split; [reflexivity|]. split; [reflexivity|].
      repeat constructor. }
    destruct Hev as [-> | [-> | ->]].
    - exists (exec (logger INFO "event will-quit called") s),
        [(now s, Log INFO "event will-quit called" None)].
      split; [|apply Hlog].
      unfold handle. rewrite Hx. apply thrown_step; [apply Hlog|exact Hq|].
      unfold listener, on_will_quit, clearAppData, bind, get, logger, emit, modify, exec.
      cbn. rewrite Hw. reflexivity.
    - exists (exec (logger INFO "event window-all-closed called") s),
        [(now s, Log INFO "event window-all-closed called" None)].
      split; [|apply Hlog].
      unfold handle. rewrite Hx. apply thrown_step; [apply Hlog|exact Hq|].
      unfold listener, on_window_all_closed, clearAppData, bind, get, logger, emit,
        modify, exec.
      cbn. rewrite Hw. reflexivity.
    - exists s, []. split.
      + unfold handle. rewrite Hx. apply thrown_step; [exact Hc|exact Hq|].
        unfold listener, clearAppData, bind, get. rewrite Hw. reflexivity.
      + split; [exact Hc|]. split; [exact Hx|]. split; [reflexivity|].
        split; [symmetry; apply app_nil_r|constructor]. }
  destruct E as (s1 & pre & E & Hc1 & Hx1 & Hn1 & Et1 & Hf1).
  split.
  - destruct (handler_outcome l s1 e Hc1)
      as (_ & _ & _ & _ & _ & (more & Et & Hf & Hin) & _).
    cbv zeta in Et. exists (pre ++ more), (exn_to_string e).
    unfold s'. rewrite E, Et, Et1, app_assoc. split; [reflexivity|]. split.
    + apply Forall_app. split; [exact Hf1|exact Hf].
    + apply in_or_app. right. rewrite <- Hn1. exact Hin.
  - apply (exits_after_exception l s ev e s1); assumption.
Qed.

Lemma clearing_without_window_is_fatal_witness :
  let s := run mac_launch (startup mac_launch) [AppReady; WindowClosed] in
  exists id,
    In (id, Request CatchLogFinallyExit)
       (pending (handle mac_launch s WindowAllClosed)).
Proof.
  intros s.
  assert (Hx : exitCode (run mac_launch (startup mac_launch) [AppReady; WindowClosed])
               = None) by (vm_compute; reflexivity).
  assert (Hw : mainWindow (run mac_launch (startup mac_launch) [AppReady; WindowClosed])
               = None) by (vm_compute; reflexivity).
  destruct (clearing_without_window_is_fatal mac_launch [AppReady; WindowClosed]
              WindowAllClosed Hx Hw (or_intror (or_introl eq_refl)))
    as (_ & _ & _ & H).
  destruct (H eq_refl) as (id & Hin & _). exists id. exact Hin.
Defined.

(** *** A template that cannot be read *)

Lemma load_failure_outcome l s id events (err : string) :
  settings_inv l s -> sched_inv s -> microtasks s = [] -> exitCode s = None ->
  In (id, FileReading events) (pending s) ->
  let s' := handle l s (Completes id (Some err)) in
  exitCode s' = None /\
  (exists more url user,
     trace s' = trace s ++ more /\ Forall is_report more /\
     In (now s, Log ERROR ("Failed to read jade file, error: " ++ err ++ ", exiting.")
                  None) more /\
     In (now s, PostEvents (next_id s) url user
                  (addEvent events LOAD_UI_ERROR ERROR (str err))) more) /\
  if truthy (arg_username l) then
    pending s' = remove_op id (pending s)
                 ++ [(next_id s, Request Unhandled);
                     (S (next_id s), Request FinallyExit)] /\
    timers s' = timers s
  else
    timers s' = timers s ++ [{| tid := S (S (next_id s)); deadline := now s + 1000;
                                timer_cb := exitCallback 1 |}].
Proof.
  intros Hc Hs Hq Hx Hin. pose proof Hs as (_ & _ & Hnd & _).
  pose proof (find_op_In _ _ _ Hnd Hin) as Hf.
  pose proof (valid_stage_cases _ (resolved_stage_valid l)) as Hv.
  destruct Hc as (Hc & _). clear Hs Hnd Hin.
  break_state s. cbn in Hc, Hq, Hf, Hx. subst cfg0 mt0 ex0. cbv zeta.
  unfold handle, macrotask, listener, on_completes, bind, get.
  cbn [fst snd pending exitCode]. rewrite Hf.
  destruct (arg_username l) as [| |[|c u]];
    destruct Hv as [Hv | [Hv | [Hv | Hv]]]; rewrite Hv.
  all: cbv -[app In String.append remove_op Z.add is_report].
  all: rewrite <- ?app_assoc; cbn [app].
  all: (split; [reflexivity|]).
  all: (split; [|try (split; reflexivity); try reflexivity]).
  all: do 3 eexists; (split; [reflexivity|]); split;
    [repeat (constructor; [exact I|]); constructor|split; find_in].
Qed.

Lemma load_success_outcome l s id events :
  settings_inv l s -> sched_inv s -> microtasks s = [] -> exitCode s = None ->
  In (id, FileReading events) (pending s) ->
  let s' := handle l s (Completes id None) in
  exitCode s' = None /\ timers s' = timers s /\
  (exists more url user,
     trace s' = trace s ++ more ++ [(now s, LoadURL)] /\
     In (now s, PostEvents (next_id s) url user events) more) /\
  pending s' = remove_op id (pending s) ++ [(next_id s, Request Unhandled)].
Proof.
  intros Hc Hs Hq Hx Hin. pose proof Hs as (_ & _ & Hnd & _).
  pose proof (find_op_In _ _ _ Hnd Hin) as Hf.
  pose proof (valid_stage_cases _ (resolved_stage_valid l)) as Hv.
  destruct Hc as (Hc & _). clear Hs Hnd Hin.
  break_state s. cbn in Hc, Hq, Hf, Hx. subst cfg0 mt0 ex0. cbv zeta.
  unfold handle, macrotask, listener, on_completes, bind, get.
  cbn [fst snd pending exitCode]. rewrite Hf.
  destruct (arg_username l) as [| |[|c u]];
    destruct Hv as [Hv | [Hv | [Hv | Hv]]]; rewrite Hv.
  all: cbv -[app In String.append remove_op Z.add].
  all: rewrite <- ?app_assoc; cbn [app].
  all: (split; [reflexivity|]); (split; [reflexivity|]); (split; [|reflexivity]).
  all: eexists [_; _; _; _; _; _; _], _, _; split; [reflexivity|find_in].
Qed.

(** X13.  When the template of the page cannot be read, the page is not
    loaded: the failure is logged, posted with the events collected so
    far, and the process exits with status 1, 1000 ms later when no
    username was given, otherwise within 1000 ms of the settlement of the
    error report.  When the template is read, the collected events are
    posted, the page is loaded, and no exit is armed. *)
Theorem page_loads_or_process_exits (l : launch) (evs : list event) (id : nat)
    (events : list client_event) :
  let s := run l (startup l) evs in
  exitCode s = None -> In (id, FileReading events) (pending s) ->
  (forall err : string,
     let s' := handle l s (Completes id (Some err)) in
     (exists more url user,
        trace s' = trace s ++ more /\ Forall is_report more /\
        In (now s, Log ERROR ("Failed to read jade file, error: " ++ err ++ ", exiting.")
                     None) more /\
        In (now s, PostEvents (next_id s) url user
                     (addEvent events LOAD_UI_ERROR ERROR (str err))) more) /\
     exitCode s' = None /\
     (truthy (arg_username l) = false ->
      forall evs', now s + 1000 <= now (run l s' evs') ->
                   exitCode (run l s' evs') = Some 1) /\
     (truthy (arg_username l) = true ->
      In (S (next_id s), Request FinallyExit) (pending s') /\
      forall evs1 err' evs2,
        let s2 := run l s' evs1 in
        let s3 := run l (handle l s2 (Completes (S (next_id s)) err')) evs2 in
        now s2 + 1000 <= now s3 -> exitCode s3 = Some 1)) /\
  (let s' := handle l s (Completes id None) in
   exitCode s' = None /\ timers s' = timers s /\
   exists more url user,
     trace s' = trace s ++ more ++ [(now s, LoadURL)] /\
     In (now s, PostEvents (next_id s) url user events) more).
Proof.
  intros s Hx Hin.
  assert (Hi : Inv s) by (apply Inv_run, Inv_startup).
  assert (Hsoon : exit_soon s) by (apply soon_run, soon_startup).
  assert (Hc : settings_inv l s) by apply settings_inv_run.
  pose proof Hi as ([Hq _] & Hs & _).
  split.
  - intros err s'.
    assert (Hi' : Inv s') by (apply Inv_handle, Hi).
    assert (Hsoon' : exit_soon s') by (apply soon_handle, Hsoon).
    destruct (load_failure_outcome l s id events err Hc Hs Hq Hx Hin)
      as (Hx' & Ht & Ho). fold s' in Hx', Ht, Ho.
    split; [exact Ht|]. split; [exact Hx'|]. split.
    + intros Eu evs' Hd. rewrite Eu in Ho.
      apply (exit_timer_fires l s' evs'
               {| tid := S (S (next_id s)); deadline := now s + 1000;
                  timer_cb := exitCallback 1 |} 1 Hi' Hx'); [|reflexivity|exact Hd].
      rewrite Ho. apply in_or_app. right. left. reflexivity.
    + intros Eu. rewrite Eu in Ho. destruct Ho as [Hp _].
      assert (Hf : In (S (next_id s), Request FinallyExit) (pending s')).
      { rewrite Hp. apply in_or_app. right. right. left. reflexivity. }
      split; [exact Hf|]. intros evs1 err' evs2.
      apply (report_then_exit l (S (next_id s)) FinallyExit);
        [discriminate|exact Hi'|exact Hsoon'|split; assumption].
  - destruct (load_success_outcome l s id events Hc Hs Hq Hx Hin) as (H1 & H2 & H3 & _).
    cbv zeta. auto.
Qed.

Lemma page_loads_or_process_exits_witness :
  let s := run mac_launch (startup mac_launch) [AppReady] in
  In (S (next_id s), Request FinallyExit)
     (pending (handle mac_launch s (Completes 2 (Some "ENOENT"%string)))).
Proof.
  intros s.
  assert (Hx : exitCode (run mac_launch (startup mac_launch) [AppReady]) = None)
    by (vm_compute; reflexivity).
  assert (Hin : In (2%nat, FileReading (addEvent [] LOAD_UI INFO
                                          (str "Main: Loading survey UI")))
                   (pending (run mac_launch (startup mac_launch) [AppReady])))
    by (vm_compute; right; left; reflexivity).
  destruct (page_loads_or_process_exits mac_launch [AppReady] 2 _ Hx Hin) as (H & _).
  destruct (H "ENOENT"%string) as (_ & _ & _ & H1).
  destruct (H1 eq_refl) as (H2 & _). exact H2.
Defined.

(** *** Clearing the application data, step by step *)

Lemma storage_cleared_outcome l s id cb err :
  sched_inv s -> microtasks s = [] -> exitCode s = None ->
  In (id, StorageClearing cb) (pending s) ->
  let s' := handle l s (Completes id err) in
  trace s' = trace s ++ [(now s, ClearCache (next_id s))] /\
  pending s' = remove_op id (pending s) ++ [(next_id s, CacheClearing cb)] /\
  timers s' = timers s /\ exitCode s' = None.
Proof.
  intros Hs Hq Hx Hin. pose proof Hs as (_ & _ & Hnd & _).
  pose proof (find_op_In _ _ _ Hnd Hin) as Hf. clear Hs Hnd Hin.
  break_state s. cbn in Hq, Hf, Hx. subst mt0 ex0. cbv zeta.
  unfold handle, macrotask, listener, on_completes, bind, get.
  cbn [fst snd pending exitCode]. rewrite Hf.
  cbv -[app In String.append remove_op Z.add]. auto.
Qed.

Lemma cache_cleared_outcome l s id cb err :
  sched_inv s -> microtasks s = [] -> exitCode s = None ->
  cb <> CrashReport -> In (id, CacheClearing cb) (pending s) ->
  let s' := handle l s (Completes id err) in
  trace s'
  = trace s
    ++ [(now s, Log INFO "Cleared app data" None);
        (now s, match cb with
                | LogBeforeQuit => Log INFO "clear cache before quit" None
                | LogCacheDeleted => Log INFO "app cache deleted" None
                | _ => IpcReturnValue "success"
                end)] /\
  pending s' = remove_op id (pending s) /\
  timers s' = timers s /\ exitCode s' = None.
Proof.
  intros Hs Hq Hx Hcb Hin. pose proof Hs as (_ & _ & Hnd & _).
  pose proof (find_op_In _ _ _ Hnd Hin) as Hf. clear Hs Hnd Hin.
  break_state s. cbn in Hq, Hf, Hx. subst mt0 ex0. cbv zeta.
  unfold handle, macrotask, listener, on_completes, bind, get.
  cbn [fst snd pending exitCode]. rewrite Hf.
  destruct cb; try congruence;
    cbv -[app In String.append remove_op Z.add]; rewrite <- ?app_assoc; auto.
Qed.

Lemma crash_cleared_outcome l s id err :
  settings_inv l s -> sched_inv s -> microtasks s = [] -> exitCode s = None ->
  In (id, CacheClearing CrashReport) (pending s) ->
  let s' := handle l s (Completes id err) in
  exitCode s' = None /\
  (exists more url user description,
     trace s' = trace s ++ more /\ Forall is_report more /\
     In (now s, PostEvents (next_id s) url user
                  [{| ev_type := HEALTH_CHECK_ERROR_EVENT; ev_level := ERROR;
                      ev_description := description |}]) more) /\
  if truthy (arg_username l) then
    (exists url,
       trace s' = trace s
                  ++ [(now s, Log INFO "Cleared app data" None);
                      (now s, PostEvents (next_id s)
                                (to_str (lookup CLIENTMETRICS_DOMAIN (to_str (stage s)))
                                 ++ "events")
                                (to_str (arg_username l))
                                [{| ev_type := HEALTH_CHECK_ERROR_EVENT;
                                    ev_level := ERROR;
                                    ev_description :=
                                      str ("Disco app crashed. No heartbeat. The stage is: "
                                           ++ to_str (stage s) ++ " domain is: "
                                           ++ to_str (domain s)) |}]);
                      (now s, PostError (S (next_id s)) url HEALTH_CHECK_ERROR
                                EmptyString)]) /\
    pending s' = remove_op id (pending s)
                 ++ [(next_id s, Request Unhandled);
                     (S (next_id s), Request FinallyExit)] /\
    timers s' = timers s
  else
    timers s' = timers s ++ [{| tid := S (S (next_id s)); deadline := now s + 1000;
                                timer_cb := exitCallback 1 |}].
Proof.
  intros Hc Hs Hq Hx Hin. pose proof Hs as (_ & _ & Hnd & _).
  pose proof (find_op_In _ _ _ Hnd Hin) as Hf.
  pose proof (valid_stage_cases _ (resolved_stage_valid l)) as Hv.
  destruct Hc as (Hc & Hst & _). clear Hs Hnd Hin.
  break_state s. cbn in Hc, Hq, Hf, Hx, Hst. subst cfg0 mt0 ex0 stage0. cbv zeta.
  unfold handle, macrotask, listener, on_completes, bind, get.
  cbn [fst snd pending exitCode]. rewrite Hf.
  destruct (arg_username l) as [| |[|c u]];
    destruct Hv as [Hv | [Hv | [Hv | Hv]]]; rewrite Hv.
  all: cbv -[app In String.append remove_op Z.add is_report to_str].
  all: rewrite <- ?app_assoc; cbn [app].
  all: (split; [reflexivity|]).
  all: (split;
        [do 4 eexists; (split; [reflexivity|]); split;
         [repeat (constructor; [exact I|]); constructor|find_in]|]).
  all: try reflexivity.
  all: split; [eexists; reflexivity|split; reflexivity].
Qed.

Lemma clearing_started_outcome s w cb :
  microtasks s = [] -> exitCode s = None -> mainWindow s = Some w ->
  exec (clearAppData cb) s
  = set_trace (trace s
               ++ [(now s, Log INFO "deleting app cache" None);
                   (now s, ClearStorageData (next_id s));
                   (now s, Log INFO "deleting clientCertificate" None);
                   (now s, ClearAuthCache);
                   (now s, Log INFO "deleting app cache done" None)])
      (set_next_id (S (next_id s))
         (set_pending (pending s ++ [(next_id s, StorageClearing cb)]) s)) /\
  fst (clearAppData cb s) = Ok tt.
Proof.
  intros Hq Hx Hw. break_state s. cbn in Hq, Hx, Hw. subst mt0 ex0 win0.
  cbv -[app In String.append Z.add]. rewrite <- ?app_assoc. split; reflexivity.
Qed.

(** X14.  [clearAppData] works in two steps.  With a window, the
    'clear-app-data' listener starts the clearing of the storage and, at
    once, that of the client certificates, and does not answer yet.  When
    the clearing of the storage ends, with or without an error, the
    clearing of the cache starts for the same callback.  When that ends
    the line 'Cleared app data' is logged and the callback runs: the
    renderer is answered 'success', or the line of the listener that
    asked is logged. *)
Theorem app_data_is_cleared_in_two_steps (l : launch) (evs : list event) :
  let s := run l (startup l) evs in
  exitCode s = None ->
  (forall w, mainWindow s = Some w ->
     let s' := handle l s IpcClearAppData in
     trace s' = trace s
                ++ [(now s, Log INFO "deleting app cache" None);
                    (now s, ClearStorageData (next_id s));
                    (now s, Log INFO "deleting clientCertificate" None);
                    (now s, ClearAuthCache);
                    (now s, Log INFO "deleting app cache done" None)] /\
     pending s' = pending s ++ [(next_id s, StorageClearing IpcAcknowledge)]) /\
  (forall id cb err, In (id, StorageClearing cb) (pending s) ->
     let s' := handle l s (Completes id err) in
     trace s' = trace s ++ [(now s, ClearCache (next_id s))] /\
     pending s' = remove_op id (pending s) ++ [(next_id s, CacheClearing cb)]) /\
  (forall id cb err, cb <> CrashReport -> In (id, CacheClearing cb) (pending s) ->
     let s' := handle l s (Completes id err) in
     trace s'
     = trace s
       ++ [(now s, Log INFO "Cleared app data" None);
           (now s, match cb with
                   | LogBeforeQuit => Log INFO "clear cache before quit" None
                   | LogCacheDeleted => Log INFO "app cache deleted" None
                   | _ => IpcReturnValue "success"
                   end)] /\
     pending s' = remove_op id (pending s)).
Proof.
  intros s Hx.
  assert (Hi : Inv s) by (apply Inv_run, Inv_startup).
  pose proof Hi as ([Hq _] & Hs & _).
  split; [|split].
  - intros w Hw. cbv zeta.
    destruct (clearing_started_outcome s w IpcAcknowledge Hq Hx Hw) as (E & Ok1).
    assert (Eh : handle l s IpcClearAppData = exec (clearAppData IpcAcknowledge) s).
    { unfold handle. rewrite Hx. unfold macrotask, listener.
      unfold exec. destruct (clearAppData IpcAcknowledge s) as [[[]|e] s1] eqn:Em;
        [|discriminate Ok1].
      apply drain_nothing. unfold exec in E. rewrite Em in E. cbn [snd] in E.
      rewrite E. exact Hq. }
    rewrite Eh, E. split; reflexivity.
  - intros id cb err Hin.
    destruct (storage_cleared_outcome l s id cb err Hs Hq Hx Hin) as (H1 & H2 & _).
    split; assumption.
  - intros id cb err Hcb Hin.
    destruct (cache_cleared_outcome l s id cb err Hs Hq Hx Hcb Hin) as (H1 & H2 & _).
    split; assumption.
Qed.

Lemma app_data_is_cleared_in_two_steps_witness :
  let s := run mac_launch (startup mac_launch) [AppReady; IpcClearAppData] in
  pending (handle mac_launch s (Completes 3 None))
  = remove_op 3 (pending s) ++ [(next_id s, CacheClearing IpcAcknowledge)].
Proof.
  intros s.
  assert (Hx : exitCode (run mac_launch (startup mac_launch) [AppReady; IpcClearAppData])
               = None) by (vm_compute; reflexivity).
  destruct (app_data_is_cleared_in_two_steps mac_launch [AppReady; IpcClearAppData] Hx)
    as (_ & H & _).
  apply H. vm_compute. right. right. left. reflexivity.
Defined.

(** X15.  When the clearing started by [crashCallback] ends, the failure of
    the health check is posted as an event that names the stage and the
    domain, and the process exits with status 1: with a username, the
    error DiscoAppException:HealthCheckError is reported and the exit
    comes within 1000 ms of the settlement of that report; with none,
    1000 ms later. *)
Theorem health_check_failure_is_reported (l : launch) (evs : list event) (id : nat)
    (err : option string) :
  let s := run l (startup l) evs in
  exitCode s = None -> In (id, CacheClearing CrashReport) (pending s) ->
  let s' := handle l s (Completes id err) in
  (exists more url user description,
     trace s' = trace s ++ more /\ Forall is_report more /\
     In (now s, PostEvents (next_id s) url user
                  [{| ev_type := HEALTH_CHECK_ERROR_EVENT; ev_level := ERROR;
                      ev_description := description |}]) more) /\
  exitCode s' = None /\
  (truthy (arg_username l) = false ->
   forall evs', now s + 1000 <= now (run l s' evs') ->
                exitCode (run l s' evs') = Some 1) /\
  (truthy (arg_username l) = true ->
   (exists url,
      trace s' = trace s
                 ++ [(now s, Log INFO "Cleared app data" None);
                     (now s, PostEvents (next_id s)
                               (to_str (lookup CLIENTMETRICS_DOMAIN (to_str (stage s)))
                                ++ "events")
                               (to_str (arg_username l))
                               [{| ev_type := HEALTH_CHECK_ERROR_EVENT;
                                   ev_level := ERROR;
                                   ev_description :=
                                     str ("Disco app crashed. No heartbeat. The stage is: "
                                          ++ to_str (stage s) ++ " domain is: "
                                          ++ to_str (domain s)) |}]);
                     (now s, PostError (S (next_id s)) url HEALTH_CHECK_ERROR
                               EmptyString)]) /\
   In (S (next_id s), Request FinallyExit) (pending s') /\
   forall evs1 err' evs2,
     let s2 := run l s' evs1 in
     let s3 := run l (handle l s2 (Completes (S (next_id s)) err')) evs2 in
     now s2 + 1000 <= now s3 -> exitCode s3 = Some 1).
Proof.
  intros s Hx Hin s'.
  assert (Hi : Inv s) by (apply Inv_run, Inv_startup).
  assert (Hsoon : exit_soon s) by (apply soon_run, soon_startup).
  assert (Hc : settings_inv l s) by apply settings_inv_run.
  pose proof Hi as ([Hq _] & Hs & _).
  assert (Hi' : Inv s') by (apply Inv_handle, Hi).
  assert (Hsoon' : exit_soon s') by (apply soon_handle, Hsoon).
  destruct (crash_cleared_outcome l s id err Hc Hs Hq Hx Hin) as (Hx' & Ht & Ho).
  fold s' in Hx', Ht, Ho.
  split; [exact Ht|]. split; [exact Hx'|]. split.
  - intros Eu evs' Hd. rewrite Eu in Ho.
    apply (exit_timer_fires l s' evs'
             {| tid := S (S (next_id s)); deadline := now s + 1000;
                timer_cb := exitCallback 1 |} 1 Hi' Hx'); [|reflexivity|exact Hd].
    rewrite Ho. apply in_or_app. right. left. reflexivity.
  - intros Eu. rewrite Eu in Ho. destruct Ho as (Htr & Hp & _).
    assert (Hf : In (S (next_id s), Request FinallyExit) (pending s')).
    { rewrite Hp. apply in_or_app. right. right. left. reflexivity. }
    split; [exact Htr|]. split; [exact Hf|]. intros evs1 err' evs2.
    apply (report_then_exit l (S (next_id s)) FinallyExit);
      [discriminate|exact Hi'|exact Hsoon'|split; assumption].
Qed.

Lemma health_check_failure_is_reported_witness :
  let s := run mac_launch (startup mac_launch) (firstn 3 silent_run) in
  In (S (next_id s), Request FinallyExit)
     (pending (handle mac_launch s (Completes 4 None))).
Proof.
  intros s.
  assert (Hx : exitCode (run mac_launch (startup mac_launch) (firstn 3 silent_run))
               = None) by (vm_compute; reflexivity).
  assert (Hin : In (4%nat, CacheClearing CrashReport)
                   (pending (run mac_launch (startup mac_launch) (firstn 3 silent_run))))
    by (vm_compute; right; right; left; reflexivity).
  destruct (health_check_failure_is_reported mac_launch (firstn 3 silent_run) 4 None
              Hx Hin) as (_ & _ & _ & H).
  destruct (H eq_refl) as (_ & H2 & _). exact H2.
Defined.


(** *** The quit the renderer asks for *)

Lemma effect_frame x (s s' : state) :
  (In x (trace s) -> In x (trace s')) -> In x (trace s) -> In x (trace s').
Proof. auto. Qed.

Ltac effect_prim :=
  idtac;
  lazymatch goal with
  | |- preserves _ (settle _ _) =>
      intros s0 H0;
      match goal with
      | |- In _ (trace (exec (settle ?p ?o) s0)) =>
          pose proof (rest_view_settle p o s0) as V;
          unfold rest_view in V; injection V as _ _ _ _ _ _ _ _ _ _ V _;
          rewrite V; exact H0
      end
  | |- preserves _ (then_catch _ _ _) =>
      intros s0 H0;
      match goal with
      | |- In _ (trace (exec (then_catch ?p ?f ?g) s0)) =>
          pose proof (rest_view_then_catch p f g s0) as V;
          unfold rest_view in V; injection V as _ _ _ _ _ _ _ _ _ _ V _;
          rewrite V; exact H0
      end
  | |- preserves _ (setTimeout _ _) =>
      intros ? H0; cbn; apply in_or_app; left; exact H0
  | |- preserves _ (clearTimeout _) =>
      intros ? H0; cbn; apply in_or_app; left; exact H0
  | |- preserves _ (emit _) =>
      intros ? H0; cbn; apply in_or_app; left; exact H0
  | |- preserves _ (start_async _) => intros ? H0; exact H0
  | |- preserves _ (modify _) => intros ? H0; exact H0
  end.

Lemma effect_listener x l ev : preserves (fun s => In x (trace s)) (listener l ev).
Proof. pres effect_prim. Qed.

Lemma effect_run_callback x cb : preserves (fun s => In x (trace s)) (run_callback cb).
Proof. pres effect_prim. Qed.

Lemma effect_handleUncaughtException x e :
  preserves (fun s => In x (trace s)) (handleUncaughtException e).
Proof. pres effect_prim. Qed.

Lemma effect_run_reaction x l r : preserves (fun s => In x (trace s)) (run_reaction l r).
Proof. unfold run_reaction. pres effect_prim. Qed.

(** Nothing is ever taken out of the trace. *)
Lemma effect_handle x l s ev : In x (trace s) -> In x (trace (handle l s ev)).
Proof.
  apply (@handle_preserves (fun s => In x (trace s))); intros.
  - apply effect_listener.
  - apply effect_run_callback.
  - apply effect_handleUncaughtException.
  - apply effect_run_reaction.
  - assumption.
  - assumption.
  - assumption.
Qed.

Lemma keeps_pulse_quit t :
  timer_cb t = quitCallback ->
  preserves (fun s => sched_inv s /\ keeps_timer t s) on_health_check_pulse.
Proof.
  intros Hcb s [Hs [Hx Ht]]. split; [apply sched_pulse, Hs|].
  destruct Hs as (_ & _ & _ & _ & _ & T4 & _).
  unfold keeps_timer, exec, on_health_check_pulse, bind, get. cbn.
  destruct (safeCloseTimeout s) as [id|] eqn:Es; cbn; (split; [exact Hx|]).
  - apply in_or_app. left. apply filter_In. split; [exact Ht|].
    destruct (Nat.eqb_spec (tid t) id) as [E|]; [|reflexivity].
    subst id. specialize (T4 t Ht eq_refl). congruence.
  - apply in_or_app. left. exact Ht.
Qed.

Ltac sched_keeps_quit_prim Hcb :=
  idtac;
  lazymatch goal with
  | |- preserves _ on_health_check_pulse => apply (keeps_pulse_quit _ Hcb)
  | |- preserves _ (bind _ _) => fail
  | |- preserves _ _ => apply preserves_and; [sched_prim|keeps_prim]
  end.

Lemma keeps_listener_quit l ev t :
  timer_cb t = quitCallback ->
  preserves (fun s => sched_inv s /\ keeps_timer t s) (listener l ev).
Proof. intros Hcb. pres ltac:(sched_keeps_quit_prim Hcb). Qed.

Lemma quit_fire l u s t :
  join_inv s -> sched_inv s -> due_later s -> timer_cb t = quitCallback ->
  exitCode s = None -> In u (timers s) -> quit_by t s -> quit_by t (fire l u s).
Proof.
  intros [Hq _] Hs Hl Hcb Hx Hu Hd. rewrite fire_eq by exact Hq. cbv zeta.
  set (s1 := set_timers _ _).
  pose proof Hs as (T1 & _ & _ & _ & _ & _ & T5 & _).
  destruct Hd as [Hd|[[_ Ht]|Hin]]; [congruence| |].
  - destruct (Nat.eqb_spec (tid u) (tid t)) as [E|N].
    + assert (u = t) by (eapply NoDup_tid_eq; eassumption). subst u.
      rewrite Hcb. cbn. right. right. apply in_or_app. right. left.
      pose proof (Hl t Ht). f_equal. lia.
    + assert (K1 : keeps_timer t s1).
      { split; [exact Hx|]. cbn. apply filter_In. split; [exact Ht|].
        destruct (Nat.eqb_spec (tid t) (tid u)); [congruence|reflexivity]. }
      destruct (timer_cb u) as [|c'|] eqn:Eu.
      * right. left. pose proof (keeps_crash t s1 K1) as Kc. unfold exec in Kc.
        cbn [run_callback]. destruct (crash s1) as [[[]|e] s']; cbn in Kc.
        -- exact Kc.
        -- apply keeps_handleUncaughtException, Kc.
      * left. cbn. discriminate.
      * right. left. cbn. revert K1. apply keeps_frame; [reflexivity|auto].
  - right. right.
    assert (H1 : In (deadline t, AppQuit) (trace s1)) by exact Hin.
    pose proof (effect_run_callback (deadline t, AppQuit) (timer_cb u) s1 H1) as Hr.
    unfold exec in Hr. destruct (run_callback (timer_cb u) s1) as [[[]|e] s'].
    + exact Hr.
    + apply effect_handleUncaughtException, Hr.
Qed.

Lemma quit_run_timers l t fuel target s :
  timer_cb t = quitCallback ->
  join_inv s -> sched_inv s -> due_later s -> quit_by t s ->
  quit_by t (run_timers l fuel target s).
Proof.
  intros Hcb. revert s.
  induction fuel as [|fuel IH]; intros s Hj Hs Hl Hd; cbn [run_timers].
  - exact Hd.
  - destruct (exitCode s) eqn:Ex; [exact Hd|].
    destruct (next_due target (timers s)) as [u|] eqn:Nd; [|exact Hd].
    apply next_due_Some in Nd as (Hu & _ & Hmin).
    apply IH;
      [apply join_inv_fire, Hj|apply sched_inv_fire, Hs|apply later_fire; assumption|].
    apply quit_fire; assumption.
Qed.

Lemma quit_handle l s ev t :
  Inv s -> timer_cb t = quitCallback -> quit_by t s -> quit_by t (handle l s ev).
Proof.
  intros Hi Hcb Hd. pose proof Hi as (Hj & Hs & Hc & _).
  destruct Hd as [Hd|[Hk|Hin]].
  - left. unfold handle. destruct (exitCode s) eqn:Ex; [rewrite Ex; discriminate|].
    congruence.
  - pose proof Hk as [Hx Ht]. unfold handle. rewrite Hx.
    assert (Hm : forall m, preserves (fun s => sched_inv s /\ keeps_timer t s) m ->
                           quit_by t (macrotask l m s)).
    { intros m Hm. right. left.
      apply (@macrotask_preserves (fun s => sched_inv s /\ keeps_timer t s)).
      - intros r. apply preserves_and; [apply sched_run_reaction|apply keeps_run_reaction].
      - intros q s0 [? ?]. split; [eapply sched_frame; [..|eassumption]; reflexivity|].
        eapply keeps_frame; [..|eassumption]; [reflexivity|auto].
      - intros e. apply preserves_and;
          [apply sched_handleUncaughtException|apply keeps_handleUncaughtException].
      - exact Hm.
      - split; assumption. }
    destruct ev; try (apply Hm; apply (keeps_listener_quit l _ t Hcb)).
    unfold elapse. cbv zeta. set (x := run_timers l _ _ s).
    assert (Hl : due_later s) by (intros v Hv; specialize (Hc Hx v Hv); lia).
    assert (Hq : quit_by t x).
    { apply quit_run_timers; auto. right. left. exact Hk. }
    destruct (exitCode x) eqn:Ex'; [exact Hq|].
    destruct Hq as [Hq|[[_ Hq]|Hq]]; [congruence| |].
    + right. left. split; assumption.
    + right. right. exact Hq.
  - right. right. apply effect_handle, Hin.
Qed.

Lemma quit_run l evs s t :
  Inv s -> timer_cb t = quitCallback -> quit_by t s -> quit_by t (run l s evs).
Proof.
  revert s. induction evs as [|ev evs IH]; intros s Hi Hcb Hd; [exact Hd|].
  change (run l s (ev :: evs)) with (run l (handle l s ev) evs).
  apply IH; [apply Inv_handle, Hi|exact Hcb|apply quit_handle; assumption].
Qed.

(** X16.  When the renderer asks to quit, [app.quit] is not called at
    once: a timer is armed, and [app.quit] is called when 1000 ms have
    passed, unless the process has exited before.  Nothing cancels that
    timer. *)
Theorem quit_comes_a_second_later (l : launch) (evs : list event) :
  let s := run l (startup l) evs in
  exitCode s = None ->
  let s1 := handle l s IpcQuit in
  trace s1 = trace s ++ [(now s, SetTimeout (next_id s) quitCallback 1000)] /\
  timers s1 = timers s ++ [{| tid := next_id s; deadline := now s + 1000;
                              timer_cb := quitCallback |}] /\
  forall evs',
    let s2 := run l s1 evs' in
    exitCode s2 = None -> now s + 1000 <= now s2 ->
    In (now s + 1000, AppQuit) (trace s2).
Proof.
  intros s Hx s1.
  assert (Hi : Inv s) by (apply Inv_run, Inv_startup).
  assert (Hi1 : Inv s1) by (apply Inv_handle, Hi).
  pose proof Hi as (Hj & _).
  assert (E : s1 = exec (setTimeout quitCallback 1000) s).
  { unfold s1. rewrite view_listener_quit by exact Hj. rewrite Hx. reflexivity. }
  split; [rewrite E; reflexivity|]. split; [rewrite E; reflexivity|].
  intros evs' s2 Hx2 Hn.
  set (t := {| tid := next_id s; deadline := now s + 1000; timer_cb := quitCallback |}).
  assert (Hk : keeps_timer t s1).
  { rewrite E. split; [exact Hx|]. cbn. apply in_or_app. right. left. reflexivity. }
  pose proof (quit_run l evs' s1 t Hi1 eq_refl (or_intror (or_introl Hk))) as Hq.
  fold s2 in Hq.
  pose proof (Inv_run l s1 evs' Hi1) as (_ & _ & Hc & _). fold s2 in Hc.
  destruct Hq as [Hq|[[_ Hq]|Hq]]; [congruence| |exact Hq].
  specialize (Hc Hx2 t Hq). cbn in Hc. lia.
Qed.

Lemma quit_comes_a_second_later_witness :
  let s := run mac_launch (startup mac_launch) [AppReady; Elapse 500] in
  In (1500, AppQuit) (trace (run mac_launch (handle mac_launch s IpcQuit) [Elapse 1000])).
Proof.
  intros s.
  assert (Hx : exitCode (run mac_launch (startup mac_launch) [AppReady; Elapse 500])
               = None) by (vm_compute; reflexivity).
  destruct (quit_comes_a_second_later mac_launch [AppReady; Elapse 500] Hx)
    as (_ & _ & H).
  apply (H [Elapse 1000]); vm_compute; [reflexivity|discriminate].
Defined.


End NotifierProofs.

(* ================================================================== *)
(** * Theorems: modules/requests.js and modules/logger.js              *)
(* ================================================================== *)

Module RequestsProofs.
Import Notifier Requests.

(** X17.  The two time stamps of an event are seconds, and the local one is
    the UTC one moved by the offset of the time zone, exactly: rounding
    to seconds never makes them drift apart.  The event is added after
    the events already there, which are kept as they are, a missing list
    counting as empty; a parameter that is not given is the empty
    string.  Without the time stamps and the parameters the list is the
    one of [Notifier.addEvent]. *)
Theorem local_time_is_utc_minus_offset (time : date) (events : option (list event))
    (eventType : ClientEventType) (eventLevel : ClientEventLevel)
    (eventDetail para1 para2 para3 para4 : value) :
  let before := match events with Some evs => evs | None => [] end in
  exists e,
    addEvent time events eventType eventLevel eventDetail para1 para2 para3 para4
    = (before ++ [e])%list /\
    localTime e = utcTime e - 60 * getTimezoneOffset time /\
    utcTime e * 1000 - 500 <= getTime time < utcTime e * 1000 + 500 /\
    (forall para, In para [parameter1 e; parameter2 e; parameter3 e; parameter4 e] ->
       exists text, para = str text) /\
    (parameter1 e = str EmptyString <-> truthy para1 = false) /\
    map forget
      (addEvent time events eventType eventLevel eventDetail para1 para2 para3 para4)
    = Notifier.addEvent (map forget before) eventType eventLevel eventDetail.
Proof.
  intros before. eexists. split; [reflexivity|]. cbn [localTime utcTime].
  unfold getLocalTime, getUTCTime, round_seconds. split; [|split; [|split; [|split]]].
  - replace (getTime time + - getTimezoneOffset time * 60 * 1000 + 500)
      with (getTime time + 500 + (- (60 * getTimezoneOffset time)) * 1000) by ring.
    rewrite Z.div_add by lia. ring.
  - Z.div_mod_to_equations. lia.
  - cbn [parameter1 parameter2 parameter3 parameter4].
    intros para [<-|[<-|[<-|[<-|[]]]]];
      unfold or_empty;
      match goal with |- context [truthy ?p] => destruct p as [| |x]; cbn end;
      try (eexists; reflexivity);
      destruct (x =? EmptyString)%string; cbn; eexists; reflexivity.
  - cbn [parameter1]. unfold or_empty.
    destruct para1 as [| |x]; cbn; try tauto.
    destruct (String.eqb_spec x EmptyString) as [->|N]; cbn; [tauto|].
    split; [intros [= E]; congruence|discriminate].
  - unfold addEvent, Notifier.addEvent. rewrite map_app. reflexivity.
Qed.

Lemma local_time_is_utc_minus_offset_witness :
  map localTime (addEvent noon None LOAD_UI INFO undefined undefined undefined
                   undefined undefined) = [1500019800].
Proof.
  destruct (local_time_is_utc_minus_offset noon None LOAD_UI INFO undefined undefined
              undefined undefined undefined) as (e & E & H & _).
  rewrite E. cbn [map app]. rewrite H.
  assert (U : utcTime e = 1500000000).
  { injection E as <-. reflexivity. }
  rewrite U. reflexivity.
Defined.

End RequestsProofs.

Module LoggerProofs.
Import Logger.
Local Open Scope string_scope.



End LoggerProofs.
